(** * Process-scheduler simulator: a shallow embedding and its properties

    The repository holds five Python files.  Four of them are stand-alone
    schedulers over process objects or dictionaries ([fcfs_scheduling.py],
    [priority_scheduling.py], [rr.py], [sjf.py]) and one is the GUI
    ([main.py]) whose [logic_*] methods re-implement the policies.

    Conventions of the embedding:
    - Python integers are [Z]; the true division [/] of the two
      dictionary-based schedulers is taken in exact rationals [Q].
    - A Python dict is a [gmap string value]; a failing subscript or a
      comparison of a string with a number is [None] (the call raises).
    - An object of a [Process] class is a record; a list of such objects is
      a store [list Process], and every other reference to an object (a
      queue entry, a result entry) is an index into that store, so that an
      attribute assignment is seen through every alias.  The objects of one
      input list are taken to be pairwise distinct.
    - A [while] loop is run with fuel: [None] means the fuel ran out. *)

From Stdlib Require Import ZArith QArith Qround Lia Lqa.
From stdpp Require Import base option list sorting gmap strings.

#[local] Open Scope Z_scope.

(** ** Python values and built-ins *)

Inductive value :=
  | VInt (z : Z)
  | VStr (s : string).

#[global] Instance value_eq_dec : EqDecision value.
Proof. solve_decision. Defined.

Abbreviation dict := (gmap string value).

(** [d[k]] used as a number: [KeyError] when the key is missing and
    [TypeError] when a string reaches arithmetic or an ordering test. *)
Definition get_int (d : dict) (k : string) : option Z :=
  match d !! k with
  | Some (VInt z) => Some z
  | _ => None
  end.

(** [min(l, key=key)]: the first element whose key is least.  Python keeps
    the running best and replaces it only by a strictly smaller key. *)
Definition min_by {A : Type} (key : A → Z) (l : list A) : option A :=
  match l with
  | [] => None
  | x :: l' => Some (fold_left (fun m y => if key y <? key m then y else m) l' x)
  end.

(** [sorted(l, key=key)] and [l.sort(key=key)]: both are stable, and a
    stable sort has one result only, so insertion sort stands for it. *)
Fixpoint insert_by {A : Type} (key : A → Z) (x : A) (l : list A) : list A :=
  match l with
  | [] => [x]
  | y :: l' => if key x <=? key y then x :: y :: l' else y :: insert_by key x l'
  end.

Definition sort_by {A : Type} (key : A → Z) (l : list A) : list A :=
  foldr (insert_by key) [] l.

(** [sum(...)] over integers. *)
Definition sum (l : list Z) : Z := fold_left Z.add l 0.

(** [a / b] on integers (true division), in exact rationals. *)
Definition true_div (a b : Z) : Q := (inject_Z a / inject_Z b)%Q.

(** [round(x, 2)] in exact rationals: nearest multiple of 1/100, a tie
    going to the even one. *)
Definition round_half_even (q : Q) : Z :=
  let f := Qfloor q in
  match ((q - inject_Z f) ?= (1 # 2))%Q with
  | Lt => f
  | Gt => f + 1
  | Eq => if Z.even f then f else f + 1
  end.

Definition round2 (q : Q) : Q := (inject_Z (round_half_even (q * 100)) / 100)%Q.

(** [while cond: body], the body total. *)
Fixpoint while {St : Type} (cond : St → bool) (body : St → St) (fuel : nat) (s : St)
  : option St :=
  match fuel with
  | O => None
  | S fuel' => if cond s then while cond body fuel' (body s) else Some s
  end.

(** [while cond: body], the body able to raise: the inner [None]. *)
Fixpoint while_raising {St : Type} (cond : St → bool) (body : St → option St)
    (fuel : nat) (s : St) : option (option St) :=
  match fuel with
  | O => None
  | S fuel' =>
      if cond s then
        match body s with
        | Some s' => while_raising cond body fuel' s'
        | None => Some None
        end
      else Some (Some s)
  end.

(** [for x in l: body], the body able to raise. *)
Fixpoint for_each {St A : Type} (body : St → A → option St) (l : list A) (s : St)
  : option St :=
  match l with
  | [] => Some s
  | x :: l' => s' ← body s x; for_each body l' s'
  end.

(** [enumerate(l)]. *)
Fixpoint enumerate_from {A : Type} (i : nat) (l : list A) : list (nat * A) :=
  match l with
  | [] => []
  | x :: l' => (i, x) :: enumerate_from (S i) l'
  end.

Definition enumerate {A : Type} (l : list A) : list (nat * A) := enumerate_from 0 l.

(** The arrival scan of both Round Robin loops,
    [for i, p in enumerate(processes):
         if test(p) and not flags[i]: queue.append(p); flags[i] = True],
    the queue holding positions in [processes]. *)
Definition enqueue_if {P : Type} (test : P → bool) (qa : list nat * list bool)
    (ip : nat * P) : list nat * list bool :=
  if test ip.2 && negb (default true (qa.2 !! ip.1))
  then (qa.1 ++ [ip.1], <[ip.1 := true]> qa.2)
  else qa.

Definition enqueue_arrivals {P : Type} (test : P → bool) (processes : list P)
    (queue : list nat) (flags : list bool) : list nat * list bool :=
  fold_left (enqueue_if test) (enumerate processes) (queue, flags).

(** A Gantt segment [(pid, start, end)]. *)
Definition segment : Type := value * Z * Z.

Definition duration (g : segment) : Z := g.2 - g.1.2.

(** ** fcfs_scheduling.py *)

Module Fcfs.

Record results := {
  processes : list dict;
  gantt_chart : list segment;
  avg_waiting_time : Q;
  avg_turnaround_time : Q;
  cpu_utilization : Q
}.

(** The state of the [for] loop: the clock, the chart, and the
    dictionaries already passed, each with its four new keys. *)
Definition loop_state : Type := Z * list segment * list dict.

(** Steps 3 to 8, one pass of the [for] loop. *)
Definition fcfs_body (st : loop_state) (process : dict) : option loop_state :=
  let '(current_time, gantt_chart, seen) := st in
  pid ← process !! "pid";
  arrival_time ← get_int process "arrival_time";
  burst_time ← get_int process "burst_time";
  let current_time :=
    if current_time <? arrival_time then arrival_time else current_time in
  let start_time := current_time in
  let completion_time := current_time + burst_time in
  let waiting_time := start_time - arrival_time in
  let turnaround_time := completion_time - arrival_time in
  let process :=
    <["turnaround_time" := VInt turnaround_time]>
      (<["waiting_time" := VInt waiting_time]>
         (<["completion_time" := VInt completion_time]>
            (<["start_time" := VInt start_time]> process))) in
  Some (completion_time,
        gantt_chart ++ [(pid, start_time, completion_time)],
        seen ++ [process]).

Definition fcfs_scheduling (processes : list dict) : option results :=
  (* Step 1 *)
  keys ← mapM (fun x => get_int x "arrival_time") processes;
  let sorted_processes := (sort_by fst (zip keys processes)).*2 in
  (* Steps 2 to 8 *)
  '(current_time, gantt_chart, sorted_processes) ←
    for_each fcfs_body sorted_processes (0, [], []);
  (* Step 9 *)
  waits ← mapM (fun p => get_int p "waiting_time") sorted_processes;
  tats ← mapM (fun p => get_int p "turnaround_time") sorted_processes;
  let total_waiting_time := sum waits in
  let total_turnaround_time := sum tats in
  let num_processes := Z.of_nat (length sorted_processes) in
  let avg_waiting_time :=
    if 0 <? num_processes then true_div total_waiting_time num_processes else 0%Q in
  let avg_turnaround_time :=
    if 0 <? num_processes then true_div total_turnaround_time num_processes else 0%Q in
  (* Step 10 *)
  bursts ← mapM (fun p => get_int p "burst_time") sorted_processes;
  let total_burst_time := sum bursts in
  total_time ←
    match sorted_processes with
    | p0 :: _ => a0 ← get_int p0 "arrival_time"; Some (current_time - a0)
    | [] => Some 0
    end;
  let cpu_utilization :=
    if 0 <? total_time then (true_div total_burst_time total_time * 100)%Q else 0%Q in
  (* Step 11 *)
  Some {| processes := sorted_processes;
          gantt_chart := gantt_chart;
          avg_waiting_time := avg_waiting_time;
          avg_turnaround_time := avg_turnaround_time;
          cpu_utilization := cpu_utilization |}.

(** The dictionary literal of the example section. *)
Definition mk_process (pid : value) (arrival_time burst_time : Z) : dict :=
  <["burst_time" := VInt burst_time]>
    (<["arrival_time" := VInt arrival_time]> ({["pid" := pid]})).

Definition processes_example1 : list dict :=
  [ mk_process (VStr "P1") 0 8;
    mk_process (VStr "P2") 1 4;
    mk_process (VStr "P3") 2 2 ].

End Fcfs.

(** ** rr.py *)

Module Rr.

Record Process := {
  pid : value;
  arrival : Z;
  burst : Z;
  remaining : Z;
  completion : Z;
  turnaround : Z;
  waiting : Z
}.

(** [Process.__init__]. *)
Definition new_Process (pid : value) (arrival burst : Z) : Process :=
  {| pid := pid; arrival := arrival; burst := burst; remaining := burst;
     completion := 0; turnaround := 0; waiting := 0 |}.

Definition set_remaining (v : Z) (p : Process) : Process :=
  {| pid := pid p; arrival := arrival p; burst := burst p; remaining := v;
     completion := completion p; turnaround := turnaround p; waiting := waiting p |}.

(** The three assignments of the [else] branch, in their order. *)
Definition finish (time : Z) (p : Process) : Process :=
  let completion := time in
  let turnaround := completion - arrival p in
  let waiting := turnaround - burst p in
  {| pid := pid p; arrival := arrival p; burst := burst p; remaining := remaining p;
     completion := completion; turnaround := turnaround; waiting := waiting |}.

(** The local variables of [round_robin]; [processes] is the caller's
    list (the store) and [queue] holds references into it. *)
Record state := {
  processes : list Process;
  time : Z;
  gantt : list segment;
  queue : list nat;
  completed : nat;
  arrived : list bool
}.

(** The body of [while completed < n]. *)
Definition body (time_quantum : Z) (st : state) : state :=
  let qa := enqueue_arrivals (fun p => arrival p <=? time st)
              (processes st) (queue st) (arrived st) in
  match qa.1 with
  | [] =>
      {| processes := processes st; time := time st + 1; gantt := gantt st;
         queue := []; completed := completed st; arrived := qa.2 |}
  | current :: queue =>
      match processes st !! current with
      | None => st (* a queue entry is always an object of the list *)
      | Some cur =>
          let start := time st in
          let execute_time := Z.min (remaining cur) time_quantum in
          let time := time st + execute_time in
          let cur := set_remaining (remaining cur - execute_time) cur in
          let processes := <[current := cur]> (processes st) in
          let end_ := time in
          let gantt := gantt st ++ [(pid cur, start, end_)] in
          let qa := enqueue_arrivals
                      (fun p => (start <? arrival p) && (arrival p <=? time))
                      processes queue qa.2 in
          if 0 <? remaining cur then
            {| processes := processes; time := time; gantt := gantt;
               queue := qa.1 ++ [current]; completed := completed st;
               arrived := qa.2 |}
          else
            {| processes := <[current := finish time cur]> processes;
               time := time; gantt := gantt; queue := qa.1;
               completed := S (completed st); arrived := qa.2 |}
      end
  end.

Definition init (processes : list Process) : state :=
  {| processes := sort_by arrival processes; time := 0; gantt := []; queue := [];
     completed := 0; arrived := replicate (length processes) false |}.

Definition cond (st : state) : bool := (completed st <? length (processes st))%nat.

(** [round_robin]: the Gantt chart it returns, and with it the caller's
    list as the call leaves it. *)
Definition round_robin (fuel : nat) (processes : list Process) (time_quantum : Z)
  : option (list segment * list Process) :=
  st ← while cond (body time_quantum) fuel (init processes);
  Some (gantt st, Rr.processes st).

Definition processes_example : list Process :=
  [ new_Process (VInt 1) 0 8; new_Process (VInt 2) 1 4; new_Process (VInt 3) 2 2 ].

End Rr.

(** ** sjf.py *)

Module Sjf.

Record Process := {
  pid : value;
  arrival : Z;
  burst : Z;
  remaining : Z;
  completion : option Z;   (* [None] until the process finishes *)
  turnaround : Z;
  waiting : Z
}.

(** [Process.__init__]. *)
Definition new_Process (pid : value) (arrival burst : Z) : Process :=
  {| pid := pid; arrival := arrival; burst := burst; remaining := burst;
     completion := None; turnaround := 0; waiting := 0 |}.

Definition set_remaining (v : Z) (p : Process) : Process :=
  {| pid := pid p; arrival := arrival p; burst := burst p; remaining := v;
     completion := completion p; turnaround := turnaround p; waiting := waiting p |}.

(** [completion], [turnaround] and [waiting], assigned in this order. *)
Definition finish (time : Z) (p : Process) : Process :=
  let completion := time in
  let turnaround := completion - arrival p in
  let waiting := turnaround - burst p in
  {| pid := pid p; arrival := arrival p; burst := burst p; remaining := remaining p;
     completion := Some completion; turnaround := turnaround; waiting := waiting |}.

(** *** sjf_non_preemptive *)

Record state := {
  processes : list Process;
  time : Z;
  completed : nat;
  gantt : list segment
}.

(** A member of [ready_queue] is a reference: the position of the object
    in [processes], paired here with the object as it is at this point. *)
Definition body (st : state) : state :=
  let ready_queue :=
    filter (fun ip => (arrival ip.2 <=? time st) && bool_decide (completion ip.2 = None))
           (enumerate (processes st)) in
  match min_by (fun ip => burst ip.2) ready_queue with
  | None =>
      {| processes := processes st; time := time st + 1;
         completed := completed st; gantt := gantt st |}
  | Some (i, current) =>
      let start := time st in
      let time := time st + burst current in
      let end_ := time in
      let current := finish end_ current in
      {| processes := <[i := current]> (processes st); time := time;
         completed := S (completed st);
         gantt := gantt st ++ [(pid current, start, end_)] |}
  end.

Definition cond (st : state) : bool := (completed st <? length (processes st))%nat.

Definition sjf_non_preemptive (fuel : nat) (processes : list Process)
  : option (list segment * list Process) :=
  st ← while cond body fuel
         {| processes := processes; time := 0; completed := 0; gantt := [] |};
  Some (gantt st, Sjf.processes st).

(** *** sjf_preemptive *)

(** Its chart has one entry [(pid, time)] per context switch. *)
Record pstate := {
  p_processes : list Process;
  p_time : Z;
  p_completed : nat;
  p_gantt : list (value * Z);
  current_process : option nat
}.

Definition pbody (st : pstate) : pstate :=
  let ready_queue :=
    filter (fun ip => (arrival ip.2 <=? p_time st) && (0 <? remaining ip.2))
           (enumerate (p_processes st)) in
  match min_by (fun ip => remaining ip.2) ready_queue with
  | None =>
      {| p_processes := p_processes st; p_time := p_time st + 1;
         p_completed := p_completed st; p_gantt := p_gantt st;
         current_process := current_process st |}
  | Some (i, shortest) =>
      let gantt :=
        if bool_decide (current_process st ≠ Some i)
        then p_gantt st ++ [(pid shortest, p_time st)] else p_gantt st in
      let shortest := set_remaining (remaining shortest - 1) shortest in
      let time := p_time st + 1 in
      if remaining shortest =? 0 then
        {| p_processes := <[i := finish time shortest]> (p_processes st);
           p_time := time; p_completed := S (p_completed st); p_gantt := gantt;
           current_process := Some i |}
      else
        {| p_processes := <[i := shortest]> (p_processes st);
           p_time := time; p_completed := p_completed st; p_gantt := gantt;
           current_process := Some i |}
  end.

Definition pcond (st : pstate) : bool :=
  (p_completed st <? length (p_processes st))%nat.

Definition sjf_preemptive (fuel : nat) (processes : list Process)
  : option (list (value * Z) * list Process) :=
  st ← while pcond pbody fuel
         {| p_processes := processes; p_time := 0; p_completed := 0; p_gantt := [];
            current_process := None |};
  Some (p_gantt st, p_processes st).

Definition processes_data : list Process :=
  [ new_Process (VInt 1) 0 8; new_Process (VInt 2) 1 4; new_Process (VInt 3) 2 2 ].

End Sjf.

(** ** priority_scheduling.py *)

Module Priority.

Record results := {
  results_ : list dict;            (* the key ['results'] *)
  gantt_chart : list segment;
  avg_waiting_time : Q;
  avg_turnaround_time : Q;
  cpu_utilization : Q
}.

Record state := {
  current_time : Z;
  completed_processes : list dict;
  st_gantt_chart : list segment
}.

(** [[p for p in processes if p['arrival_time'] <= current_time
      and p not in completed_processes]]; [in] compares dictionaries
    with [==], which is equality of finite maps. *)
Fixpoint available (processes : list dict) (current_time : Z)
    (completed_processes : list dict) : option (list dict) :=
  match processes with
  | [] => Some []
  | p :: ps =>
      a ← get_int p "arrival_time";
      rest ← available ps current_time completed_processes;
      Some (if (a <=? current_time) && bool_decide (p ∉ completed_processes)
            then p :: rest else rest)
  end.

(** [p['arrival_time'] for p in processes if p not in completed_processes]. *)
Definition pending_arrivals (processes : list dict) (completed_processes : list dict)
  : option (list Z) :=
  mapM (fun p => get_int p "arrival_time")
       (filter (fun p => p ∉ completed_processes) processes).

(** Steps 5 to 12, one pass of the [while] loop. *)
Definition body (processes : list dict) (st : state) : option state :=
  available_processes ← available processes (current_time st) (completed_processes st);
  match available_processes with
  | [] =>
      arrivals ← pending_arrivals processes (completed_processes st);
      next_arrival_time ← min_by id arrivals;   (* [ValueError] on no arrival *)
      Some {| current_time := next_arrival_time;
              completed_processes := completed_processes st;
              st_gantt_chart := st_gantt_chart st |}
  | _ =>
      keys ← mapM (fun p => get_int p "priority") available_processes;
      '(_, selected_process) ← min_by fst (zip keys available_processes);
      let start_time := current_time st in
      burst_time ← get_int selected_process "burst_time";
      let completion_time := start_time + burst_time in
      pid ← selected_process !! "pid";
      arrival_time ← get_int selected_process "arrival_time";
      let waiting_time := start_time - arrival_time in
      let turnaround_time := completion_time - arrival_time in
      priority ← selected_process !! "priority";
      let result : dict :=
        list_to_map
          [ ("pid", pid);
            ("arrival_time", VInt arrival_time);
            ("burst_time", VInt burst_time);
            ("priority", priority);
            ("start_time", VInt start_time);
            ("completion_time", VInt completion_time);
            ("waiting_time", VInt waiting_time);
            ("turnaround_time", VInt turnaround_time) ] in
      Some {| current_time := completion_time;
              completed_processes := completed_processes st ++ [result];
              st_gantt_chart := st_gantt_chart st ++ [(pid, start_time, completion_time)] |}
  end.

Definition cond (processes : list dict) (st : state) : bool :=
  (length (completed_processes st) <? length processes)%nat.

(** Steps 13 to 15, after the loop. *)
Definition summarize (st : state) : option results :=
  let completed_processes := completed_processes st in
  (* Step 13 *)
  waits ← mapM (fun p => get_int p "waiting_time") completed_processes;
  tats ← mapM (fun p => get_int p "turnaround_time") completed_processes;
  let total_waiting_time := sum waits in
  let total_turnaround_time := sum tats in
  let n := Z.of_nat (length completed_processes) in
  guard (n ≠ 0);;   (* [ZeroDivisionError] *)
  let avg_waiting_time := true_div total_waiting_time n in
  let avg_turnaround_time := true_div total_turnaround_time n in
  (* Step 14 *)
  bursts ← mapM (fun p => get_int p "burst_time") completed_processes;
  let total_busy_time := sum bursts in
  last_result ← last completed_processes;
  total_time_needed ← get_int last_result "completion_time";
  let cpu_utilization :=
    if 0 <? total_time_needed
    then (true_div total_busy_time total_time_needed * 100)%Q else 0%Q in
  (* Step 15 *)
  Some {| results_ := completed_processes;
          gantt_chart := st_gantt_chart st;
          avg_waiting_time := round2 avg_waiting_time;
          avg_turnaround_time := round2 avg_turnaround_time;
          cpu_utilization := round2 cpu_utilization |}.

(** The outer [None] is fuel running out, the inner one a raised error. *)
Definition priority_scheduling (fuel : nat) (processes : list dict)
  : option (option results) :=
  match processes with
  | [] =>
      (* Step 1 *)
      Some (Some {| results_ := []; gantt_chart := []; avg_waiting_time := 0;
                    avg_turnaround_time := 0; cpu_utilization := 0 |})
  | _ =>
      (* Steps 2 to 12; a copy of a dictionary is an equal dictionary *)
      match while_raising (cond processes) (body processes) fuel
              {| current_time := 0; completed_processes := [];
                 st_gantt_chart := [] |} with
      | None => None
      | Some None => Some None
      | Some (Some st) => Some (summarize st)
      end
  end.

(** The dictionary literal of the example section. *)
Definition mk_process (pid : value) (arrival_time burst_time priority : Z) : dict :=
  list_to_map
    [ ("pid", pid); ("arrival_time", VInt arrival_time);
      ("burst_time", VInt burst_time); ("priority", VInt priority) ].

Definition processes_example : list dict :=
  [ mk_process (VStr "P1") 0 5 2; mk_process (VStr "P2") 1 3 1;
    mk_process (VStr "P3") 2 4 3; mk_process (VStr "P4") 3 2 2 ].

End Priority.

(** ** main.py *)

Module Main.

Record Process := {
  pid : value;
  arrival_time : Z;
  burst_time : Z;
  priority : Z;
  start_time : Z;
  completion_time : Z;
  waiting_time : Z;
  turnaround_time : Z;
  remaining_time : Z
}.

(** [Process.__init__]. *)
Definition new_Process (pid : value) (arrival burst priority : Z) : Process :=
  {| pid := pid; arrival_time := arrival; burst_time := burst; priority := priority;
     start_time := 0; completion_time := 0; waiting_time := 0; turnaround_time := 0;
     remaining_time := burst |}.

(** The four assignments shared by [logic_fcfs], [logic_sjf] and
    [logic_priority]: start, completion, turnaround, waiting. *)
Definition run_whole (t : Z) (p : Process) : Process :=
  let start_time := t in
  let completion_time := t + burst_time p in
  let turnaround_time := completion_time - arrival_time p in
  let waiting_time := turnaround_time - burst_time p in
  {| pid := pid p; arrival_time := arrival_time p; burst_time := burst_time p;
     priority := priority p; start_time := start_time;
     completion_time := completion_time; waiting_time := waiting_time;
     turnaround_time := turnaround_time; remaining_time := remaining_time p |}.

Definition set_remaining_time (v : Z) (p : Process) : Process :=
  {| pid := pid p; arrival_time := arrival_time p; burst_time := burst_time p;
     priority := priority p; start_time := start_time p;
     completion_time := completion_time p; waiting_time := waiting_time p;
     turnaround_time := turnaround_time p; remaining_time := v |}.

(** The three assignments of [logic_rr] when a process finishes. *)
Definition finish (t : Z) (p : Process) : Process :=
  let completion_time := t in
  let turnaround_time := t - arrival_time p in
  let waiting_time := turnaround_time - burst_time p in
  {| pid := pid p; arrival_time := arrival_time p; burst_time := burst_time p;
     priority := priority p; start_time := start_time p;
     completion_time := completion_time; waiting_time := waiting_time;
     turnaround_time := turnaround_time; remaining_time := remaining_time p |}.

(** *** logic_fcfs *)

Definition fcfs_step (acc : Z * list Process) (p : Process) : Z * list Process :=
  let t := if acc.1 <? arrival_time p then arrival_time p else acc.1 in
  let p := run_whole t p in
  (completion_time p, acc.2 ++ [p]).

Definition logic_fcfs (procs : list Process) : list Process :=
  let procs := sort_by arrival_time procs in
  (fold_left fcfs_step procs (0, [])).2.

(** *** logic_sjf and logic_priority: one loop, two ranking keys *)

Record state := {
  procs : list Process;
  t : Z;
  count : nat;
  res : list nat;     (* references into [procs] *)
  comp : list bool
}.

(** [[i for i in range(n) if procs[i].arrival_time <= t and not comp[i]]]:
    each position is paired with the object it names. *)
Definition avail (st : state) : list (nat * Process) :=
  filter (fun ip => (arrival_time ip.2 <=? t st) && negb (default true (comp st !! ip.1)))
         (enumerate (procs st)).

Definition select_body (key : Process → Z) (st : state) : state :=
  match min_by (fun ip => key ip.2) (avail st) with
  | None =>
      {| procs := procs st; t := t st + 1; count := count st; res := res st;
         comp := comp st |}
  | Some (idx, p) =>
      let p := run_whole (t st) p in
      {| procs := <[idx := p]> (procs st); t := completion_time p;
         count := S (count st); res := res st ++ [idx];
         comp := <[idx := true]> (comp st) |}
  end.

Definition cond (st : state) : bool := (count st <? length (procs st))%nat.

Definition select_loop (key : Process → Z) (fuel : nat) (procs : list Process)
  : option (list Process) :=
  st ← while cond (select_body key) fuel
         {| procs := procs; t := 0; count := 0; res := [];
            comp := replicate (length procs) false |};
  Some (omap (fun i => Main.procs st !! i) (res st)).

Definition logic_sjf : nat → list Process → option (list Process) :=
  select_loop burst_time.

Definition logic_priority : nat → list Process → option (list Process) :=
  select_loop priority.

(** *** logic_rr *)

Record rr_state := {
  rr_procs : list Process;
  queue : list nat;    (* references into [rr_procs] *)
  rr_t : Z;
  rr_count : nat;
  rr_res : list nat;
  visited : list bool;
  gantt_log : list segment
}.

Definition rr_body (q : Z) (st : rr_state) : rr_state :=
  match queue st with
  | [] =>
      let t := rr_t st + 1 in
      let qv := enqueue_arrivals (fun p => arrival_time p <=? t)
                 (rr_procs st) [] (visited st) in
      {| rr_procs := rr_procs st; queue := qv.1; rr_t := t; rr_count := rr_count st;
         rr_res := rr_res st; visited := qv.2; gantt_log := gantt_log st |}
  | c :: queue =>
      match rr_procs st !! c with
      | None => st (* a queue entry is always an object of the list *)
      | Some curr =>
          let start_this_turn := rr_t st in
          let run := Z.min (remaining_time curr) q in
          let curr := set_remaining_time (remaining_time curr - run) curr in
          let t := rr_t st + run in
          let procs := <[c := curr]> (rr_procs st) in
          let gantt_log := gantt_log st ++ [(pid curr, start_this_turn, t)] in
          let qv := enqueue_arrivals (fun p => arrival_time p <=? t)
                      procs queue (visited st) in
          if 0 <? remaining_time curr then
            {| rr_procs := procs; queue := qv.1 ++ [c]; rr_t := t;
               rr_count := rr_count st; rr_res := rr_res st; visited := qv.2;
               gantt_log := gantt_log |}
          else
            {| rr_procs := <[c := finish t curr]> procs; queue := qv.1; rr_t := t;
               rr_count := S (rr_count st); rr_res := rr_res st ++ [c];
               visited := qv.2; gantt_log := gantt_log |}
      end
  end.

Definition rr_cond (st : rr_state) : bool :=
  (rr_count st <? length (rr_procs st))%nat.

(** [logic_rr] returns [res]; [self.rr_gantt_data] is given with it.  The
    outer [None] is fuel running out, the inner one the [IndexError] of
    [procs[0]] on an empty list. *)
Definition logic_rr (fuel : nat) (procs : list Process) (q : Z)
  : option (option (list Process * list segment)) :=
  let procs := sort_by arrival_time procs in
  match procs with
  | [] => Some None
  | _ :: _ =>
      st ← while rr_cond (rr_body q) fuel
             {| rr_procs := procs; queue := [0%nat]; rr_t := 0; rr_count := 0;
                rr_res := []; visited := <[0%nat := true]> (replicate (length procs) false);
                gantt_log := [] |};
      Some (Some (omap (fun i => rr_procs st !! i) (rr_res st), gantt_log st))
  end.

(** [draw_gantt] for the policies other than Round Robin: the segments
    it draws, sorted by start time. *)
Definition draw_data (res : list Process) : list segment :=
  map (fun p => (pid p, start_time p, completion_time p)) (sort_by start_time res).

End Main.

(** * Properties *)

(** ** The built-ins *)

Section Builtins.
Context {A : Type}.
Implicit Types (key : A → Z) (l : list A).

Lemma min_by_fold_split key l pre mid m :
  Forall (fun y => key m < key y) pre →
  Forall (fun y => key m ≤ key y) mid →
  ∃ pre' post,
    pre ++ m :: mid ++ l
      = pre' ++ fold_left (fun m y => if key y <? key m then y else m) l m :: post
    ∧ Forall (fun y => key (fold_left (fun m y => if key y <? key m then y else m) l m) < key y) pre'
    ∧ Forall (fun y => key (fold_left (fun m y => if key y <? key m then y else m) l m) ≤ key y) post.
Proof.
  revert pre mid m. induction l as [|y l IH]; intros pre mid m Hpre Hmid; simpl.
  - exists pre, mid. by rewrite app_nil_r.
  - destruct (Z.ltb_spec (key y) (key m)) as [Hlt|Hge].
    + destruct (IH (pre ++ m :: mid) [] y) as (pre' & post & Heq & H1 & H2).
      * apply Forall_app; split; [|constructor].
        -- eapply Forall_impl; [exact Hpre|]. simpl. lia.
        -- done.
        -- eapply Forall_impl; [exact Hmid|]. simpl. lia.
      * constructor.
      * exists pre', post. split; [|done].
        rewrite <- Heq. by rewrite <- !app_assoc.
    + destruct (IH pre (mid ++ [y]) m) as (pre' & post & Heq & H1 & H2).
      * done.
      * apply Forall_app; split; [done|]. by constructor.
      * exists pre', post. split; [|done].
        rewrite <- Heq. by rewrite <- !app_assoc.
Qed.

(** [min] returns the first of the least elements. *)
Lemma min_by_first_least key l x :
  min_by key l = Some x →
  ∃ pre post, l = pre ++ x :: post
    ∧ Forall (fun y => key x < key y) pre
    ∧ Forall (fun y => key x ≤ key y) post.
Proof.
  destruct l as [|a l]; [done|]. simpl. intros [= <-].
  destruct (min_by_fold_split key l [] [] a) as (pre & post & Heq & H1 & H2);
    [constructor..|].
  exists pre, post. by rewrite <- Heq.
Qed.

Lemma min_by_None key l : min_by key l = None ↔ l = [].
Proof. by destruct l. Qed.

Lemma min_by_is_Some key l : l ≠ [] → is_Some (min_by key l).
Proof. destruct l; [done|]. by eexists. Qed.

Lemma insert_by_Permutation key x l : insert_by key x l ≡ₚ x :: l.
Proof.
  induction l as [|y l IH]; simpl; [done|].
  destruct (key x <=? key y); [done|].
  rewrite IH. apply Permutation_swap.
Qed.

Lemma sort_by_Permutation key l : sort_by key l ≡ₚ l.
Proof.
  induction l as [|x l IH]; simpl; [done|].
  by rewrite insert_by_Permutation, IH.
Qed.

Lemma sort_by_length key l : length (sort_by key l) = length l.
Proof. apply Permutation_length, sort_by_Permutation. Qed.

Lemma insert_by_sorted key x l :
  StronglySorted (fun a b => key a ≤ key b) l →
  StronglySorted (fun a b => key a ≤ key b) (insert_by key x l).
Proof.
  induction 1 as [|y l Hs IH Hy]; simpl.
  - repeat constructor.
  - destruct (Z.leb_spec (key x) (key y)) as [Hle|Hgt].
    + constructor; [by constructor|].
      constructor; [done|]. eapply Forall_impl; [exact Hy|]. simpl. lia.
    + constructor; [done|].
      rewrite insert_by_Permutation. constructor; [lia|done].
Qed.

Lemma sort_by_sorted key l :
  StronglySorted (fun a b => key a ≤ key b) (sort_by key l).
Proof.
  induction l as [|x l IH]; simpl; [constructor|].
  by apply insert_by_sorted.
Qed.

(** A sorted list is left as it is. *)
Lemma sort_by_id key l :
  StronglySorted (fun a b => key a ≤ key b) l → sort_by key l = l.
Proof.
  induction 1 as [|x l Hs IH Hx]; simpl; [done|].
  rewrite IH. destruct l as [|y l]; [done|]. simpl.
  apply Forall_cons in Hx as [Hxy _].
  destruct (Z.leb_spec (key x) (key y)); [done|lia].
Qed.
End Builtins.

(** ** Loops with fuel *)

Section While.
Context {St : Type} (cond : St → bool) (body : St → St).

Lemma while_more_fuel fuel fuel' s r :
  while cond body fuel s = Some r → (fuel ≤ fuel')%nat →
  while cond body fuel' s = Some r.
Proof.
  revert fuel' s. induction fuel as [|fuel IH]; intros fuel' s; simpl; [done|].
  intros Hrun Hle. destruct fuel' as [|fuel']; [lia|]. simpl.
  destruct (cond s); [|done]. apply IH; [done|lia].
Qed.

(** A result does not depend on the fuel that gave it. *)
Lemma while_deterministic fuel fuel' s r r' :
  while cond body fuel s = Some r → while cond body fuel' s = Some r' → r = r'.
Proof.
  intros H1 H2.
  apply (while_more_fuel _ (fuel + fuel')) in H1; [|lia].
  apply (while_more_fuel _ (fuel + fuel')) in H2; [|lia].
  congruence.
Qed.

(** The invariant rule. *)
Lemma while_invariant (I : St → Prop) fuel s r :
  (∀ s, I s → cond s = true → I (body s)) →
  I s → while cond body fuel s = Some r → I r ∧ cond r = false.
Proof.
  intros Hstep. revert s. induction fuel as [|fuel IH]; intros s Hs; simpl; [done|].
  destruct (cond s) eqn:Hc.
  - intros Hrun. by apply (IH (body s)); [apply Hstep|].
  - by intros [= <-].
Qed.

(** Termination by a pair of measures, ordered lexicographically. *)
Lemma while_terminates (I : St → Prop) (m1 m2 : St → nat) :
  (∀ s, I s → cond s = true →
        I (body s) ∧
        ((m1 (body s) < m1 s)%nat ∨ (m1 (body s) ≤ m1 s ∧ m2 (body s) < m2 s)%nat)) →
  ∀ s, I s → ∃ fuel r, while cond body fuel s = Some r ∧ I r ∧ cond r = false.
Proof.
  intros Hstep.
  assert (∀ n1 n2 s, I s → (m1 s ≤ n1)%nat → (m2 s ≤ n2)%nat →
            ∃ fuel r, while cond body fuel s = Some r ∧ I r ∧ cond r = false) as Hall.
  { induction n1 as [n1 IH1] using lt_wf_ind.
    induction n2 as [n2 IH2] using lt_wf_ind.
    intros s Hs H1 H2. destruct (cond s) eqn:Hc.
    - destruct (Hstep s Hs Hc) as [Hs' [Hlt|[Hle Hlt]]].
      + destruct (IH1 (m1 (body s)) ltac:(lia) (m2 (body s)) (body s) Hs')
          as (fuel & r & Hrun & Hr); [lia..|].
        exists (S fuel), r. simpl. by rewrite Hc.
      + destruct (IH2 (m2 (body s)) ltac:(lia) (body s) Hs')
          as (fuel & r & Hrun & Hr); [lia..|].
        exists (S fuel), r. simpl. by rewrite Hc.
    - exists 1%nat, s. simpl. by rewrite Hc. }
  intros s Hs. by apply (Hall (m1 s) (m2 s)).
Qed.
End While.

Section WhileRaising.
Context {St : Type} (cond : St → bool) (body : St → option St).

Lemma while_raising_terminates (I : St → Prop) (m1 m2 : St → nat) :
  (∀ s, I s → cond s = true →
        ∃ s', body s = Some s' ∧ I s' ∧
        ((m1 s' < m1 s)%nat ∨ (m1 s' ≤ m1 s ∧ m2 s' < m2 s)%nat)) →
  ∀ s, I s →
    ∃ fuel r, while_raising cond body fuel s = Some (Some r) ∧ I r ∧ cond r = false.
Proof.
  intros Hstep.
  assert (∀ n1 n2 s, I s → (m1 s ≤ n1)%nat → (m2 s ≤ n2)%nat →
            ∃ fuel r, while_raising cond body fuel s = Some (Some r)
                      ∧ I r ∧ cond r = false) as Hall.
  { induction n1 as [n1 IH1] using lt_wf_ind.
    induction n2 as [n2 IH2] using lt_wf_ind.
    intros s Hs H1 H2. destruct (cond s) eqn:Hc.
    - destruct (Hstep s Hs Hc) as (s' & Hb & Hs' & [Hlt|[Hle Hlt]]).
      + destruct (IH1 (m1 s') ltac:(lia) (m2 s') s' Hs')
          as (fuel & r & Hrun & Hr); [lia..|].
        exists (S fuel), r. simpl. by rewrite Hc, Hb.
      + destruct (IH2 (m2 s') ltac:(lia) s' Hs')
          as (fuel & r & Hrun & Hr); [lia..|].
        exists (S fuel), r. simpl. by rewrite Hc, Hb.
    - exists 1%nat, s. simpl. by rewrite Hc. }
  intros s Hs. by apply (Hall (m1 s) (m2 s)).
Qed.

Lemma while_raising_more_fuel fuel fuel' s r :
  while_raising cond body fuel s = Some r → (fuel ≤ fuel')%nat →
  while_raising cond body fuel' s = Some r.
Proof.
  revert fuel' s. induction fuel as [|fuel IH]; intros fuel' s; simpl; [done|].
  intros Hrun Hle. destruct fuel' as [|fuel']; [lia|]. simpl.
  destruct (cond s); [|done]. destruct (body s); [|done]. apply IH; [done|lia].
Qed.
End WhileRaising.

(** ** Sums and positions *)

Section Lists.
Context {A : Type}.
Implicit Types (l : list A) (f : A → Z).

Lemma sum_fold (zs : list Z) (a : Z) : fold_left Z.add zs a = a + sum zs.
Proof.
  unfold sum. revert a. induction zs as [|z zs IH]; intros a; simpl; [lia|].
  rewrite (IH (a + z)), (IH (0 + z)). lia.
Qed.

Lemma sum_cons (z : Z) (zs : list Z) : sum (z :: zs) = z + sum zs.
Proof. unfold sum at 1. simpl. rewrite sum_fold. lia. Qed.

Lemma sum_nil : sum [] = 0.
Proof. done. Qed.

Lemma sum_app (xs ys : list Z) : sum (xs ++ ys) = sum xs + sum ys.
Proof.
  induction xs as [|x xs IH]; simpl; [by rewrite sum_nil|].
  rewrite !sum_cons, IH. lia.
Qed.

Lemma sum_Permutation (xs ys : list Z) : xs ≡ₚ ys → sum xs = sum ys.
Proof.
  induction 1; rewrite ?sum_cons, ?sum_nil in *; lia.
Qed.

(** Replacing one element moves the sum by the difference. *)
Lemma sum_map_insert f l i x y :
  l !! i = Some x →
  sum (map f (<[i := y]> l)) = sum (map f l) - f x + f y.
Proof.
  revert i. induction l as [|a l IH]; intros [|i]; simpl; try done.
  - intros [= ->]. rewrite !sum_cons. lia.
  - intros Hi. rewrite !sum_cons, (IH i Hi). lia.
Qed.

Lemma sum_map_le f g l :
  Forall (fun x => f x ≤ g x) l → sum (map f l) ≤ sum (map g l).
Proof.
  induction 1; simpl; rewrite ?sum_cons; [done|lia].
Qed.

Lemma sum_map_lt f g l x :
  Forall (fun x => f x ≤ g x) l → x ∈ l → f x < g x →
  sum (map f l) < sum (map g l).
Proof.
  intros Hle Hin Hlt. induction Hle as [|a l Ha Hl IH]; [by inversion Hin|].
  simpl. rewrite !sum_cons. apply sum_map_le in Hl as Hl'.
  apply elem_of_cons in Hin as [<-|Hin]; [lia|].
  specialize (IH Hin). lia.
Qed.

Lemma sum_map_nonneg f l : (∀ x, 0 ≤ f x) → 0 ≤ sum (map f l).
Proof.
  intros Hf. induction l as [|a l IH]; simpl; [done|].
  rewrite sum_cons. specialize (Hf a). lia.
Qed.

Lemma enumerate_from_lookup (k i : nat) l :
  enumerate_from k l !! i = (fun x => ((k + i)%nat, x)) <$> l !! i.
Proof.
  revert k i. induction l as [|a l IH]; intros k [|i]; simpl; try done.
  - by rewrite Nat.add_0_r.
  - rewrite IH. by replace (S k + i)%nat with (k + S i)%nat by lia.
Qed.

Lemma elem_of_enumerate_from (k i : nat) x l :
  (i, x) ∈ enumerate_from k l ↔ (k ≤ i)%nat ∧ l !! (i - k)%nat = Some x.
Proof.
  rewrite list_elem_of_lookup. split.
  - intros [j Hj]. rewrite enumerate_from_lookup in Hj.
    destruct (l !! j) eqn:Hl; simplify_eq/=.
    split; [lia|]. by replace (k + j - k)%nat with j by lia.
  - intros [Hk Hl]. exists (i - k)%nat. rewrite enumerate_from_lookup, Hl. simpl.
    do 2 f_equal. lia.
Qed.

Lemma elem_of_enumerate (i : nat) x l : (i, x) ∈ enumerate l ↔ l !! i = Some x.
Proof.
  unfold enumerate. rewrite elem_of_enumerate_from, Nat.sub_0_r.
  split; [by intros [_ ?]|intros ?; split; [lia|done]].
Qed.

Lemma enumerate_from_length (k : nat) l : length (enumerate_from k l) = length l.
Proof. revert k. induction l; intros k; simpl; [done|]. by rewrite IHl. Qed.

Lemma enumerate_from_snd (k : nat) l : (enumerate_from k l).*2 = l.
Proof. revert k. induction l; intros k; simpl; [done|]. by rewrite IHl. Qed.

Lemma enumerate_from_fst (k : nat) l : (enumerate_from k l).*1 = seq k (length l).
Proof. revert k. induction l; intros k; simpl; [done|]. by rewrite IHl. Qed.
End Lists.

(** ** Runs on concrete inputs *)

(** A finished run is examined through its result. *)
Lemma returns_with {A : Type} (P : A → Prop) (o : option A) :
  from_option P False o → ∃ r, o = Some r ∧ P r.
Proof. destruct o as [r|]; [|done]. by exists r. Qed.

Lemma returns_without_raising_with {A : Type} (P : A → Prop) (o : option (option A)) :
  from_option (from_option P False) False o → ∃ r, o = Some (Some r) ∧ P r.
Proof. destruct o as [[r|]|]; [|done..]. by exists r. Qed.

(** C2. On P1(arrival 0, burst 8), P2(1, 4), P3(2, 2) [fcfs_scheduling]
    returns the chart P1 0-8, P2 8-12, P3 12-14, the waiting times 0, 7, 10,
    the turnaround times 8, 11, 12, the averages 17/3 and 31/3 (5.67 and
    10.33 to two decimals) and a CPU utilization of 100. *)
Theorem fcfs_example1_result :
  ∃ r, Fcfs.fcfs_scheduling Fcfs.processes_example1 = Some r
    ∧ Fcfs.gantt_chart r
        = [(VStr "P1", 0, 8); (VStr "P2", 8, 12); (VStr "P3", 12, 14)]
    ∧ map (fun p => p !! "pid") (Fcfs.processes r)
        = [Some (VStr "P1"); Some (VStr "P2"); Some (VStr "P3")]
    ∧ map (fun p => get_int p "waiting_time") (Fcfs.processes r)
        = [Some 0; Some 7; Some 10]
    ∧ map (fun p => get_int p "turnaround_time") (Fcfs.processes r)
        = [Some 8; Some 11; Some 12]
    ∧ (Fcfs.avg_waiting_time r == 17 # 3)%Q
    ∧ (Fcfs.avg_turnaround_time r == 31 # 3)%Q
    ∧ (round2 (Fcfs.avg_waiting_time r) == 567 # 100)%Q
    ∧ (round2 (Fcfs.avg_turnaround_time r) == 1033 # 100)%Q
    ∧ (Fcfs.cpu_utilization r == 100)%Q.
Proof.
  apply returns_with. vm_compute. repeat split; reflexivity.
Qed.

(** C1. [logic_rr] puts [procs[0]] in the queue at time 0 without looking at
    its arrival time.  One process arriving at 5 with burst 2, quantum 2:
    it runs from 0 to 2 and gets turnaround -3 and waiting -5. *)
Theorem logic_rr_first_process_runs_before_arrival :
  Main.logic_rr 2 [Main.new_Process (VStr "P1") 5 2 0] 2
  = Some (Some ([ {| Main.pid := VStr "P1"; Main.arrival_time := 5;
                     Main.burst_time := 2; Main.priority := 0;
                     Main.start_time := 0; Main.completion_time := 2;
                     Main.waiting_time := -5; Main.turnaround_time := -3;
                     Main.remaining_time := 0 |} ],
                 [(VStr "P1", 0, 2)])).
Proof. vm_compute. reflexivity. Qed.

(** C7. With quantum 2, not below any burst, [logic_rr] and [logic_fcfs]
    differ on P1(arrival 3, burst 2), P2(arrival 4, burst 1): Round Robin
    runs P1 from 0 to 2, FCFS from 3 to 5. *)
Theorem logic_rr_large_quantum_differs_from_logic_fcfs :
  let procs := [Main.new_Process (VStr "P1") 3 2 0; Main.new_Process (VStr "P2") 4 1 0] in
  ∃ res gantt,
    Main.logic_rr 10 procs 2 = Some (Some (res, gantt))
    ∧ gantt = [(VStr "P1", 0, 2); (VStr "P2", 4, 5)]
    ∧ Main.draw_data (Main.logic_fcfs procs) = [(VStr "P1", 3, 5); (VStr "P2", 5, 6)]
    ∧ map Main.completion_time res = [2; 5]
    ∧ map Main.completion_time (Main.logic_fcfs procs) = [5; 6].
Proof.
  intros procs.
  cut (from_option (from_option (fun rg : list Main.Process * list segment =>
         rg.2 = [(VStr "P1", 0, 2); (VStr "P2", 4, 5)]
         ∧ Main.draw_data (Main.logic_fcfs procs) = [(VStr "P1", 3, 5); (VStr "P2", 5, 6)]
         ∧ map Main.completion_time rg.1 = [2; 5]
         ∧ map Main.completion_time (Main.logic_fcfs procs) = [5; 6]) False) False
       (Main.logic_rr 10 procs 2)).
  { intros H. apply returns_without_raising_with in H as ([res gantt] & ? & ?).
    by exists res, gantt. }
  vm_compute. repeat split; reflexivity.
Qed.

(** [priority_scheduling] tests [p not in completed_processes] with a
    four-key input dictionary against eight-key result dictionaries, which
    is always true, so a finished process stays available.  On A(arrival 0,
    burst 1, priority 1), B(0, 2, 2) it runs A twice: the segments last 2
    in all, the bursts 3. *)
Lemma priority_scheduling_segments_miss_burst_total :
  let input := [Priority.mk_process (VStr "A") 0 1 1; Priority.mk_process (VStr "B") 0 2 2] in
  ∃ r, Priority.priority_scheduling 3 input = Some (Some r)
    ∧ Priority.gantt_chart r = [(VStr "A", 0, 1); (VStr "A", 1, 2)]
    ∧ sum (map duration (Priority.gantt_chart r)) = 2
    ∧ mapM (fun p => get_int p "burst_time") input = Some [1; 2].
Proof.
  apply returns_without_raising_with. vm_compute. repeat split; reflexivity.
Qed.

(** C8. On the four processes of its own example section
    [priority_scheduling] stops after four segments, P1 once and P2 three
    times; P3 and P4 are never run and get no completion time. *)
Theorem priority_scheduling_example_leaves_processes_unfinished :
  ∃ r, Priority.priority_scheduling 5 Priority.processes_example = Some (Some r)
    ∧ Priority.gantt_chart r
        = [(VStr "P1", 0, 5); (VStr "P2", 5, 8); (VStr "P2", 8, 11); (VStr "P2", 11, 14)]
    ∧ map (fun p => p !! "pid") (Priority.results_ r)
        = [Some (VStr "P1"); Some (VStr "P2"); Some (VStr "P2"); Some (VStr "P2")]
    ∧ map (fun p => get_int p "completion_time") (Priority.results_ r)
        = [Some 5; Some 8; Some 11; Some 14].
Proof.
  apply returns_without_raising_with. vm_compute. repeat split; reflexivity.
Qed.

(** C4, against the claim.  X(arrival 0, burst 5, priority 0), A(2, 1, 1),
    B(1, 1, 1) in this input order: at time 5 both A and B are ready with
    priority 1, and [logic_priority] starts A, the later arrival, at 5 and
    B at 6.  [priority_scheduling] on A(2, 1, 1), B(1, 1, 1), C(0, 3, 1)
    runs C and then, at time 3, A although B arrived before it (and A once
    more after that, a finished process staying available there). *)
Lemma priority_tie_goes_to_input_order_not_arrival :
  (∃ res, Main.logic_priority 10
            [ Main.new_Process (VStr "X") 0 5 0; Main.new_Process (VStr "A") 2 1 1;
              Main.new_Process (VStr "B") 1 1 1 ] = Some res
     ∧ map (fun p => (Main.pid p, Main.arrival_time p, Main.priority p, Main.start_time p)) res
       = [ (VStr "X", 0, 0, 0); (VStr "A", 2, 1, 5); (VStr "B", 1, 1, 6) ])
  ∧ (∃ r, Priority.priority_scheduling 4
            [ Priority.mk_process (VStr "A") 2 1 1; Priority.mk_process (VStr "B") 1 1 1;
              Priority.mk_process (VStr "C") 0 3 1 ] = Some (Some r)
     ∧ Priority.gantt_chart r = [(VStr "C", 0, 3); (VStr "A", 3, 4); (VStr "A", 4, 5)]).
Proof.
  split.
  - apply returns_with. vm_compute. by split.
  - apply returns_without_raising_with. vm_compute. by split.
Qed.



(** ** The arrival scan *)

Section Scan.
Context {P : Type} (test : P → bool).
Implicit Types (ps : list P) (q : list nat) (a : list bool).

(** The positions the scan enqueues: the processes, in list order, that
    pass the test and are not flagged yet. *)
Definition newly_from (k : nat) ps a : list nat :=
  (filter (fun ip : nat * P => test ip.2 && negb (default true (a !! ip.1)))
          (enumerate_from k ps)).*1.

Definition newly ps a : list nat := newly_from 0 ps a.

(** The flags that are still down. *)
Definition unset a : nat := length (filter (fun b : bool => b = false) a).

Lemma newly_from_cons k p ps a :
  newly_from k (p :: ps) a
  = if test p && negb (default true (a !! k))
    then k :: newly_from (S k) ps a else newly_from (S k) ps a.
Proof.
  unfold newly_from. simpl. rewrite filter_cons. simpl.
  by destruct (test p && negb (default true (a !! k))).
Qed.

Lemma elem_of_newly_from k ps a i :
  i ∈ newly_from k ps a ↔
  (k ≤ i)%nat ∧ a !! i = Some false ∧ ∃ p, ps !! (i - k)%nat = Some p ∧ test p = true.
Proof.
  revert k. induction ps as [|p ps IH]; intros k.
  - unfold newly_from. simpl. split; [by intros ?%elem_of_nil|].
    by intros (_ & _ & ? & ? & _).
  - rewrite newly_from_cons.
    assert (i ∈ newly_from (S k) ps a ↔
            (k < i)%nat ∧ a !! i = Some false
            ∧ ∃ p', (p :: ps) !! (i - k)%nat = Some p' ∧ test p' = true) as IH'.
    { rewrite IH. split.
      - intros (Hk & Ha & p' & Hp & Ht). split; [lia|]. split; [done|].
        exists p'. split; [|done].
        by replace (i - k)%nat with (S (i - S k)) by lia.
      - intros (Hk & Ha & p' & Hp & Ht). split; [lia|]. split; [done|].
        exists p'. split; [|done].
        by replace (i - k)%nat with (S (i - S k)) in Hp by lia. }
    destruct (test p) eqn:Htest; simpl.
    + destruct (a !! k) as [[]|] eqn:Hak; simpl.
      * rewrite IH'. split; [naive_solver lia|].
        intros (Hk & Ha & Hp). split; [|done].
        destruct (decide (i = k)) as [->|]; [congruence|lia].
      * rewrite elem_of_cons, IH'. split.
        -- intros [->|(? & ? & ?)]; [|naive_solver lia].
           split; [lia|]. split; [done|]. exists p.
           by rewrite Nat.sub_diag.
        -- intros (Hk & Ha & Hp).
           destruct (decide (i = k)) as [->|]; [by left|right].
           split; [lia|done].
      * rewrite IH'. split; [naive_solver lia|].
        intros (Hk & Ha & Hp). split; [|done].
        destruct (decide (i = k)) as [->|]; [congruence|lia].
    + rewrite IH'. split; [naive_solver lia|].
      intros (Hk & Ha & p' & Hp & Ht). split; [|by eauto].
      destruct (decide (i = k)) as [->|]; [|lia].
      rewrite Nat.sub_diag in Hp. simpl in Hp. congruence.
Qed.

Lemma elem_of_newly ps a i :
  i ∈ newly ps a ↔ a !! i = Some false ∧ ∃ p, ps !! i = Some p ∧ test p = true.
Proof.
  unfold newly. rewrite elem_of_newly_from, Nat.sub_0_r. naive_solver lia.
Qed.

Lemma newly_from_insert_before k j v ps a :
  (j < k)%nat → newly_from k ps (<[j := v]> a) = newly_from k ps a.
Proof.
  revert k. induction ps as [|p ps IH]; intros k Hj; [done|].
  rewrite !newly_from_cons, (IH (S k)) by lia.
  by rewrite list_lookup_insert_ne by lia.
Qed.

Lemma newly_from_NoDup k ps a : NoDup (newly_from k ps a).
Proof.
  unfold newly_from.
  eapply sublist_NoDup; [|apply fmap_sublist, sublist_filter].
  rewrite enumerate_from_fst. apply NoDup_seq.
Qed.

Lemma unset_insert_true a k :
  a !! k = Some false → (unset (<[k := true]> a) + 1 = unset a)%nat.
Proof.
  unfold unset. revert k. induction a as [|b a IH]; intros [|k]; simpl; try done.
  - intros [= ->]. rewrite !filter_cons. repeat case_decide; simpl; try done. lia.
  - intros Hk. rewrite !filter_cons. specialize (IH k Hk).
    case_decide; simpl; lia.
Qed.

Lemma unset_replicate (n : nat) : unset (replicate n false) = n.
Proof.
  unfold unset. induction n as [|n IH]; simpl; [done|]. by rewrite IH.
Qed.

Lemma unset_zero a i : unset a = 0%nat → (i < length a)%nat → a !! i = Some true.
Proof.
  unfold unset. revert i. induction a as [|b a IH]; intros i; simpl; [lia|].
  rewrite filter_cons. destruct b; case_decide; simpl; try done.
  intros H0 Hi. destruct i as [|i]; [done|]. simpl. apply IH; [done|lia].
Qed.

Lemma unset_pos a : (0 < unset a)%nat → ∃ i, a !! i = Some false.
Proof.
  unfold unset. induction a as [|b a IH]; simpl; [lia|].
  rewrite filter_cons. destruct b; case_decide; simpl; try done.
  - intros [i Hi]%IH. by exists (S i).
  - intros _. by exists 0%nat.
Qed.

(** What one scan does to the queue and to the flags. *)
Lemma enqueue_from_spec k ps q a :
  let r := fold_left (enqueue_if test) (enumerate_from k ps) (q, a) in
  r.1 = q ++ newly_from k ps a
  ∧ length r.2 = length a
  ∧ (∀ i, r.2 !! i = if decide (i ∈ newly_from k ps a) then Some true else a !! i)
  ∧ (unset r.2 + length (newly_from k ps a) = unset a)%nat.
Proof.
  revert k q a. induction ps as [|p ps IH]; intros k q a.
  - simpl. unfold newly_from. simpl. rewrite app_nil_r.
    split; [done|]. split; [done|]. split; [done|lia].
  - simpl. rewrite newly_from_cons.
    replace (enqueue_if test (q, a) (k, p))
      with (if test p && negb (default true (a !! k))
            then (q ++ [k], <[k := true]> a) else (q, a)) by done.
    destruct (test p && negb (default true (a !! k))) eqn:Hc.
    + destruct (IH (S k) (q ++ [k]) (<[k := true]> a)) as (H1 & H2 & H3 & H4).
      rewrite newly_from_insert_before in H1, H3, H4 by lia.
      assert (a !! k = Some false) as Hak.
      { destruct (a !! k) as [[]|]; simpl in Hc; by rewrite ?andb_false_r in Hc. }
      split; [by rewrite H1, <- app_assoc|].
      split; [by rewrite H2, length_insert|].
      split.
      * intros i. rewrite H3. destruct (decide (i = k)) as [->|Hik].
        -- destruct (decide (k ∈ k :: newly_from (S k) ps a)) as [_|Hn];
             [|by exfalso; apply Hn; left].
           destruct (decide (k ∈ newly_from (S k) ps a)); [done|].
           apply list_lookup_insert_eq. by eapply lookup_lt_Some.
        -- rewrite list_lookup_insert_ne by done.
           repeat case_decide; try done; set_solver.
      * simpl. apply unset_insert_true in Hak. lia.
    + apply IH.
Qed.

Lemma enqueue_arrivals_spec ps q a :
  let r := enqueue_arrivals test ps q a in
  r.1 = q ++ newly ps a
  ∧ length r.2 = length a
  ∧ (∀ i, r.2 !! i = if decide (i ∈ newly ps a) then Some true else a !! i)
  ∧ (unset r.2 + length (newly ps a) = unset a)%nat.
Proof. apply enqueue_from_spec. Qed.

(** After a scan every process that passes the test is flagged. *)
Lemma enqueue_arrivals_flags_false ps q a i p :
  length a = length ps →
  (enqueue_arrivals test ps q a).2 !! i = Some false →
  ps !! i = Some p → test p = false.
Proof.
  intros Hlen Hf Hp.
  destruct (enqueue_arrivals_spec ps q a) as (_ & _ & H3 & _).
  rewrite H3 in Hf. case_decide as Hin; [done|].
  destruct (test p) eqn:Ht; [|done].
  exfalso. apply Hin, elem_of_newly. eauto.
Qed.
End Scan.

(** ** The ready queue of Round Robin *)

Section Queue.
Context {P : Type} (rem : P → Z).
Implicit Types (ps : list P) (queue held : list nat) (a : list bool).

(** Every process is in one of four places: not flagged yet, in the
    queue, held by the CPU, or finished with nothing left to run.
    [finished] counts the last ones. *)
Record queue_inv ps queue held a (finished : nat) : Prop := {
  qi_length : length a = length ps;
  qi_NoDup : NoDup (queue ++ held);
  qi_flagged : ∀ i, i ∈ queue ++ held → a !! i = Some true;
  qi_count : (finished + length queue + length held + unset a = length ps)%nat;
  qi_finished : ∀ i p,
    ps !! i = Some p → a !! i = Some true → i ∉ queue ++ held → rem p = 0
}.

Lemma queue_inv_init ps :
  queue_inv ps [] [] (replicate (length ps) false) 0.
Proof.
  split; simpl.
  - by rewrite length_replicate.
  - constructor.
  - by intros i ?%elem_of_nil.
  - rewrite unset_replicate. lia.
  - intros i p _ Hi. apply lookup_replicate in Hi as [? _]. done.
Qed.

Lemma queue_inv_scan (test : P → bool) ps queue held a finished :
  queue_inv ps queue held a finished →
  queue_inv ps (enqueue_arrivals test ps queue a).1 held
            (enqueue_arrivals test ps queue a).2 finished.
Proof.
  intros [Hlen Hnd Hfl Hcnt Hfin].
  destruct (enqueue_arrivals_spec test ps queue a) as (E1 & E2 & E3 & E4).
  rewrite E1. split.
  - by rewrite E2.
  - rewrite <- app_assoc, (Permutation_app_comm (newly test ps a) held), app_assoc.
    apply NoDup_app. split; [done|]. split; [|apply newly_from_NoDup].
    intros i Hi Hn. apply Hfl in Hi.
    apply elem_of_newly in Hn as [Hn _]. congruence.
  - intros i Hi. rewrite E3. case_decide; [done|].
    apply Hfl. set_solver.
  - rewrite length_app. lia.
  - intros i p Hp Hi Hnot. rewrite E3 in Hi.
    case_decide; [set_solver|]. apply (Hfin i p Hp Hi). set_solver.
Qed.

Lemma queue_inv_pop ps c queue a finished :
  queue_inv ps (c :: queue) [] a finished → queue_inv ps queue [c] a finished.
Proof.
  intros [Hlen Hnd Hfl Hcnt Hfin]. split; try done.
  - rewrite app_nil_r in Hnd. by rewrite <- Permutation_cons_append.
  - intros i Hi. apply Hfl. set_solver.
  - simpl in *. lia.
  - intros i p Hp Hi Hnot. apply (Hfin i p Hp Hi). set_solver.
Qed.

Lemma queue_inv_held_lookup ps c queue a finished :
  queue_inv ps queue [c] a finished → is_Some (ps !! c).
Proof.
  intros [Hlen _ Hfl _ _]. apply lookup_lt_is_Some. rewrite <- Hlen.
  eapply lookup_lt_Some, Hfl. set_solver.
Qed.

(** The held process may be assigned to. *)
Lemma queue_inv_update ps c x queue a finished :
  queue_inv ps queue [c] a finished →
  queue_inv (<[c := x]> ps) queue [c] a finished.
Proof.
  intros [Hlen Hnd Hfl Hcnt Hfin]. split; try done.
  - by rewrite length_insert.
  - by rewrite length_insert.
  - intros i p Hp Hi Hnot.
    assert (i ≠ c) by set_solver.
    rewrite list_lookup_insert_ne in Hp by done. by apply (Hfin i p).
Qed.

Lemma queue_inv_requeue ps c queue a finished :
  queue_inv ps queue [c] a finished → queue_inv ps (queue ++ [c]) [] a finished.
Proof.
  intros [Hlen Hnd Hfl Hcnt Hfin]. split; try done.
  - by rewrite app_nil_r.
  - intros i Hi. apply Hfl. by rewrite app_nil_r in Hi.
  - rewrite length_app. simpl in *. lia.
  - intros i p Hp Hi Hnot. apply (Hfin i p Hp Hi). by rewrite app_nil_r in Hnot.
Qed.

Lemma queue_inv_finish ps c x queue a finished :
  queue_inv ps queue [c] a finished → ps !! c = Some x → rem x = 0 →
  queue_inv ps queue [] a (S finished).
Proof.
  intros [Hlen Hnd Hfl Hcnt Hfin] Hc Hx. split; try done.
  - rewrite app_nil_r. by apply NoDup_app in Hnd as [? _].
  - intros i Hi. apply Hfl. set_solver.
  - simpl in *. lia.
  - intros i p Hp Hi Hnot. rewrite app_nil_r in Hnot.
    destruct (decide (i = c)) as [->|]; [congruence|].
    apply (Hfin i p Hp Hi). set_solver.
Qed.

(** No process is left when the count is full. *)
Lemma queue_inv_all_finished ps queue a finished :
  queue_inv ps queue [] a finished → (length ps ≤ finished)%nat →
  queue = [] ∧ Forall (fun p => rem p = 0) ps.
Proof.
  intros [Hlen Hnd Hfl Hcnt Hfin] Hall. simpl in Hcnt.
  assert (queue = []) as -> by (apply length_zero_iff_nil; lia).
  split; [done|]. apply Forall_lookup. intros i p Hp.
  apply (Hfin i p Hp); [|by intros ?%elem_of_nil].
  apply unset_zero; [lia|]. rewrite Hlen. by eapply lookup_lt_Some.
Qed.

(** With an empty queue and a process still to finish, some process has
    not been flagged. *)
Lemma queue_inv_idle ps a finished :
  queue_inv ps [] [] a finished → (finished < length ps)%nat →
  ∃ i p, a !! i = Some false ∧ ps !! i = Some p.
Proof.
  intros [Hlen _ _ Hcnt _] Hlt. simpl in Hcnt.
  destruct (unset_pos a) as [i Hi]; [lia|].
  destruct (lookup_lt_is_Some_2 ps i) as [p Hp].
  { rewrite <- Hlen. by eapply lookup_lt_Some. }
  by exists i, p.
Qed.
End Queue.

(** ** rr.py: the loop of [round_robin] *)

Section RoundRobin.
Variable quantum : Z.
Hypothesis quantum_pos : 0 < quantum.

Definition rr_inv (st : Rr.state) : Prop :=
  queue_inv Rr.remaining (Rr.processes st) (Rr.queue st) [] (Rr.arrived st)
            (Rr.completed st).

(** The slices a remaining time still takes before the process is down
    to one last slice. *)
Definition slices (r : Z) : Z := Z.max 0 ((r + quantum - 1) / quantum).

(** First measure: slices to run plus processes to finish. *)
Definition rr_work (st : Rr.state) : nat :=
  (Z.to_nat (sum (map (fun p => slices (Rr.remaining p)) (Rr.processes st)))
   + (length (Rr.processes st) - Rr.completed st))%nat.

(** Second measure: the time until the arrivals still ahead. *)
Definition rr_wait (st : Rr.state) : nat :=
  Z.to_nat (sum (map (fun p => Z.max 0 (Rr.arrival p - Rr.time st)) (Rr.processes st))).

Lemma slices_nonneg r : 0 ≤ slices r.
Proof. unfold slices. lia. Qed.

Lemma slices_zero : slices 0 = 0.
Proof. unfold slices. rewrite Z.div_small by lia. done. Qed.

Lemma slices_sub r : quantum < r → slices (r - quantum) = slices r - 1.
Proof.
  intros Hr. unfold slices.
  replace (r + quantum - 1) with ((r - 1) + 1 * quantum) by lia.
  rewrite Z.div_add by lia.
  replace (r - quantum + quantum - 1) with (r - 1) by lia.
  assert (1 ≤ (r - 1) / quantum); [|lia].
  apply Z.div_le_lower_bound; lia.
Qed.

Lemma rr_body_step st :
  rr_inv st → Rr.cond st = true →
  rr_inv (Rr.body quantum st)
  ∧ ((rr_work (Rr.body quantum st) < rr_work st)%nat
     ∨ (rr_work (Rr.body quantum st) ≤ rr_work st
        ∧ rr_wait (Rr.body quantum st) < rr_wait st)%nat).
Proof.
  intros Hinv Hcond. apply Nat.ltb_lt in Hcond.
  pose proof (queue_inv_scan Rr.remaining
                (fun p => Rr.arrival p <=? Rr.time st) _ _ _ _ _ Hinv) as H1.
  unfold Rr.body.
  destruct (enqueue_arrivals _ (Rr.processes st) (Rr.queue st) (Rr.arrived st)).1
    as [|c rest] eqn:Hq1.
  - (* idle *)
    split; [exact H1|right]. unfold rr_work, rr_wait. simpl. split; [lia|].
    destruct (queue_inv_idle _ _ _ _ H1 Hcond) as (i & p & Hi & Hp).
    pose proof (enqueue_arrivals_flags_false _ _ _ _ _ _
                  (qi_length _ _ _ _ _ _ Hinv) Hi Hp) as Htest.
    simpl in Htest.
    apply Z.leb_gt in Htest.
    apply Z2Nat.inj_lt.
    + apply sum_map_nonneg. lia.
    + apply sum_map_nonneg. lia.
    + apply (sum_map_lt _ _ _ p).
      * apply Forall_forall. intros; lia.
      * by eapply list_elem_of_lookup_2.
      * lia.
  - (* a slice *)
    apply queue_inv_pop in H1.
    destruct (queue_inv_held_lookup _ _ _ _ _ _ H1) as [cur Hcur].
    rewrite Hcur.
    set (run := Z.min (Rr.remaining cur) quantum).
    set (cur' := Rr.set_remaining (Rr.remaining cur - run) cur).
    apply (queue_inv_update _ _ _ cur') in H1.
    pose proof (queue_inv_scan Rr.remaining
      (fun p => (Rr.time st <? Rr.arrival p) && (Rr.arrival p <=? Rr.time st + run))
      _ _ _ _ _ H1) as H2.
    pose proof (sum_map_nonneg (fun p => slices (Rr.remaining p)) (Rr.processes st)
                  (fun p => slices_nonneg (Rr.remaining p))) as Hnn.
    pose proof (sum_map_nonneg (fun p => slices (Rr.remaining p))
                  (<[c := cur']> (Rr.processes st))
                  (fun p => slices_nonneg (Rr.remaining p))) as Hnn'.
    pose proof (sum_map_insert (fun p => slices (Rr.remaining p))
                  (Rr.processes st) c cur cur' Hcur) as Hsum.
    cbv beta in Hsum.
    destruct (0 <? Rr.remaining cur') eqn:Hrem.
    + apply Z.ltb_lt in Hrem. split; [by apply queue_inv_requeue|left].
      unfold rr_work. simpl. rewrite length_insert.
      assert (quantum < Rr.remaining cur) as Hlong
        by (subst cur' run; simpl in *; lia).
      apply slices_sub in Hlong.
      replace (Rr.remaining cur - quantum) with (Rr.remaining cur')
        in Hlong by (subst cur' run; simpl in *; lia).
      lia.
    + apply Z.ltb_ge in Hrem.
      assert (Rr.remaining cur' = 0) as Hzero by (subst cur' run; simpl in *; lia).
      split.
      * eapply queue_inv_finish.
        -- apply queue_inv_update, H2.
        -- apply list_lookup_insert_eq. rewrite length_insert.
           by eapply lookup_lt_Some.
        -- done.
      * left. unfold rr_work. simpl.
        rewrite list_insert_insert_eq, length_insert.
        rewrite (sum_map_insert _ _ _ _ _ Hcur).
        change (Rr.remaining (Rr.finish (Rr.time st + run) cur'))
          with (Rr.remaining cur').
        rewrite Hzero, slices_zero.
        pose proof (slices_nonneg (Rr.remaining cur)). lia.
Qed.

(** The loop ends from every state the invariant holds in. *)
Lemma rr_loop_terminates st :
  rr_inv st →
  ∃ fuel st', while Rr.cond (Rr.body quantum) fuel st = Some st'
    ∧ rr_inv st' ∧ Rr.cond st' = false.
Proof. apply while_terminates with (m1 := rr_work) (m2 := rr_wait), rr_body_step. Qed.

Lemma rr_inv_init processes : rr_inv (Rr.init processes).
Proof.
  unfold rr_inv, Rr.init. simpl.
  rewrite <- (sort_by_length Rr.arrival processes). apply queue_inv_init.
Qed.
End RoundRobin.

Lemma map_fmap {A B : Type} (f : A → B) (l : list A) : map f l = f <$> l.
Proof. induction l; simpl; [done|]. by f_equal. Qed.

(** Assigning an object that agrees under [f] leaves the image under [f]. *)
Lemma map_insert_same {A B : Type} (f : A → B) (l : list A) (i : nat) (x y : A) :
  l !! i = Some x → f y = f x → map f (<[i := y]> l) = map f l.
Proof.
  revert i. induction l as [|a l IH]; intros [|i]; simpl; try done.
  - by intros [= ->] ->.
  - intros Hi Hf. f_equal. by apply IH.
Qed.

Lemma StronglySorted_map_key {A : Type} (key : A → Z) (l : list A) :
  StronglySorted (fun a b => key a ≤ key b) l → StronglySorted Z.le (map key l).
Proof.
  induction 1 as [|x l Hs IH Hx]; simpl; constructor; [done|].
  rewrite map_fmap. by apply Forall_fmap.
Qed.

(** What [round_robin] never assigns: pid, arrival and burst. *)
Definition rr_static (p : Rr.Process) : value * Z * Z :=
  (Rr.pid p, Rr.arrival p, Rr.burst p).

Section RoundRobinEffect.
Variable quantum : Z.
Hypothesis quantum_pos : 0 < quantum.

Lemma rr_body_static st :
  map rr_static (Rr.processes (Rr.body quantum st)) = map rr_static (Rr.processes st).
Proof.
  unfold Rr.body.
  destruct (enqueue_arrivals _ (Rr.processes st) (Rr.queue st) (Rr.arrived st)).1
    as [|c rest]; [done|].
  destruct (Rr.processes st !! c) as [cur|] eqn:Hcur; [|done].
  assert (∀ x, rr_static x = rr_static cur →
               map rr_static (<[c := x]> (Rr.processes st))
               = map rr_static (Rr.processes st)) as Hsame.
  { intros x Hx. by eapply map_insert_same. }
  destruct (0 <? _); simpl.
  - by apply Hsame.
  - rewrite list_insert_insert_eq. by apply Hsame.
Qed.

(** Once nothing remains, a pass of the loop runs nothing. *)
Definition rr_spent (st : Rr.state) : Prop :=
  Forall (fun p => Rr.remaining p = 0) (Rr.processes st)
  ∧ Forall (fun g => duration g = 0) (Rr.gantt st).

Lemma rr_body_spent st : rr_spent st → rr_spent (Rr.body quantum st).
Proof.
  intros [Hps Hg]. unfold Rr.body.
  destruct (enqueue_arrivals _ (Rr.processes st) (Rr.queue st) (Rr.arrived st)).1
    as [|c rest]; [done|].
  destruct (Rr.processes st !! c) as [cur|] eqn:Hcur; [|done].
  assert (Rr.remaining cur = 0) as Hcur0.
  { by eapply (Forall_lookup_1 _ _ _ _ Hps). }
  rewrite Hcur0. replace (Z.min 0 quantum) with 0 by lia.
  simpl. split; simpl.
  - apply Forall_insert; [|done]. by apply Forall_insert.
  - apply Forall_app. split; [done|]. constructor; [|done].
    unfold duration. simpl. lia.
Qed.

Lemma round_robin_returns processes :
  ∃ fuel gantt final,
    Rr.round_robin fuel processes quantum = Some (gantt, final)
    ∧ map rr_static final = map rr_static (sort_by Rr.arrival processes)
    ∧ Forall (fun p => Rr.remaining p = 0) final.
Proof.
  destruct (rr_loop_terminates quantum quantum_pos (Rr.init processes)
              (rr_inv_init processes)) as (fuel & st & Hrun & Hinv & Hcond).
  exists fuel, (Rr.gantt st), (Rr.processes st).
  unfold Rr.round_robin. rewrite Hrun. simpl. split; [done|]. split.
  - apply (while_invariant _ _
             (fun s => map rr_static (Rr.processes s)
                       = map rr_static (sort_by Rr.arrival processes))) in Hrun
      as [Hst _]; [done| |done].
    intros s Hs _. by rewrite rr_body_static.
  - apply Nat.ltb_ge in Hcond.
    by destruct (queue_inv_all_finished _ _ _ _ _ Hinv Hcond).
Qed.

Lemma round_robin_spent processes fuel gantt final :
  Forall (fun p => Rr.remaining p = 0) processes →
  Rr.round_robin fuel processes quantum = Some (gantt, final) →
  Forall (fun g => duration g = 0) gantt.
Proof.
  intros Hps. unfold Rr.round_robin.
  destruct (while _ _ _ _) as [st|] eqn:Hrun; [|done]. simpl. intros [= <- <-].
  apply (while_invariant _ _ rr_spent) in Hrun as [[_ Hg] _]; [done| |].
  - intros s Hs _. by apply rr_body_spent.
  - split; simpl; [|done]. by rewrite sort_by_Permutation.
Qed.
End RoundRobinEffect.



(** ** Round Robin: the order of the queue after a slice *)

Section ScanOrder.
Context {P : Type}.
Implicit Types (ps : list P) (a : list bool) (key : P → Z).

(** Two scans enqueue the same positions when their tests agree on the
    processes not flagged yet. *)
Lemma newly_from_ext (test test' : P → bool) k ps ps' a :
  length ps = length ps' →
  (∀ i p p', ps !! i = Some p → ps' !! i = Some p' →
             a !! (k + i)%nat = Some false → test p = test' p') →
  newly_from test k ps a = newly_from test' k ps' a.
Proof.
  revert k ps'. induction ps as [|p ps IH]; intros k [|p' ps'] Hlen Hagree;
    simplify_eq/=; [done|].
  rewrite !newly_from_cons, (IH (S k) ps') by
    (try done; intros i x x' ? ? Hi; apply (Hagree (S i) x x'); try done;
     by replace (k + S i)%nat with (S k + i)%nat by lia).
  destruct (a !! k) as [[]|] eqn:Hk; simpl; rewrite ?andb_false_r; try done.
  rewrite (Hagree 0%nat p p') by (by rewrite ?Nat.add_0_r).
  done.
Qed.

Lemma newly_ext (test test' : P → bool) ps ps' a :
  length ps = length ps' →
  (∀ i p p', ps !! i = Some p → ps' !! i = Some p' →
             a !! i = Some false → test p = test' p') →
  newly test ps a = newly test' ps' a.
Proof. intros Hlen Hagree. by apply newly_from_ext. Qed.

(** A scan enqueues positions in list order. *)
Lemma newly_from_increasing (test : P → bool) k ps a :
  StronglySorted lt (newly_from test k ps a).
Proof.
  revert k. induction ps as [|p ps IH]; intros k; [constructor|].
  rewrite newly_from_cons. destruct (_ && _); [|apply IH].
  constructor; [apply IH|]. apply Forall_forall. intros i Hi.
  apply elem_of_newly_from in Hi. lia.
Qed.

Lemma sorted_lookup_le key ps (i j : nat) p p' :
  StronglySorted Z.le (map key ps) → (i < j)%nat →
  ps !! i = Some p → ps !! j = Some p' → key p ≤ key p'.
Proof.
  revert i j. induction ps as [|x ps IH]; intros i j Hs Hij Hi Hj; [done|].
  simpl in Hs. apply StronglySorted_inv in Hs as [Hs Hx].
  destruct j as [|j]; [lia|]. destruct i as [|i]; simplify_eq/=.
  - rewrite Forall_forall in Hx. apply Hx.
    rewrite map_fmap. apply list_elem_of_fmap. exists p'. split; [done|].
    by eapply list_elem_of_lookup_2.
  - apply (IH i j); try done. lia.
Qed.

(** In a list sorted by [key], ascending positions have ascending keys. *)
Lemma positions_sorted key ps (l : list nat) :
  StronglySorted Z.le (map key ps) → StronglySorted lt l →
  StronglySorted Z.le (omap (fun i => key <$> ps !! i) l).
Proof.
  intros Hs. induction 1 as [|i l Hl IH Hi]; simpl; [constructor|].
  destruct (ps !! i) as [p|] eqn:Hp; simpl; [|done].
  constructor; [done|]. apply Forall_forall. intros z Hz.
  apply list_elem_of_omap in Hz as (j & Hj & Hz).
  destruct (ps !! j) as [p'|] eqn:Hp'; simplify_eq/=.
  rewrite Forall_forall in Hi. apply (sorted_lookup_le key ps i j); auto.
Qed.
End ScanOrder.

Section RoundRobinOrder.
Variable quantum : Z.

(** One slice of [round_robin]: the queue it leaves. *)
Lemma rr_body_queue (st : Rr.state) c rest flags cur :
  length (Rr.arrived st) = length (Rr.processes st) →
  enqueue_arrivals (fun p => Rr.arrival p <=? Rr.time st)
    (Rr.processes st) (Rr.queue st) (Rr.arrived st) = (c :: rest, flags) →
  Rr.processes st !! c = Some cur →
  let st' := Rr.body quantum st in
  let left := Rr.remaining cur - Z.min (Rr.remaining cur) quantum in
  Rr.time st' = Rr.time st + Z.min (Rr.remaining cur) quantum
  ∧ Rr.remaining <$> Rr.processes st' !! c = Some left
  ∧ Rr.queue st'
    = rest ++ newly (fun p => Rr.arrival p <=? Rr.time st') (Rr.processes st) flags
           ++ (if 0 <? left then [c] else []).
Proof.
  intros Hlen Hscan Hcur. simpl. unfold Rr.body. rewrite Hscan. simpl. rewrite Hcur.
  set (run := Z.min (Rr.remaining cur) quantum).
  set (cur' := Rr.set_remaining (Rr.remaining cur - run) cur).
  destruct (enqueue_arrivals_spec
              (fun p => (Rr.time st <? Rr.arrival p) && (Rr.arrival p <=? Rr.time st + run))
              (<[c := cur']> (Rr.processes st)) rest flags) as (E1 & _).
  assert (newly (fun p => (Rr.time st <? Rr.arrival p) && (Rr.arrival p <=? Rr.time st + run))
                (<[c := cur']> (Rr.processes st)) flags
          = newly (fun p => Rr.arrival p <=? Rr.time st + run) (Rr.processes st) flags)
    as Hsame.
  { apply newly_ext; [by rewrite length_insert|].
    intros i p p' Hp' Hp Hflag.
    assert (Rr.arrival p = Rr.arrival p') as ->.
    { destruct (decide (i = c)) as [->|Hne].
      - rewrite list_lookup_insert_eq in Hp' by (by eapply lookup_lt_Some).
        by simplify_eq.
      - rewrite list_lookup_insert_ne in Hp' by done. by simplify_eq. }
    assert (flags = (enqueue_arrivals (fun p => Rr.arrival p <=? Rr.time st)
                       (Rr.processes st) (Rr.queue st) (Rr.arrived st)).2) as Hfl
      by (by rewrite Hscan).
    rewrite Hfl in Hflag.
    pose proof (enqueue_arrivals_flags_false _ _ _ _ _ _ Hlen Hflag Hp) as Hlate.
    simpl in Hlate. apply Z.leb_gt in Hlate.
    destruct (Z.ltb_spec (Rr.time st) (Rr.arrival p')); [done|lia]. }
  assert (<[c := cur']> (Rr.processes st) !! c = Some cur') as Hc'
    by (apply list_lookup_insert_eq; by eapply lookup_lt_Some).
  change (Rr.remaining cur') with (Rr.remaining cur - run).
  destruct (0 <? Rr.remaining cur - run) eqn:Hleft; simpl.
  - rewrite Hc'. simpl. split; [done|]. split; [done|].
    by rewrite E1, Hsame, <- app_assoc.
  - rewrite list_lookup_insert_eq by (rewrite length_insert; by eapply lookup_lt_Some).
    simpl. split; [done|]. split; [done|].
    by rewrite E1, Hsame, app_nil_r.
Qed.

(** One slice of [logic_rr]: the queue it leaves. *)
Lemma logic_rr_body_queue (st : Main.rr_state) c rest curr :
  Main.queue st = c :: rest →
  Main.rr_procs st !! c = Some curr →
  let st' := Main.rr_body quantum st in
  let left := Main.remaining_time curr - Z.min (Main.remaining_time curr) quantum in
  Main.rr_t st' = Main.rr_t st + Z.min (Main.remaining_time curr) quantum
  ∧ Main.remaining_time <$> Main.rr_procs st' !! c = Some left
  ∧ Main.queue st'
    = rest ++ newly (fun p => Main.arrival_time p <=? Main.rr_t st')
                    (Main.rr_procs st) (Main.visited st)
           ++ (if 0 <? left then [c] else []).
Proof.
  intros Hq Hcur. simpl. unfold Main.rr_body. rewrite Hq, Hcur.
  set (run := Z.min (Main.remaining_time curr) quantum).
  set (curr' := Main.set_remaining_time (Main.remaining_time curr - run) curr).
  destruct (enqueue_arrivals_spec
              (fun p => Main.arrival_time p <=? Main.rr_t st + run)
              (<[c := curr']> (Main.rr_procs st)) rest (Main.visited st)) as (E1 & _).
  assert (newly (fun p => Main.arrival_time p <=? Main.rr_t st + run)
                (<[c := curr']> (Main.rr_procs st)) (Main.visited st)
          = newly (fun p => Main.arrival_time p <=? Main.rr_t st + run)
                  (Main.rr_procs st) (Main.visited st)) as Hsame.
  { apply newly_ext; [by rewrite length_insert|].
    intros i p p' Hp' Hp _.
    assert (Main.arrival_time p = Main.arrival_time p') as ->; [|done].
    destruct (decide (i = c)) as [->|Hne].
    - rewrite list_lookup_insert_eq in Hp' by (by eapply lookup_lt_Some).
      by simplify_eq.
    - rewrite list_lookup_insert_ne in Hp' by done. by simplify_eq. }
  assert (<[c := curr']> (Main.rr_procs st) !! c = Some curr') as Hc'
    by (apply list_lookup_insert_eq; by eapply lookup_lt_Some).
  change (Main.remaining_time curr') with (Main.remaining_time curr - run).
  destruct (0 <? Main.remaining_time curr - run) eqn:Hleft; simpl.
  - rewrite Hc'. simpl. split; [done|]. split; [done|].
    by rewrite E1, Hsame, <- app_assoc.
  - rewrite list_lookup_insert_eq by (rewrite length_insert; by eapply lookup_lt_Some).
    simpl. split; [done|]. split; [done|].
    by rewrite E1, Hsame, app_nil_r.
Qed.
End RoundRobinOrder.

(** The state in which [logic_rr] enters its loop on the three processes of
    the examples. *)
Definition logic_rr_example_state : Main.rr_state :=
  {| Main.rr_procs := [ Main.new_Process (VStr "P1") 0 8 0;
                        Main.new_Process (VStr "P2") 1 4 0;
                        Main.new_Process (VStr "P3") 2 2 0 ];
     Main.queue := [0%nat]; Main.rr_t := 0; Main.rr_count := 0; Main.rr_res := [];
     Main.visited := [true; false; false]; Main.gantt_log := [] |}.

(** C3. After a slice of Round Robin, in [round_robin] and in [logic_rr]
    alike, the queue is what was left of it, then every process with
    [arrival <= ] the new clock that was not enqueued before, in list order
    (which is arrival order, the list being sorted), then the process that
    just ran if it has work left: a process arriving during the slice is
    ahead of the returning one. *)
Theorem round_robin_new_arrivals_before_returning :
  (∀ quantum (st : Rr.state) c rest flags cur,
     length (Rr.arrived st) = length (Rr.processes st) →
     enqueue_arrivals (fun p => Rr.arrival p <=? Rr.time st)
       (Rr.processes st) (Rr.queue st) (Rr.arrived st) = (c :: rest, flags) →
     Rr.processes st !! c = Some cur →
     let st' := Rr.body quantum st in
     let left := Rr.remaining cur - Z.min (Rr.remaining cur) quantum in
     let late := newly (fun p => Rr.arrival p <=? Rr.time st') (Rr.processes st) flags in
     Rr.queue st' = rest ++ late ++ (if 0 <? left then [c] else [])
     ∧ Rr.remaining <$> Rr.processes st' !! c = Some left
     ∧ (∀ i, i ∈ late ↔
             flags !! i = Some false
             ∧ ∃ p, Rr.processes st !! i = Some p ∧ Rr.arrival p ≤ Rr.time st')
     ∧ StronglySorted lt late
     ∧ (StronglySorted Z.le (map Rr.arrival (Rr.processes st)) →
        StronglySorted Z.le (omap (fun i => Rr.arrival <$> Rr.processes st !! i) late))
     ∧ (0 < left → ∀ i, i ∈ late →
        ∃ ahead between, Rr.queue st' = ahead ++ i :: between ++ [c]))
  ∧ (∀ quantum (st : Main.rr_state) c rest curr,
       Main.queue st = c :: rest →
       Main.rr_procs st !! c = Some curr →
       let st' := Main.rr_body quantum st in
       let left := Main.remaining_time curr - Z.min (Main.remaining_time curr) quantum in
       let late := newly (fun p => Main.arrival_time p <=? Main.rr_t st')
                         (Main.rr_procs st) (Main.visited st) in
       Main.queue st' = rest ++ late ++ (if 0 <? left then [c] else [])
       ∧ Main.remaining_time <$> Main.rr_procs st' !! c = Some left
       ∧ (∀ i, i ∈ late ↔
               Main.visited st !! i = Some false
               ∧ ∃ p, Main.rr_procs st !! i = Some p ∧ Main.arrival_time p ≤ Main.rr_t st')
       ∧ StronglySorted lt late
       ∧ (StronglySorted Z.le (map Main.arrival_time (Main.rr_procs st)) →
          StronglySorted Z.le
            (omap (fun i => Main.arrival_time <$> Main.rr_procs st !! i) late))
       ∧ (0 < left → ∀ i, i ∈ late →
          ∃ ahead between, Main.queue st' = ahead ++ i :: between ++ [c])).
Proof.
  split.
  - intros quantum st c rest flags cur Hlen Hscan Hcur st' left late.
    destruct (rr_body_queue quantum st c rest flags cur Hlen Hscan Hcur)
      as (_ & Hleft & Hqueue).
    split; [exact Hqueue|]. split; [exact Hleft|]. split; [|split; [|split]].
    + intros i. unfold late. rewrite elem_of_newly.
      split; intros (? & p & ? & Hp); (split; [done|]); exists p; (split; [done|]).
      * by apply Z.leb_le.
      * by apply Z.leb_le.
    + apply newly_from_increasing.
    + intros Hs. apply positions_sorted; [done|apply newly_from_increasing].
    + intros Hpos i Hi. apply list_elem_of_split in Hi as (l1 & l2 & Hsplit).
      exists (rest ++ l1), l2. unfold st'. rewrite Hqueue.
      fold st' late left. rewrite Hsplit.
      apply Z.ltb_lt in Hpos. rewrite Hpos.
      by rewrite <- !app_assoc.
  - intros quantum st c rest curr Hq Hcur st' left late.
    destruct (logic_rr_body_queue quantum st c rest curr Hq Hcur)
      as (_ & Hleft & Hqueue).
    split; [exact Hqueue|]. split; [exact Hleft|]. split; [|split; [|split]].
    + intros i. unfold late. rewrite elem_of_newly.
      split; intros (? & p & ? & Hp); (split; [done|]); exists p; (split; [done|]).
      * by apply Z.leb_le.
      * by apply Z.leb_le.
    + apply newly_from_increasing.
    + intros Hs. apply positions_sorted; [done|apply newly_from_increasing].
    + intros Hpos i Hi. apply list_elem_of_split in Hi as (l1 & l2 & Hsplit).
      exists (rest ++ l1), l2. unfold st'. rewrite Hqueue.
      fold st' late left. rewrite Hsplit.
      apply Z.ltb_lt in Hpos. rewrite Hpos.
      by rewrite <- !app_assoc.
Qed.

(** On P1(0, 8), P2(1, 4), P3(2, 2) with quantum 3 the first slice runs P1
    to time 3 and leaves the queue P2, P3, P1. *)
Lemma round_robin_new_arrivals_before_returning_witness :
  Rr.queue (Rr.body 3 (Rr.init Rr.processes_example)) = [1; 2; 0]%nat
  ∧ Main.queue (Main.rr_body 3 logic_rr_example_state) = [1; 2; 0]%nat.
Proof.
  destruct round_robin_new_arrivals_before_returning as [Hrr Hmain].
  split.
  - destruct (Hrr 3 (Rr.init Rr.processes_example) 0%nat [] [true; false; false]
                (Rr.new_Process (VInt 1) 0 8) eq_refl eq_refl eq_refl) as [Hq _].
    rewrite Hq. reflexivity.
  - destruct (Hmain 3 logic_rr_example_state 0%nat []
                (Main.new_Process (VStr "P1") 0 8 0) eq_refl eq_refl) as [Hq _].
    rewrite Hq. reflexivity.
Defined.

(** ** Priority: which of the ready processes runs *)

(** Process [p] at position [i] is ready in [logic_sjf] and
    [logic_priority]: arrived and not marked complete. *)
Definition ready (st : Main.state) (i : nat) (p : Main.Process) : Prop :=
  Main.procs st !! i = Some p ∧ Main.arrival_time p ≤ Main.t st
  ∧ Main.comp st !! i = Some false.

Lemma elem_of_avail st i p : (i, p) ∈ Main.avail st ↔ ready st i p.
Proof.
  unfold Main.avail, ready. rewrite list_elem_of_filter, elem_of_enumerate. simpl.
  rewrite andb_True, !Is_true_true, Z.leb_le, negb_true_iff.
  destruct (Main.comp st !! i) as [[]|]; simpl; intuition congruence.
Qed.

Lemma avail_increasing st : StronglySorted lt (Main.avail st).*1.
Proof.
  unfold Main.avail, enumerate.
  assert (∀ (k : nat) (l : list Main.Process) (Q : nat * Main.Process → Prop)
            `{!∀ x, Decision (Q x)},
            StronglySorted lt (filter Q (enumerate_from k l)).*1) as Hgen;
    [|apply Hgen].
  intros k l Q HQ. revert k. induction l as [|x l IH]; intros k; simpl; [constructor|].
  rewrite filter_cons. case_decide; [|apply IH].
  simpl. constructor; [apply IH|]. apply Forall_forall. intros j Hj.
  apply list_elem_of_fmap in Hj as ([j' y] & -> & Hj).
  apply list_elem_of_filter in Hj as [_ Hj].
  apply elem_of_enumerate_from in Hj. simpl. lia.
Qed.

(** The selection of [logic_sjf] and [logic_priority]: least key, and among
    equal keys the first position of the input list. *)
Lemma select_body_choice (key : Main.Process → Z) st i0 p0 :
  ready st i0 p0 →
  ∃ idx p,
    ready st idx p
    ∧ Main.res (Main.select_body key st) = Main.res st ++ [idx]
    ∧ Main.procs (Main.select_body key st) !! idx = Some (Main.run_whole (Main.t st) p)
    ∧ ∀ j p', ready st j p' →
        key p ≤ key p' ∧ (key p' = key p → (idx ≤ j)%nat).
Proof.
  intros Hready. apply elem_of_avail in Hready.
  destruct (min_by_is_Some (fun ip : nat * Main.Process => key ip.2) (Main.avail st))
    as [[idx p] Hmin]; [by intros Heq; rewrite Heq in Hready; apply elem_of_nil in Hready|].
  destruct (min_by_first_least _ _ _ Hmin) as (pre & post & Hsplit & Hpre & Hpost).
  assert ((idx, p) ∈ Main.avail st) as Hin by (rewrite Hsplit; set_solver).
  apply elem_of_avail in Hin as Hsel.
  exists idx, p. split; [done|]. unfold Main.select_body. rewrite Hmin. simpl.
  split; [done|]. split.
  { apply list_lookup_insert_eq. destruct Hsel as [Hsel _]. by eapply lookup_lt_Some. }
  intros j p' Hj. apply elem_of_avail in Hj. rewrite Hsplit in Hj.
  pose proof (avail_increasing st) as Hinc. rewrite Hsplit, fmap_app in Hinc.
  simpl in Hinc. apply StronglySorted_app in Hinc as (_ & _ & Hinc).
  apply StronglySorted_inv in Hinc as [_ Hinc].
  rewrite Forall_forall in Hpre. rewrite Forall_forall in Hpost.
  rewrite Forall_forall in Hinc.
  apply elem_of_app in Hj as [Hj|Hj].
  - specialize (Hpre _ Hj). simpl in Hpre. split; lia.
  - apply elem_of_cons in Hj as [[= -> ->]|Hj]; [split; [lia|done]|].
    specialize (Hpost _ Hj). simpl in Hpost. split; [done|]. intros _.
    assert (idx < j)%nat; [|lia]. apply Hinc.
    apply list_elem_of_fmap. by exists (j, p').
Qed.

Lemma elem_of_zip_Forall2 {A B : Type} (R : A → B → Prop) (l : list A) (ks : list B) x k :
  Forall2 R l ks → (k, x) ∈ zip ks l → R x k.
Proof.
  induction 1 as [|a b l ks Hab Hl IH]; simpl; [by intros ?%elem_of_nil|].
  intros [[= -> ->]|Hin]%elem_of_cons; [done|by apply IH].
Qed.

(** The selection of [priority_scheduling]: least priority, and among equal
    priorities the first of the available processes, which are in input
    order. *)
Lemma priority_body_choice processes st avail st' :
  Priority.available processes (Priority.current_time st)
    (Priority.completed_processes st) = Some avail →
  avail ≠ [] →
  Priority.body processes st = Some st' →
  ∃ pre sel post pid k b,
    avail = pre ++ sel :: post
    ∧ sel !! "pid" = Some pid
    ∧ get_int sel "priority" = Some k
    ∧ get_int sel "burst_time" = Some b
    ∧ Priority.st_gantt_chart st'
      = Priority.st_gantt_chart st
        ++ [(pid, Priority.current_time st, Priority.current_time st + b)]
    ∧ Forall (fun p => ∃ k', get_int p "priority" = Some k' ∧ k < k') pre
    ∧ Forall (fun p => ∃ k', get_int p "priority" = Some k' ∧ k ≤ k') post.
Proof.
  intros Havail Hne. unfold Priority.body. rewrite Havail. simpl.
  destruct avail as [|p0 avail]; [done|].
  destruct (mapM _ (p0 :: avail)) as [keys|] eqn:Hkeys; [|done]. simpl.
  destruct (min_by fst (zip keys (p0 :: avail))) as [[k sel]|] eqn:Hmin; [|done]. simpl.
  destruct (get_int sel "burst_time") as [b|] eqn:Hb; [|done]. simpl.
  destruct (sel !! "pid") as [pid|] eqn:Hpid; [|done]. simpl.
  destruct (get_int sel "arrival_time") as [a|] eqn:Ha; [|done]. simpl.
  destruct (sel !! "priority") as [prio|] eqn:Hprio; [|done]. simpl.
  intros [= <-]. simpl.
  apply mapM_Some in Hkeys.
  destruct (min_by_first_least _ _ _ Hmin) as (pre & post & Hsplit & Hpre & Hpost).
  assert (∀ k' p, (k', p) ∈ zip keys (p0 :: avail) → get_int p "priority" = Some k') as Hkey.
  { intros k' p Hin.
    by apply (elem_of_zip_Forall2 (fun x y => get_int x "priority" = Some y) _ _ _ _ Hkeys). }
  exists pre.*2, sel, post.*2, pid, k, b.
  split.
  { rewrite <- (snd_zip keys (p0 :: avail)) at 1
      by (apply Forall2_length in Hkeys; lia).
    by rewrite Hsplit, fmap_app. }
  split; [done|]. split; [apply Hkey; rewrite Hsplit; set_solver|].
  split; [done|]. split; [done|].
  split; apply Forall_fmap, Forall_forall; intros [k' p] Hin; simpl.
  - exists k'. split; [apply Hkey; rewrite Hsplit; set_solver|].
    rewrite Forall_forall in Hpre. apply (Hpre _ Hin).
  - exists k'. split; [apply Hkey; rewrite Hsplit; set_solver|].
    rewrite Forall_forall in Hpost. apply (Hpost _ Hin).
Qed.

(** [logic_priority] at time 5 on X(0, 5, 0), A(2, 1, 1), B(1, 1, 1), with X
    finished. *)
Definition logic_priority_tie_state : Main.state :=
  {| Main.procs := [ Main.run_whole 0 (Main.new_Process (VStr "X") 0 5 0);
                     Main.new_Process (VStr "A") 2 1 1;
                     Main.new_Process (VStr "B") 1 1 1 ];
     Main.t := 5; Main.count := 1; Main.res := [0%nat];
     Main.comp := [true; false; false] |}.

(** C4, as the code has it.  Among the ready processes the one with the
    least priority value runs next, and when several share that value the
    one earliest in the input list runs, whatever their arrival times:
    in [logic_priority] the chosen position is the least among the ready
    positions of least priority, and in [priority_scheduling] every
    available process before the chosen one has a strictly greater
    priority value. *)
Theorem priority_tie_break_is_input_order :
  (∀ (st : Main.state) i0 p0,
     ready st i0 p0 →
     ∃ idx p,
       ready st idx p
       ∧ Main.res (Main.select_body Main.priority st) = Main.res st ++ [idx]
       ∧ Main.procs (Main.select_body Main.priority st) !! idx
         = Some (Main.run_whole (Main.t st) p)
       ∧ ∀ j p', ready st j p' →
           Main.priority p ≤ Main.priority p'
           ∧ (Main.priority p' = Main.priority p → (idx ≤ j)%nat))
  ∧ (∀ processes (st : Priority.state) avail st',
       Priority.available processes (Priority.current_time st)
         (Priority.completed_processes st) = Some avail →
       avail ≠ [] →
       Priority.body processes st = Some st' →
       ∃ pre sel post pid k b,
         avail = pre ++ sel :: post
         ∧ sel !! "pid" = Some pid
         ∧ get_int sel "priority" = Some k
         ∧ get_int sel "burst_time" = Some b
         ∧ Priority.st_gantt_chart st'
           = Priority.st_gantt_chart st
             ++ [(pid, Priority.current_time st, Priority.current_time st + b)]
         ∧ Forall (fun p => ∃ k', get_int p "priority" = Some k' ∧ k < k') pre
         ∧ Forall (fun p => ∃ k', get_int p "priority" = Some k' ∧ k ≤ k') post).
Proof.
  split.
  - intros st i0 p0. apply select_body_choice.
  - apply priority_body_choice.
Qed.

(** At the tie of the counterexample: A and B are ready with priority 1,
    and the chosen position is not after position 1, that of A. *)
Lemma priority_tie_break_is_input_order_witness :
  ready logic_priority_tie_state 2 (Main.new_Process (VStr "B") 1 1 1)
  ∧ ∃ idx p,
      ready logic_priority_tie_state idx p
      ∧ Main.res (Main.select_body Main.priority logic_priority_tie_state) = [0%nat] ++ [idx]
      ∧ Main.priority p ≤ 1
      ∧ (1 = Main.priority p → (idx ≤ 1)%nat).
Proof.
  assert (ready logic_priority_tie_state 2 (Main.new_Process (VStr "B") 1 1 1)) as HB.
  { unfold ready. simpl. split; [reflexivity|]. split; [lia|reflexivity]. }
  assert (ready logic_priority_tie_state 1 (Main.new_Process (VStr "A") 2 1 1)) as HA.
  { unfold ready. simpl. split; [reflexivity|]. split; [lia|reflexivity]. }
  split; [exact HB|].
  destruct (proj1 priority_tie_break_is_input_order logic_priority_tie_state 2%nat
              (Main.new_Process (VStr "B") 1 1 1) HB) as (idx & p & Hr & Hres & _ & Hmin).
  exists idx, p. split; [exact Hr|]. split; [exact Hres|].
  exact (Hmin 1%nat (Main.new_Process (VStr "A") 2 1 1) HA).
Defined.


(** ** fcfs_scheduling.py on lists of jobs *)

(** A job is what the input dictionary of a process holds: pid, arrival
    time and burst time. *)
Definition job : Type := value * Z * Z.
Definition job_pid (j : job) : value := j.1.1.
Definition job_arrival (j : job) : Z := j.1.2.
Definition job_burst (j : job) : Z := j.2.

Definition fcfs_input (j : job) : dict :=
  Fcfs.mk_process (job_pid j) (job_arrival j) (job_burst j).

(** The dictionary of a job that [fcfs_scheduling] started at [start]. *)
Definition fcfs_output (sj : Z * job) : dict :=
  let start := sj.1 in
  let arrival := job_arrival sj.2 in
  let completion := start + job_burst sj.2 in
  <["turnaround_time" := VInt (completion - arrival)]>
    (<["waiting_time" := VInt (start - arrival)]>
       (<["completion_time" := VInt completion]>
          (<["start_time" := VInt start]> (fcfs_input sj.2)))).

Definition fcfs_segment (sj : Z * job) : segment :=
  (job_pid sj.2, sj.1, sj.1 + job_burst sj.2).

(** First come, first served from clock [t]: each job with its start. *)
Fixpoint fcfs_schedule (t : Z) (l : list job) : list (Z * job) :=
  match l with
  | [] => []
  | j :: l' =>
      let start := Z.max t (job_arrival j) in
      (start, j) :: fcfs_schedule (start + job_burst j) l'
  end.

Fixpoint fcfs_end (t : Z) (l : list job) : Z :=
  match l with
  | [] => t
  | j :: l' => fcfs_end (Z.max t (job_arrival j) + job_burst j) l'
  end.

Lemma mapM_map_Some {A B C : Type} (f : B → option C) (g : A → B) (h : A → C) (l : list A) :
  (∀ x, f (g x) = Some (h x)) → mapM f (map g l) = Some (map h l).
Proof.
  intros Hf. induction l as [|x l IH]; simpl; [done|]. by rewrite Hf, IH.
Qed.

Lemma zip_map_map {A B C : Type} (f : A → B) (g : A → C) (l : list A) :
  zip (map f l) (map g l) = map (fun x => (f x, g x)) l.
Proof. induction l; simpl; [done|]. by f_equal. Qed.

Lemma insert_by_map {A B : Type} (key : A → Z) (key' : B → Z) (g : A → B) x l :
  (∀ x, key' (g x) = key x) →
  insert_by key' (g x) (map g l) = map g (insert_by key x l).
Proof.
  intros Hk. induction l as [|y l IH]; simpl; [done|].
  rewrite !Hk. destruct (key x <=? key y); simpl; [done|]. by rewrite IH.
Qed.

Lemma sort_by_map {A B : Type} (key : A → Z) (key' : B → Z) (g : A → B) l :
  (∀ x, key' (g x) = key x) → sort_by key' (map g l) = map g (sort_by key l).
Proof.
  intros Hk. induction l as [|x l IH]; simpl; [done|].
  unfold sort_by in *. simpl. rewrite IH. by apply insert_by_map.
Qed.

Lemma fcfs_schedule_length t l : length (fcfs_schedule t l) = length l.
Proof. revert t. induction l; intros t; simpl; [done|]. by rewrite IHl. Qed.

Lemma fcfs_schedule_jobs t l : map snd (fcfs_schedule t l) = l.
Proof. revert t. induction l; intros t; simpl; [done|]. by rewrite IHl. Qed.

Lemma fcfs_body_job t g seen j :
  Fcfs.fcfs_body (t, g, seen) (fcfs_input j)
  = Some (Z.max t (job_arrival j) + job_burst j,
          g ++ [fcfs_segment (Z.max t (job_arrival j), j)],
          seen ++ [fcfs_output (Z.max t (job_arrival j), j)]).
Proof.
  unfold Fcfs.fcfs_body.
  replace (fcfs_input j !! "pid") with (Some (job_pid j)) by reflexivity.
  replace (get_int (fcfs_input j) "arrival_time") with (Some (job_arrival j))
    by reflexivity.
  replace (get_int (fcfs_input j) "burst_time") with (Some (job_burst j))
    by reflexivity.
  simpl.
  replace (if t <? job_arrival j then job_arrival j else t)
    with (Z.max t (job_arrival j)) by (destruct (Z.ltb_spec t (job_arrival j)); lia).
  done.
Qed.

Lemma fcfs_loop_jobs l t g seen :
  for_each Fcfs.fcfs_body (map fcfs_input l) (t, g, seen)
  = Some (fcfs_end t l,
          g ++ map fcfs_segment (fcfs_schedule t l),
          seen ++ map fcfs_output (fcfs_schedule t l)).
Proof.
  revert t g seen. induction l as [|j l IH]; intros t g seen.
  - simpl. by rewrite !app_nil_r.
  - change (for_each Fcfs.fcfs_body (map fcfs_input (j :: l)) (t, g, seen))
      with (Fcfs.fcfs_body (t, g, seen) (fcfs_input j)
              ≫= for_each Fcfs.fcfs_body (map fcfs_input l)).
    rewrite fcfs_body_job. simpl. rewrite IH. by rewrite <- !app_assoc.
Qed.

(** The span [fcfs_scheduling] divides by: from the arrival of the first
    job in sorted order to the final clock. *)
Definition fcfs_total_time (sorted : list job) : Z :=
  match sorted with
  | j0 :: _ => fcfs_end 0 sorted - job_arrival j0
  | [] => 0
  end.

(** What [fcfs_scheduling] returns on dictionaries made of a pid, an
    arrival time and a burst time, whatever these numbers are. *)
Lemma fcfs_scheduling_jobs (l : list job) :
  let sorted := sort_by job_arrival l in
  let sched := fcfs_schedule 0 sorted in
  let n := Z.of_nat (length l) in
  Fcfs.fcfs_scheduling (map fcfs_input l)
  = Some {| Fcfs.processes := map fcfs_output sched;
            Fcfs.gantt_chart := map fcfs_segment sched;
            Fcfs.avg_waiting_time :=
              if 0 <? n
              then true_div (sum (map (fun sj => sj.1 - job_arrival sj.2) sched)) n
              else 0%Q;
            Fcfs.avg_turnaround_time :=
              if 0 <? n
              then true_div
                     (sum (map (fun sj => sj.1 + job_burst sj.2 - job_arrival sj.2) sched)) n
              else 0%Q;
            Fcfs.cpu_utilization :=
              if 0 <? fcfs_total_time sorted
              then (true_div (sum (map job_burst sorted)) (fcfs_total_time sorted) * 100)%Q
              else 0%Q |}.
Proof.
  intros sorted sched n. unfold Fcfs.fcfs_scheduling.
  rewrite (mapM_map_Some (fun x => get_int x "arrival_time") fcfs_input job_arrival)
    by reflexivity.
  cbn [mbind option_bind].
  rewrite zip_map_map.
  rewrite (sort_by_map job_arrival fst (fun x => (job_arrival x, fcfs_input x))) by done.
  rewrite <- map_fmap, map_map. cbn [snd].
  fold sorted. rewrite fcfs_loop_jobs. fold sched.
  cbn [mbind option_bind app].
  rewrite (mapM_map_Some (fun p => get_int p "waiting_time") fcfs_output
             (fun sj => sj.1 - job_arrival sj.2)) by reflexivity.
  cbn [mbind option_bind].
  rewrite (mapM_map_Some (fun p => get_int p "turnaround_time") fcfs_output
             (fun sj => sj.1 + job_burst sj.2 - job_arrival sj.2)) by reflexivity.
  cbn [mbind option_bind].
  rewrite (mapM_map_Some (fun p => get_int p "burst_time") fcfs_output
             (fun sj => job_burst sj.2)) by reflexivity.
  cbn [mbind option_bind].
  assert (length sched = length l) as Hn
    by (unfold sched, sorted; by rewrite fcfs_schedule_length, sort_by_length).
  rewrite length_map, Hn. fold n.
  replace (map (fun sj : Z * job => job_burst sj.2) sched) with (map job_burst sorted)
    by (by rewrite <- (fcfs_schedule_jobs 0 sorted) at 1; rewrite map_map).
  assert (match map fcfs_output sched with
          | [] => Some 0
          | p0 :: _ => a0 ← get_int p0 "arrival_time"; Some (fcfs_end 0 sorted - a0)
          end = Some (fcfs_total_time sorted)) as ->.
  { unfold sched, fcfs_total_time. by destruct sorted. }
  done.
Qed.

(** ** CPU utilization *)

Definition is_max (m : Z) (l : list Z) : Prop := m ∈ l ∧ Forall (fun x => x ≤ m) l.
Definition is_min (m : Z) (l : list Z) : Prop := m ∈ l ∧ Forall (fun x => m ≤ x) l.

Definition completion_of (sj : Z * job) : Z := sj.1 + job_burst sj.2.

Lemma fcfs_end_ge t l : Forall (fun j => 0 ≤ job_burst j) l → t ≤ fcfs_end t l.
Proof.
  intros Hl. revert t. induction Hl as [|j l Hj Hl IH]; intros t; simpl; [lia|].
  specialize (IH (Z.max t (job_arrival j) + job_burst j)). lia.
Qed.

(** With no negative burst the final clock of FCFS is the greatest
    completion time. *)
Lemma fcfs_end_is_max t l :
  l ≠ [] → Forall (fun j => 0 ≤ job_burst j) l →
  is_max (fcfs_end t l) (map completion_of (fcfs_schedule t l)).
Proof.
  intros Hne Hl. revert t. induction Hl as [|j l Hj Hl IH]; intros t; [done|].
  destruct (decide (l = [])) as [->|Hl'].
  - simpl. split; [by left|]. by repeat constructor.
  - simpl.
    destruct (IH Hl' (Z.max t (job_arrival j) + job_burst j)) as [Hin Hall].
    split; [by right|]. constructor; [|done].
    unfold completion_of. simpl. by apply fcfs_end_ge.
Qed.

Lemma is_min_Permutation m l l' : l ≡ₚ l' → is_min m l → is_min m l'.
Proof. intros Hp [Hin Hall]. split; by rewrite <- Hp. Qed.

(** A sorted list begins with its least key. *)
Lemma sort_by_head_is_min {A : Type} (key : A → Z) (l : list A) x rest :
  sort_by key l = x :: rest → is_min (key x) (map key l).
Proof.
  intros Hsort.
  apply (is_min_Permutation _ (map key (sort_by key l))).
  { rewrite !map_fmap. apply fmap_Permutation, sort_by_Permutation. }
  pose proof (sort_by_sorted key l) as Hs. rewrite Hsort in *.
  apply StronglySorted_inv in Hs as [_ Hx]. simpl. split; [by left|].
  constructor; [lia|]. rewrite map_fmap. by apply Forall_fmap.
Qed.

(** [fcfs_scheduling] returns 100 * total burst / (greatest completion -
    least arrival) when no burst is negative, 0 when that span is not
    positive. *)
Lemma fcfs_cpu_utilization (l : list job) :
  l ≠ [] → Forall (fun j => 0 ≤ job_burst j) l →
  ∃ r completions m_completion m_arrival,
    Fcfs.fcfs_scheduling (map fcfs_input l) = Some r
    ∧ mapM (fun p => get_int p "completion_time") (Fcfs.processes r) = Some completions
    ∧ is_max m_completion completions
    ∧ is_min m_arrival (map job_arrival l)
    ∧ Fcfs.cpu_utilization r
      = if 0 <? m_completion - m_arrival
        then (true_div (sum (map job_burst l)) (m_completion - m_arrival) * 100)%Q
        else 0%Q.
Proof.
  intros Hne Hl. pose proof (fcfs_scheduling_jobs l) as Hrun. simpl in Hrun.
  destruct (sort_by job_arrival l) as [|j0 rest] eqn:Hsort.
  { apply (f_equal length) in Hsort. rewrite sort_by_length in Hsort.
    by destruct l. }
  eexists _, (map completion_of (fcfs_schedule 0 (j0 :: rest))),
    (fcfs_end 0 (j0 :: rest)), (job_arrival j0).
  split; [exact Hrun|]. cbn [Fcfs.processes Fcfs.cpu_utilization]. split.
  { by apply mapM_map_Some. }
  split.
  { apply fcfs_end_is_max; [done|]. by rewrite <- Hsort, sort_by_Permutation. }
  split; [by eapply sort_by_head_is_min|].
  unfold fcfs_total_time.
  by rewrite (sum_Permutation (map job_burst (j0 :: rest)) (map job_burst l))
    by (rewrite <- Hsort, !map_fmap; apply fmap_Permutation, sort_by_Permutation).
Qed.

(** ** priority_scheduling.py on lists of jobs *)

(** A job with a priority: pid, arrival time, burst time, priority. *)
Definition pjob : Type := value * Z * Z * Z.
Definition pjob_pid (j : pjob) : value := j.1.1.1.
Definition pjob_arrival (j : pjob) : Z := j.1.1.2.
Definition pjob_burst (j : pjob) : Z := j.1.2.
Definition pjob_priority (j : pjob) : Z := j.2.

Definition prio_input (j : pjob) : dict :=
  Priority.mk_process (pjob_pid j) (pjob_arrival j) (pjob_burst j) (pjob_priority j).

(** The [result] dictionary of a job that ran from [start]. *)
Definition prio_result (sj : Z * pjob) : dict :=
  let start := sj.1 in
  let j := sj.2 in
  list_to_map
    [ ("pid", pjob_pid j);
      ("arrival_time", VInt (pjob_arrival j));
      ("burst_time", VInt (pjob_burst j));
      ("priority", VInt (pjob_priority j));
      ("start_time", VInt start);
      ("completion_time", VInt (start + pjob_burst j));
      ("waiting_time", VInt (start - pjob_arrival j));
      ("turnaround_time", VInt (start + pjob_burst j - pjob_arrival j)) ].

Definition prio_segment (sj : Z * pjob) : segment :=
  (pjob_pid sj.2, sj.1, sj.1 + pjob_burst sj.2).

(** The loop state after the jobs of [ran] have run, each from its start. *)
Definition prio_state (t : Z) (ran : list (Z * pjob)) : Priority.state :=
  {| Priority.current_time := t;
     Priority.completed_processes := map prio_result ran;
     Priority.st_gantt_chart := map prio_segment ran |}.

(** One pass of the loop, on jobs. *)
Definition prio_step (l : list pjob) (t : Z) (ran : list (Z * pjob)) : Z * list (Z * pjob) :=
  match min_by pjob_priority (filter (fun j => pjob_arrival j ≤ t) l) with
  | None => (default 0 (min_by id (map pjob_arrival l)), ran)
  | Some j => (t + pjob_burst j, ran ++ [(t, j)])
  end.

Lemma min_by_map {A B : Type} (key : A → Z) (key' : B → Z) (g : A → B) (l : list A) :
  (∀ x, key' (g x) = key x) → min_by key' (map g l) = g <$> min_by key l.
Proof.
  intros Hk. destruct l as [|x l]; simpl; [done|]. f_equal.
  revert x. induction l as [|y l IH]; intros x; simpl; [done|].
  rewrite !Hk. destruct (key y <? key x); apply IH.
Qed.

Lemma min_by_elem_of {A : Type} (key : A → Z) (l : list A) x :
  min_by key l = Some x → x ∈ l.
Proof.
  intros (pre & post & -> & _)%min_by_first_least. set_solver.
Qed.

(** An input dictionary is never equal to a result dictionary: it has no
    key ["start_time"]. *)
Lemma prio_input_not_in_results j ran : prio_input j ∉ map prio_result ran.
Proof.
  rewrite map_fmap. intros ([s j'] & Heq & _)%list_elem_of_fmap.
  apply (f_equal (fun d : dict => d !! "start_time")) in Heq.
  vm_compute in Heq. discriminate.
Qed.

Lemma prio_available l t ran :
  Priority.available (map prio_input l) t (map prio_result ran)
  = Some (map prio_input (filter (fun j => pjob_arrival j ≤ t) l)).
Proof.
  induction l as [|j l IH]; [done|].
  cbn [map Priority.available].
  replace (get_int (prio_input j) "arrival_time") with (Some (pjob_arrival j))
    by reflexivity.
  cbn [mbind option_bind]. rewrite IH. cbn [mbind option_bind].
  rewrite bool_decide_eq_true_2 by apply prio_input_not_in_results.
  rewrite andb_true_r, filter_cons.
  destruct (Z.leb_spec (pjob_arrival j) t); case_decide; try lia; done.
Qed.

Lemma prio_pending_arrivals l ran :
  Priority.pending_arrivals (map prio_input l) (map prio_result ran)
  = Some (map pjob_arrival l).
Proof.
  unfold Priority.pending_arrivals.
  replace (filter (fun p => p ∉ map prio_result ran) (map prio_input l))
    with (map prio_input l).
  { by apply mapM_map_Some. }
  induction l as [|j l IH]; [done|]. simpl. rewrite filter_cons.
  rewrite decide_True by apply prio_input_not_in_results. by f_equal.
Qed.

(** The loop body on input dictionaries made of jobs. *)
Lemma prio_body_jobs l t ran :
  l ≠ [] →
  Priority.body (map prio_input l) (prio_state t ran)
  = Some (prio_state (prio_step l t ran).1 (prio_step l t ran).2).
Proof.
  intros Hne. unfold Priority.body, prio_step.
  cbn [prio_state Priority.current_time Priority.completed_processes
       Priority.st_gantt_chart].
  rewrite prio_available. cbn [mbind option_bind].
  destruct (filter (fun j => pjob_arrival j ≤ t) l) as [|j0 avail] eqn:Hav.
  - cbn [map min_by]. rewrite prio_pending_arrivals. cbn [mbind option_bind].
    destruct (min_by_is_Some id (map pjob_arrival l)) as [m Hm]; [by destruct l|].
    rewrite Hm. done.
  - cbn [map].
    change (prio_input j0 :: map prio_input avail) with (map prio_input (j0 :: avail)).
    rewrite (mapM_map_Some (fun p => get_int p "priority") prio_input pjob_priority)
      by reflexivity.
    cbn [mbind option_bind]. rewrite zip_map_map.
    rewrite (min_by_map pjob_priority fst (fun j => (pjob_priority j, prio_input j)))
      by done.
    destruct (min_by_is_Some pjob_priority (j0 :: avail)) as [j Hj]; [done|].
    rewrite Hj. cbn [fmap option_fmap option_map mbind option_bind].
    replace (get_int (prio_input j) "burst_time") with (Some (pjob_burst j)) by reflexivity.
    replace (prio_input j !! "pid") with (Some (pjob_pid j)) by reflexivity.
    replace (get_int (prio_input j) "arrival_time") with (Some (pjob_arrival j))
      by reflexivity.
    replace (prio_input j !! "priority") with (Some (VInt (pjob_priority j)))
      by reflexivity.
    cbn [mbind option_bind]. unfold prio_state. cbn [fst snd].
    by rewrite !map_app.
Qed.

Section PriorityLoop.
Variable l : list pjob.
Hypothesis l_nonempty : l ≠ [].
Hypothesis l_valid : Forall (fun j => 0 ≤ pjob_arrival j ∧ 0 < pjob_burst j) l.

(** What holds of the clock and of the jobs run so far. *)
Definition prio_ran_ok (t : Z) (ran : list (Z * pjob)) : Prop :=
  0 ≤ t
  ∧ (length ran ≤ length l)%nat
  ∧ Forall (fun sj => sj.2 ∈ l ∧ pjob_arrival sj.2 ≤ sj.1 ∧ 0 ≤ sj.1
                      ∧ sj.1 + pjob_burst sj.2 ≤ t) ran
  ∧ (ran ≠ [] →
     (∃ sj, last ran = Some sj ∧ sj.1 + pjob_burst sj.2 = t ∧ 0 < t)
     ∧ ∃ j, j ∈ l ∧ pjob_arrival j ≤ t).

Definition prio_inv (st : Priority.state) : Prop :=
  ∃ t ran, st = prio_state t ran ∧ prio_ran_ok t ran.

Definition prio_left (st : Priority.state) : nat :=
  length l - length (Priority.completed_processes st).

Definition prio_idle (st : Priority.state) : nat :=
  match Priority.available (map prio_input l) (Priority.current_time st)
          (Priority.completed_processes st) with
  | Some [] => 1
  | _ => 0
  end.

Lemma prio_idle_state t ran :
  prio_idle (prio_state t ran)
  = if decide (filter (fun j => pjob_arrival j ≤ t) l = []) then 1%nat else 0%nat.
Proof.
  unfold prio_idle. simpl. rewrite prio_available.
  destruct (filter _ l); by case_decide.
Qed.

Lemma prio_body_step st :
  prio_inv st → Priority.cond (map prio_input l) st = true →
  ∃ st', Priority.body (map prio_input l) st = Some st' ∧ prio_inv st'
    ∧ ((prio_left st' < prio_left st)%nat
       ∨ (prio_left st' ≤ prio_left st ∧ prio_idle st' < prio_idle st)%nat).
Proof.
  intros (t & ran & -> & Ht & Hlen & Hran & Hlast) Hcond.
  unfold Priority.cond in Hcond. simpl in Hcond. rewrite !length_map in Hcond.
  apply Nat.ltb_lt in Hcond.
  eexists. split; [by apply prio_body_jobs|]. unfold prio_step.
  destruct (min_by pjob_priority (filter (fun j => pjob_arrival j ≤ t) l))
    as [j|] eqn:Hmin.
  - (* a job runs *)
    apply min_by_elem_of, list_elem_of_filter in Hmin as [Harr Hj].
    rewrite Forall_forall in l_valid. destruct (l_valid j Hj) as [Ha Hb].
    simpl. split.
    + exists (t + pjob_burst j), (ran ++ [(t, j)]). split; [done|].
      split; [lia|]. split; [rewrite length_app; simpl; lia|]. split.
      * apply Forall_app. split.
        -- eapply Forall_impl; [exact Hran|]. simpl. intros sj (? & ? & ? & ?).
           repeat split; try done. lia.
        -- constructor; [|done]. simpl. repeat split; try done; lia.
      * intros _. split.
        -- exists (t, j). rewrite last_snoc. simpl. repeat split; try done. lia.
        -- exists j. split; [done|lia].
    + left. unfold prio_left. simpl. rewrite !length_map, length_app. simpl. lia.
  - (* no job has arrived *)
    apply min_by_None in Hmin.
    assert (ran = []) as ->.
    { destruct ran as [|sj ran]; [done|].
      destruct Hlast as [_ (j & Hj & Harr)]; [done|].
      assert (j ∈ filter (fun j => pjob_arrival j ≤ t) l) as Hin
        by (by apply list_elem_of_filter).
      rewrite Hmin in Hin. by apply elem_of_nil in Hin. }
    destruct (min_by_is_Some id (map pjob_arrival l)) as [m Hm]; [by destruct l|].
    rewrite Hm. simpl.
    apply min_by_elem_of in Hm as Hin. rewrite map_fmap in Hin.
    apply list_elem_of_fmap in Hin as (jm & -> & Hjm).
    rewrite Forall_forall in l_valid. destruct (l_valid jm Hjm) as [Ha Hb].
    split.
    + exists (pjob_arrival jm), []. split; [done|]. split; [done|].
      split; [simpl; lia|]. split; [done|done].
    + right. split; [done|]. rewrite !prio_idle_state.
      rewrite (decide_True _ _ Hmin). rewrite decide_False; [lia|].
      intros Hnone.
      assert (jm ∈ filter (fun j => pjob_arrival j ≤ pjob_arrival jm) l) as Hin
        by (apply list_elem_of_filter; split; [lia|done]).
      rewrite Hnone in Hin. by apply elem_of_nil in Hin.
Qed.

Lemma prio_loop_terminates :
  ∃ fuel t ran,
    while_raising (Priority.cond (map prio_input l)) (Priority.body (map prio_input l))
      fuel (prio_state 0 []) = Some (Some (prio_state t ran))
    ∧ prio_ran_ok t ran ∧ length ran = length l.
Proof.
  destruct (while_raising_terminates (Priority.cond (map prio_input l))
              (Priority.body (map prio_input l)) prio_inv prio_left prio_idle
              prio_body_step (prio_state 0 []))
    as (fuel & st & Hrun & (t & ran & -> & Hok) & Hcond).
  { exists 0, []. split; [done|]. split; [done|]. split; [simpl; lia|].
    split; [constructor|done]. }
  exists fuel, t, ran. split; [done|]. split; [done|].
  unfold Priority.cond in Hcond. simpl in Hcond. rewrite !length_map in Hcond.
  apply Nat.ltb_ge in Hcond. destruct Hok as (_ & Hlen & _). lia.
Qed.
End PriorityLoop.

(** What [priority_scheduling] returns on dictionaries made of a pid and
    three numbers, arrivals not negative and bursts positive: one result
    per pass of the loop, [length l] of them, the clock [t] at the end. *)
Lemma priority_scheduling_jobs (l : list pjob) :
  l ≠ [] → Forall (fun j => 0 ≤ pjob_arrival j ∧ 0 < pjob_burst j) l →
  ∃ fuel t ran,
    prio_ran_ok l t ran ∧ length ran = length l ∧ 0 < t
    ∧ Priority.priority_scheduling fuel (map prio_input l)
      = Some (Some
          {| Priority.results_ := map prio_result ran;
             Priority.gantt_chart := map prio_segment ran;
             Priority.avg_waiting_time :=
               round2 (true_div (sum (map (fun sj => sj.1 - pjob_arrival sj.2) ran))
                                (Z.of_nat (length l)));
             Priority.avg_turnaround_time :=
               round2 (true_div
                         (sum (map (fun sj => sj.1 + pjob_burst sj.2 - pjob_arrival sj.2) ran))
                         (Z.of_nat (length l)));
             Priority.cpu_utilization :=
               round2 (true_div (sum (map (fun sj => pjob_burst sj.2) ran)) t * 100)%Q |}).
Proof.
  intros Hne Hvalid.
  destruct (prio_loop_terminates l Hne Hvalid) as (fuel & t & ran & Hrun & Hok & Hlen).
  assert (ran ≠ []) as Hran by (destruct ran, l; done).
  destruct Hok as (Ht & Hle & Hall & Hlast).
  destruct (Hlast Hran) as [(sj & Hsj & Hend & Hpos) _].
  exists fuel, t, ran. split; [done|]. split; [done|]. split; [done|].
  replace (Priority.priority_scheduling fuel (map prio_input l))
    with (Some (Priority.summarize (prio_state t ran))).
  2:{ unfold Priority.priority_scheduling.
      change {| Priority.current_time := 0; Priority.completed_processes := [];
                Priority.st_gantt_chart := [] |} with (prio_state 0 []).
      rewrite Hrun. by destruct l. }
  do 2 f_equal. unfold Priority.summarize.
  cbn [prio_state Priority.completed_processes Priority.st_gantt_chart].
  rewrite (mapM_map_Some (fun p => get_int p "waiting_time") prio_result
             (fun sj => sj.1 - pjob_arrival sj.2)) by reflexivity.
  cbn [mbind option_bind].
  rewrite (mapM_map_Some (fun p => get_int p "turnaround_time") prio_result
             (fun sj => sj.1 + pjob_burst sj.2 - pjob_arrival sj.2)) by reflexivity.
  cbn [mbind option_bind].
  rewrite option_guard_True by (rewrite length_map; destruct ran; [done|simpl; lia]).
  rewrite (mapM_map_Some (fun p => get_int p "burst_time") prio_result
             (fun sj => pjob_burst sj.2)) by reflexivity.
  cbn [mbind option_bind].
  rewrite map_fmap, fmap_last, Hsj. cbn [fmap option_fmap option_map mbind option_bind].
  replace (get_int (prio_result sj) "completion_time")
    with (Some (sj.1 + pjob_burst sj.2)) by reflexivity.
  cbn [mbind option_bind]. rewrite Hend.
  destruct (Z.ltb_spec 0 t); [|lia].
  by rewrite <- map_fmap, length_map, Hlen.
Qed.

(** [priority_scheduling] divides the bursts of its result dictionaries by
    its final clock, which is their greatest completion time, counted from
    time 0, and rounds to two decimals. *)
Lemma priority_cpu_utilization (l : list pjob) :
  l ≠ [] → Forall (fun j => 0 ≤ pjob_arrival j ∧ 0 < pjob_burst j) l →
  ∃ fuel r bursts completions m_completion,
    Priority.priority_scheduling fuel (map prio_input l) = Some (Some r)
    ∧ mapM (fun p => get_int p "burst_time") (Priority.results_ r) = Some bursts
    ∧ mapM (fun p => get_int p "completion_time") (Priority.results_ r) = Some completions
    ∧ is_max m_completion completions
    ∧ 0 < m_completion
    ∧ Priority.cpu_utilization r
      = round2 (true_div (sum bursts) m_completion * 100)%Q.
Proof.
  intros Hne Hvalid.
  destruct (priority_scheduling_jobs l Hne Hvalid)
    as (fuel & t & ran & (Ht & Hle & Hall & Hlast) & Hlen & Hpos & Hrun).
  assert (ran ≠ []) as Hran by (destruct ran, l; done).
  destruct (Hlast Hran) as [(sj & Hsj & Hend & _) _].
  eexists fuel, _, (map (fun sj => pjob_burst sj.2) ran),
    (map (fun sj => sj.1 + pjob_burst sj.2) ran), t.
  split; [exact Hrun|]. cbn [Priority.results_ Priority.cpu_utilization].
  split; [by apply mapM_map_Some|]. split; [by apply mapM_map_Some|].
  split; [|done]. split.
  - apply last_Some_elem_of in Hsj. rewrite map_fmap.
    apply list_elem_of_fmap. by exists sj.
  - rewrite map_fmap. apply Forall_fmap. eapply Forall_impl; [exact Hall|].
    simpl. by intros ? (_ & _ & _ & ?).
Qed.





(** ** rr.py on valid processes: metrics and work *)

Section ScanFlags.
Context {P : Type} (test : P → bool).

Lemma enqueue_arrivals_flag_true (ps : list P) q a i p :
  ps !! i = Some p → (enqueue_arrivals test ps q a).2 !! i = Some true →
  a !! i = Some true ∨ (a !! i = Some false ∧ test p = true).
Proof.
  intros Hp Hi. destruct (enqueue_arrivals_spec test ps q a) as (_ & _ & E3 & _).
  rewrite E3 in Hi. case_decide as Hin; [|by left].
  apply elem_of_newly in Hin as (? & p' & ? & ?). right. by simplify_eq.
Qed.

Lemma enqueue_arrivals_flag_false (ps : list P) q a i :
  (enqueue_arrivals test ps q a).2 !! i = Some false → a !! i = Some false.
Proof.
  intros Hi. destruct (enqueue_arrivals_spec test ps q a) as (_ & _ & E3 & _).
  rewrite E3 in Hi. by case_decide.
Qed.
End ScanFlags.

(** The metrics of a finished process, as C1 wants them. *)
Definition rr_metrics_ok (p : Rr.Process) : Prop :=
  Rr.turnaround p = Rr.completion p - Rr.arrival p
  ∧ Rr.waiting p = Rr.turnaround p - Rr.burst p
  ∧ 0 ≤ Rr.waiting p
  ∧ Rr.burst p ≤ Rr.turnaround p.

(** The clock against the processes: a flagged process has run
    [burst - remaining] since it arrived, an unflagged one has not run, and
    a process with nothing left that the CPU does not hold has its metrics. *)
Record rr_clock_inv (ps : list Rr.Process) (a : list bool) (t : Z) (held : list nat)
  : Prop := {
  rc_bounds : ∀ i p, ps !! i = Some p → 0 ≤ Rr.remaining p ∧ 0 < Rr.burst p;
  rc_ran : ∀ i p, ps !! i = Some p → a !! i = Some true →
                  Rr.arrival p + Rr.burst p - Rr.remaining p ≤ t;
  rc_fresh : ∀ i p, ps !! i = Some p → a !! i = Some false →
                    Rr.remaining p = Rr.burst p;
  rc_done : ∀ i p, ps !! i = Some p → a !! i = Some true → i ∉ held →
                   Rr.remaining p = 0 → rr_metrics_ok p
}.

Lemma rr_clock_scan (test : Rr.Process → bool) ps q a t held :
  rr_clock_inv ps a t held → (∀ p, test p = true → Rr.arrival p ≤ t) →
  rr_clock_inv ps (enqueue_arrivals test ps q a).2 t held.
Proof.
  intros [Hb Hr Hf Hd] Htest. split; [done|..].
  - intros i p Hp Hi.
    apply (enqueue_arrivals_flag_true test ps q a i p Hp) in Hi as [Hi|[Hi Ht]].
    + by apply (Hr i).
    + rewrite (Hf i p Hp Hi). specialize (Htest p Ht). lia.
  - intros i p Hp Hi. apply enqueue_arrivals_flag_false in Hi. by apply (Hf i).
  - intros i p Hp Hi Hheld Hzero.
    apply (enqueue_arrivals_flag_true test ps q a i p Hp) in Hi as [Hi|[Hi Ht]].
    + by apply (Hd i).
    + rewrite (Hf i p Hp Hi) in Hzero. destruct (Hb i p Hp). lia.
Qed.

Lemma rr_clock_update ps a t t' c cur cur' :
  rr_clock_inv ps a t [] → ps !! c = Some cur → a !! c = Some true →
  t ≤ t' → Rr.arrival cur' = Rr.arrival cur → Rr.burst cur' = Rr.burst cur →
  0 ≤ Rr.remaining cur' →
  Rr.remaining cur' - Rr.remaining cur = t - t' →
  rr_clock_inv (<[c := cur']> ps) a t' [c].
Proof.
  intros [Hb Hr Hf Hd] Hc Hac Ht Harr Hbur Hrem Hrun.
  assert (c < length ps)%nat by (by eapply lookup_lt_Some).
  split.
  - intros i p Hp. destruct (decide (i = c)) as [->|Hne].
    + rewrite list_lookup_insert_eq in Hp by done. simplify_eq.
      rewrite Hbur. destruct (Hb c cur Hc). lia.
    + rewrite list_lookup_insert_ne in Hp by done. by apply (Hb i).
  - intros i p Hp Hi. destruct (decide (i = c)) as [->|Hne].
    + rewrite list_lookup_insert_eq in Hp by done. simplify_eq.
      specialize (Hr c cur Hc Hac). lia.
    + rewrite list_lookup_insert_ne in Hp by done. specialize (Hr i p Hp Hi). lia.
  - intros i p Hp Hi. destruct (decide (i = c)) as [->|Hne]; [congruence|].
    rewrite list_lookup_insert_ne in Hp by done. by apply (Hf i).
  - intros i p Hp Hi Hheld Hzero. assert (i ≠ c) by set_solver.
    rewrite list_lookup_insert_ne in Hp by done.
    apply (Hd i p Hp Hi); [by intros ?%elem_of_nil|done].
Qed.

Lemma rr_clock_requeue ps a t c p :
  rr_clock_inv ps a t [c] → ps !! c = Some p → 0 < Rr.remaining p →
  rr_clock_inv ps a t [].
Proof.
  intros [Hb Hr Hf Hd] Hc Hpos. split; try done.
  intros i p' Hp Hi _ Hzero. destruct (decide (i = c)) as [->|Hne].
  - simplify_eq. lia.
  - apply (Hd i p' Hp Hi); [set_solver|done].
Qed.

Lemma rr_clock_finish ps a t c p :
  rr_clock_inv ps a t [c] → ps !! c = Some p → a !! c = Some true →
  Rr.remaining p = 0 →
  rr_clock_inv (<[c := Rr.finish t p]> ps) a t [].
Proof.
  intros [Hb Hr Hf Hd] Hc Hac Hzero.
  assert (c < length ps)%nat by (by eapply lookup_lt_Some).
  split.
  - intros i p' Hp. destruct (decide (i = c)) as [->|Hne].
    + rewrite list_lookup_insert_eq in Hp by done. simplify_eq.
      exact (Hb c p Hc).
    + rewrite list_lookup_insert_ne in Hp by done. by apply (Hb i).
  - intros i p' Hp Hi. destruct (decide (i = c)) as [->|Hne].
    + rewrite list_lookup_insert_eq in Hp by done. simplify_eq.
      exact (Hr c p Hc Hac).
    + rewrite list_lookup_insert_ne in Hp by done. by apply (Hr i).
  - intros i p' Hp Hi. destruct (decide (i = c)) as [->|Hne]; [congruence|].
    rewrite list_lookup_insert_ne in Hp by done. by apply (Hf i).
  - intros i p' Hp Hi _ Hz. destruct (decide (i = c)) as [->|Hne].
    + rewrite list_lookup_insert_eq in Hp by done. simplify_eq.
      specialize (Hr c p Hc Hac). unfold rr_metrics_ok. simpl. lia.
    + rewrite list_lookup_insert_ne in Hp by done.
      apply (Hd i p' Hp Hi); [set_solver|done].
Qed.

Lemma enqueue_arrivals_flag_mono {P : Type} (test : P → bool) (ps : list P) q a i :
  a !! i = Some true → (enqueue_arrivals test ps q a).2 !! i = Some true.
Proof.
  intros Hi. destruct (enqueue_arrivals_spec test ps q a) as (_ & _ & E3 & _).
  rewrite E3. by case_decide.
Qed.

Section RoundRobinValid.
Variable quantum : Z.
Hypothesis quantum_pos : 0 < quantum.

(** Nothing is lost: the time run so far and the time remaining make up
    the bursts. *)
Definition rr_work_inv (st : Rr.state) : Prop :=
  sum (map duration (Rr.gantt st)) + sum (map Rr.remaining (Rr.processes st))
  = sum (map Rr.burst (Rr.processes st)).

Lemma rr_body_work st : rr_work_inv st → rr_work_inv (Rr.body quantum st).
Proof.
  unfold rr_work_inv, Rr.body. intros Hw.
  destruct (enqueue_arrivals _ (Rr.processes st) (Rr.queue st) (Rr.arrived st)).1
    as [|c rest]; [done|].
  destruct (Rr.processes st !! c) as [cur|] eqn:Hcur; [|done].
  set (run := Z.min (Rr.remaining cur) quantum).
  set (cur' := Rr.set_remaining (Rr.remaining cur - run) cur).
  assert (sum (map duration (Rr.gantt st ++ [(Rr.pid cur', Rr.time st, Rr.time st + run)]))
          = sum (map duration (Rr.gantt st)) + run) as Hg.
  { rewrite map_app, sum_app. simpl. rewrite sum_cons, sum_nil.
    unfold duration. simpl. lia. }
  destruct (0 <? Rr.remaining cur'); cbn [Rr.gantt Rr.processes]; rewrite Hg.
  - rewrite (sum_map_insert Rr.remaining _ _ _ _ Hcur).
    rewrite (map_insert_same Rr.burst _ _ cur cur') by done.
    simpl. lia.
  - rewrite list_insert_insert_eq.
    rewrite (sum_map_insert Rr.remaining _ _ _ _ Hcur).
    rewrite (map_insert_same Rr.burst _ _ cur) by done.
    simpl. lia.
Qed.

Lemma rr_body_clock st :
  rr_inv st → Rr.cond st = true →
  rr_clock_inv (Rr.processes st) (Rr.arrived st) (Rr.time st) [] →
  rr_clock_inv (Rr.processes (Rr.body quantum st)) (Rr.arrived (Rr.body quantum st))
               (Rr.time (Rr.body quantum st)) [].
Proof.
  intros Hinv Hcond Hclock.
  pose proof (queue_inv_scan Rr.remaining
                (fun p => Rr.arrival p <=? Rr.time st) _ _ _ _ _ Hinv) as H1.
  pose proof (rr_clock_scan (fun p => Rr.arrival p <=? Rr.time st)
                _ (Rr.queue st) _ _ _ Hclock
                (fun p H => proj1 (Z.leb_le _ _) H)) as C1.
  unfold Rr.body.
  destruct (enqueue_arrivals _ (Rr.processes st) (Rr.queue st) (Rr.arrived st))
    as [queue1 flags1] eqn:Hscan.
  simpl in *. destruct queue1 as [|c rest].
  - simpl. destruct C1 as [Hb Hr Hf Hd]. split; try done.
    intros i p Hp Hi. specialize (Hr i p Hp Hi). lia.
  - assert (flags1 !! c = Some true) as Hflag
      by (apply (qi_flagged _ _ _ _ _ _ H1); set_solver).
    apply queue_inv_pop in H1.
    destruct (queue_inv_held_lookup _ _ _ _ _ _ H1) as [cur Hcur].
    rewrite Hcur.
    set (run := Z.min (Rr.remaining cur) quantum).
    set (cur' := Rr.set_remaining (Rr.remaining cur - run) cur).
    destruct (rc_bounds _ _ _ _ C1 c cur Hcur) as [Hrem Hburst].
    assert (0 ≤ run) by (subst run; lia).
    assert (rr_clock_inv (<[c := cur']> (Rr.processes st)) flags1 (Rr.time st + run) [c])
      as C2.
    { apply (rr_clock_update _ _ (Rr.time st) _ _ cur); try done; try lia.
      all: subst cur' run; simpl; lia. }
    pose proof (rr_clock_scan
      (fun p => (Rr.time st <? Rr.arrival p) && (Rr.arrival p <=? Rr.time st + run))
      _ rest _ _ _ C2) as C3.
    assert (<[c := cur']> (Rr.processes st) !! c = Some cur') as Hc'
      by (apply list_lookup_insert_eq; by eapply lookup_lt_Some).
    change (Rr.remaining cur - run) with (Rr.remaining cur').
    destruct (0 <? Rr.remaining cur') eqn:Hleft; simpl.
    + apply Z.ltb_lt in Hleft. eapply rr_clock_requeue; [|exact Hc'|done].
      apply C3. intros p [_ Hp]%andb_prop. by apply Z.leb_le.
    + apply Z.ltb_ge in Hleft. apply rr_clock_finish; try done.
      * apply C3. intros p [_ Hp]%andb_prop. by apply Z.leb_le.
      * by apply enqueue_arrivals_flag_mono.
      * subst cur' run. simpl in *. lia.
Qed.

(** [round_robin] on processes with positive bursts and [remaining] equal
    to [burst], as [Process.__init__] leaves them: it returns, every
    process has its metrics, and the segments last as long as the bursts. *)
Lemma round_robin_valid (processes : list Rr.Process) :
  Forall (fun p => 0 < Rr.burst p ∧ Rr.remaining p = Rr.burst p) processes →
  ∃ fuel gantt final,
    Rr.round_robin fuel processes quantum = Some (gantt, final)
    ∧ map rr_static final = map rr_static (sort_by Rr.arrival processes)
    ∧ Forall rr_metrics_ok final
    ∧ sum (map duration gantt) = sum (map Rr.burst processes).
Proof.
  intros Hvalid.
  destruct (round_robin_returns quantum quantum_pos processes)
    as (fuel & gantt & final & Hrun & Hstatic & Hzero).
  exists fuel, gantt, final. split; [done|]. split; [done|].
  unfold Rr.round_robin in Hrun.
  destruct (while _ _ _ _) as [st|] eqn:Hloop; [|done]. simpl in Hrun.
  injection Hrun as <- <-.
  apply (while_invariant _ _
           (fun s => rr_inv s
                     ∧ rr_clock_inv (Rr.processes s) (Rr.arrived s) (Rr.time s) []
                     ∧ rr_work_inv s)) in Hloop
    as [(Hinv & Hclock & Hwork) Hcond].
  - apply Nat.ltb_ge in Hcond.
    destruct Hinv as [Hlen _ _ Hcount _]. simpl in Hcount.
    split.
    + apply Forall_lookup. intros i p Hp.
      apply (rc_done _ _ _ _ Hclock i p Hp).
      * apply unset_zero; [lia|]. rewrite Hlen. by eapply lookup_lt_Some.
      * by intros ?%elem_of_nil.
      * by eapply (Forall_lookup_1 _ _ _ _ Hzero).
    + unfold rr_work_inv in Hwork.
      assert (sum (map Rr.remaining (Rr.processes st)) = 0) as Hrem0.
      { clear -Hzero. induction Hzero as [|p ps Hp Hps IH]; [done|].
        simpl. rewrite sum_cons. lia. }
      rewrite Hrem0 in Hwork.
      replace (map Rr.burst (Rr.processes st))
        with (map (fun s : value * Z * Z => s.2) (map rr_static (Rr.processes st)))
        in Hwork by (by rewrite map_map).
      rewrite Hstatic, map_map, Z.add_0_r in Hwork. simpl in Hwork.
      rewrite Hwork. apply sum_Permutation.
      rewrite !map_fmap. apply fmap_Permutation, sort_by_Permutation.
  - intros s (Hinv & Hclock & Hwork) Hcond. split; [|split].
    + by apply rr_body_step.
    + by apply rr_body_clock.
    + by apply rr_body_work.
  - split; [apply rr_inv_init|]. split.
    + simpl.
      assert (Forall (fun p => 0 < Rr.burst p ∧ Rr.remaining p = Rr.burst p)
                (sort_by Rr.arrival processes)) as Hs
        by (by rewrite sort_by_Permutation).
      split.
      * intros i p Hp. destruct (Forall_lookup_1 _ _ _ _ Hs Hp). lia.
      * intros i p _ Hi. apply lookup_replicate in Hi as [? _]. done.
      * intros i p Hp _. by destruct (Forall_lookup_1 _ _ _ _ Hs Hp).
      * intros i p _ Hi. apply lookup_replicate in Hi as [? _]. done.
    + unfold rr_work_inv. simpl. rewrite sum_nil.
      assert (map Rr.remaining (sort_by Rr.arrival processes)
              = map Rr.burst (sort_by Rr.arrival processes)) as ->; [|lia].
      assert (Forall (fun p => 0 < Rr.burst p ∧ Rr.remaining p = Rr.burst p)
                (sort_by Rr.arrival processes)) as Hs
        by (by rewrite sort_by_Permutation).
      rewrite !map_fmap. apply Forall_fmap_ext.
      eapply Forall_impl; [exact Hs|]. by intros ? [_ ?].
Qed.
End RoundRobinValid.

(** ** The dictionary-based schedulers: metrics and work *)

(** The metrics of a process dictionary, as C1 wants them. *)
Definition dict_metrics_ok (d : dict) : Prop :=
  ∃ a b c w t,
    get_int d "arrival_time" = Some a ∧ get_int d "burst_time" = Some b
    ∧ get_int d "completion_time" = Some c ∧ get_int d "waiting_time" = Some w
    ∧ get_int d "turnaround_time" = Some t
    ∧ t = c - a ∧ w = t - b ∧ 0 ≤ w ∧ b ≤ t.

Lemma fcfs_schedule_start_ge t l :
  Forall (fun sj => job_arrival sj.2 ≤ sj.1) (fcfs_schedule t l).
Proof.
  revert t. induction l as [|j l IH]; intros t; simpl; constructor; [simpl; lia|].
  apply IH.
Qed.

Lemma fcfs_segments_duration t l :
  sum (map duration (map fcfs_segment (fcfs_schedule t l))) = sum (map job_burst l).
Proof.
  revert t. induction l as [|j l IH]; intros t; simpl; [done|].
  rewrite !sum_cons, IH. unfold duration, fcfs_segment. simpl. lia.
Qed.

(** [fcfs_scheduling]: every process has its metrics and the segments last
    as long as the bursts, whatever the numbers. *)
Lemma fcfs_scheduling_metrics (l : list job) :
  ∃ r, Fcfs.fcfs_scheduling (map fcfs_input l) = Some r
    ∧ Forall dict_metrics_ok (Fcfs.processes r)
    ∧ sum (map duration (Fcfs.gantt_chart r)) = sum (map job_burst l).
Proof.
  eexists. split; [apply fcfs_scheduling_jobs|]. simpl. split.
  - rewrite map_fmap. apply Forall_fmap.
    eapply Forall_impl; [apply fcfs_schedule_start_ge|].
    intros [s j] Hs. simpl in *.
    exists (job_arrival j), (job_burst j), (s + job_burst j), (s - job_arrival j),
      (s + job_burst j - job_arrival j).
    repeat split; try reflexivity; lia.
  - rewrite fcfs_segments_duration. apply sum_Permutation.
    rewrite !map_fmap. apply fmap_Permutation, sort_by_Permutation.
Qed.

(** [priority_scheduling] on valid jobs: every result dictionary has its
    metrics (which says nothing of the processes that never ran). *)
Lemma priority_scheduling_metrics (l : list pjob) :
  l ≠ [] → Forall (fun j => 0 ≤ pjob_arrival j ∧ 0 < pjob_burst j) l →
  ∃ fuel r, Priority.priority_scheduling fuel (map prio_input l) = Some (Some r)
    ∧ length (Priority.results_ r) = length l
    ∧ Forall dict_metrics_ok (Priority.results_ r).
Proof.
  intros Hne Hvalid.
  destruct (priority_scheduling_jobs l Hne Hvalid)
    as (fuel & t & ran & (_ & _ & Hall & _) & Hlen & _ & Hrun).
  eexists fuel, _. split; [exact Hrun|]. simpl.
  split; [by rewrite length_map|].
  rewrite map_fmap. apply Forall_fmap. eapply Forall_impl; [exact Hall|].
  intros [s j] (_ & Hs & _). simpl in *.
  exists (pjob_arrival j), (pjob_burst j), (s + pjob_burst j), (s - pjob_arrival j),
    (s + pjob_burst j - pjob_arrival j).
  repeat split; try reflexivity; lia.
Qed.

(** ** sjf.py: sjf_non_preemptive *)

Definition sjf_metrics_ok (p : Sjf.Process) : Prop :=
  ∃ c, Sjf.completion p = Some c
    ∧ Sjf.turnaround p = c - Sjf.arrival p
    ∧ Sjf.waiting p = Sjf.turnaround p - Sjf.burst p
    ∧ 0 ≤ Sjf.waiting p
    ∧ Sjf.burst p ≤ Sjf.turnaround p.

Definition sjf_static (p : Sjf.Process) : value * Z * Z :=
  (Sjf.pid p, Sjf.arrival p, Sjf.burst p).

(** 1 for a process still to run, 0 for a finished one. *)
Definition sjf_pending (p : Sjf.Process) : Z :=
  if decide (Sjf.completion p = None) then 1 else 0.

Definition sjf_finished_burst (p : Sjf.Process) : Z :=
  if decide (Sjf.completion p = None) then 0 else Sjf.burst p.

Record sjf_inv (st : Sjf.state) : Prop := {
  si_count : Z.of_nat (Sjf.completed st) + sum (map sjf_pending (Sjf.processes st))
             = Z.of_nat (length (Sjf.processes st));
  si_metrics : Forall (fun p => Sjf.completion p = None ∨ sjf_metrics_ok p)
                      (Sjf.processes st);
  si_work : sum (map duration (Sjf.gantt st))
            = sum (map sjf_finished_burst (Sjf.processes st))
}.

Definition sjf_left (st : Sjf.state) : nat :=
  Z.to_nat (sum (map sjf_pending (Sjf.processes st))).

Definition sjf_wait (st : Sjf.state) : nat :=
  Z.to_nat (sum (map (fun p => if decide (Sjf.completion p = None)
                               then Z.max 0 (Sjf.arrival p - Sjf.time st) else 0)
                     (Sjf.processes st))).

Lemma sjf_pending_nonneg ps : 0 ≤ sum (map sjf_pending ps).
Proof. apply sum_map_nonneg. intros p. unfold sjf_pending. case_decide; lia. Qed.

Lemma sjf_pending_pos ps :
  0 < sum (map sjf_pending ps) → ∃ p, p ∈ ps ∧ Sjf.completion p = None.
Proof.
  induction ps as [|p ps IH]; simpl; [rewrite sum_nil; lia|].
  rewrite sum_cons. unfold sjf_pending at 1. case_decide.
  - intros _. exists p. split; [by left|done].
  - intros Hpos. destruct IH as (p' & ? & ?); [lia|]. exists p'. split; [by right|done].
Qed.

Lemma sjf_pending_zero ps :
  sum (map sjf_pending ps) = 0 → Forall (fun p => Sjf.completion p ≠ None) ps.
Proof.
  induction ps as [|p ps IH]; simpl; [by constructor|].
  rewrite sum_cons. pose proof (sjf_pending_nonneg ps).
  unfold sjf_pending at 1. case_decide; [lia|].
  intros Hz. constructor; [done|]. apply IH. lia.
Qed.

Lemma elem_of_sjf_ready (ps : list Sjf.Process) (t : Z) i p :
  (i, p) ∈ filter (fun ip : nat * Sjf.Process =>
                     (Sjf.arrival ip.2 <=? t) && bool_decide (Sjf.completion ip.2 = None))
                  (enumerate ps)
  ↔ ps !! i = Some p ∧ Sjf.arrival p ≤ t ∧ Sjf.completion p = None.
Proof.
  rewrite list_elem_of_filter, elem_of_enumerate. simpl.
  rewrite andb_True, !Is_true_true, Z.leb_le, bool_decide_eq_true. tauto.
Qed.

Lemma sjf_body_step st :
  sjf_inv st → Sjf.cond st = true →
  sjf_inv (Sjf.body st)
  ∧ ((sjf_left (Sjf.body st) < sjf_left st)%nat
     ∨ (sjf_left (Sjf.body st) ≤ sjf_left st ∧ sjf_wait (Sjf.body st) < sjf_wait st)%nat).
Proof.
  intros [Hcount Hmet Hwork] Hcond. apply Nat.ltb_lt in Hcond.
  pose proof (sjf_pending_nonneg (Sjf.processes st)) as Hnn.
  unfold Sjf.body.
  destruct (min_by _ _) as [[i cur]|] eqn:Hmin.
  - (* a process runs to its end *)
    apply min_by_elem_of, elem_of_sjf_ready in Hmin as (Hcur & Harr & Hnone).
    set (cur' := Sjf.finish (Sjf.time st + Sjf.burst cur) cur).
    pose proof (sum_map_insert sjf_pending _ _ _ cur' Hcur) as Hp.
    pose proof (sum_map_insert sjf_finished_burst _ _ _ cur' Hcur) as Hf.
    assert (sjf_pending cur = 1) as E1 by (unfold sjf_pending; by rewrite decide_True).
    assert (sjf_pending cur' = 0) as E2 by (unfold sjf_pending; by rewrite decide_False).
    assert (sjf_finished_burst cur = 0) as E3
      by (unfold sjf_finished_burst; by rewrite decide_True).
    assert (sjf_finished_burst cur' = Sjf.burst cur) as E4
      by (unfold sjf_finished_burst; by rewrite decide_False).
    rewrite E1, E2 in Hp. rewrite E3, E4 in Hf.
    split; [split|].
    + simpl. rewrite length_insert, Hp. lia.
    + simpl. apply Forall_insert; [done|]. right.
      exists (Sjf.time st + Sjf.burst cur). simpl. repeat split; lia.
    + simpl. rewrite map_app, sum_app, Hf, Hwork. simpl. rewrite sum_cons, sum_nil.
      unfold duration. simpl. lia.
    + left. unfold sjf_left. simpl. rewrite Hp.
      pose proof (sjf_pending_nonneg (<[i := cur']> (Sjf.processes st))). lia.
  - (* idle *)
    apply min_by_None in Hmin. split; [by split|]. right.
    unfold sjf_left, sjf_wait. simpl. split; [lia|].
    destruct (sjf_pending_pos (Sjf.processes st)) as (p & Hin & Hnone); [lia|].
    assert (Sjf.time st < Sjf.arrival p) as Hlate.
    { apply list_elem_of_lookup in Hin as [i Hi].
      destruct (Z.lt_ge_cases (Sjf.time st) (Sjf.arrival p)) as [|Hle]; [done|].
      assert ((i, p) ∈ filter (fun ip : nat * Sjf.Process =>
                 (Sjf.arrival ip.2 <=? Sjf.time st)
                 && bool_decide (Sjf.completion ip.2 = None))
                (enumerate (Sjf.processes st))) as Hready
        by (apply elem_of_sjf_ready; repeat split; try done; lia).
      rewrite Hmin in Hready. by apply elem_of_nil in Hready. }
    apply Z2Nat.inj_lt.
    + apply sum_map_nonneg. intros; case_decide; lia.
    + apply sum_map_nonneg. intros; case_decide; lia.
    + apply (sum_map_lt _ _ _ p); [|done|].
      * apply Forall_forall. intros; case_decide; lia.
      * rewrite !(decide_True _ _ Hnone). lia.
Qed.

Lemma sjf_body_static st :
  map sjf_static (Sjf.processes (Sjf.body st)) = map sjf_static (Sjf.processes st).
Proof.
  unfold Sjf.body. destruct (min_by _ _) as [[i cur]|] eqn:Hmin; [|done].
  apply min_by_elem_of, elem_of_sjf_ready in Hmin as (Hcur & _).
  simpl. by eapply map_insert_same.
Qed.

(** [sjf_non_preemptive] returns on processes whose [completion] is
    [None], whatever their numbers; every process then has its metrics, and
    the segments last as long as the bursts. *)
Lemma sjf_non_preemptive_returns (processes : list Sjf.Process) :
  Forall (fun p => Sjf.completion p = None) processes →
  ∃ fuel gantt final,
    Sjf.sjf_non_preemptive fuel processes = Some (gantt, final)
    ∧ length final = length processes
    ∧ Forall sjf_metrics_ok final
    ∧ sum (map duration gantt) = sum (map Sjf.burst final)
    ∧ map sjf_static final = map sjf_static processes.
Proof.
  intros Hnone.
  destruct (while_terminates Sjf.cond Sjf.body sjf_inv sjf_left sjf_wait sjf_body_step
              {| Sjf.processes := processes; Sjf.time := 0; Sjf.completed := 0;
                 Sjf.gantt := [] |})
    as (fuel & st & Hrun & [Hcount Hmet Hwork] & Hcond).
  { split; simpl.
    - induction Hnone as [|p ps Hp Hps IH]; simpl; [done|].
      rewrite sum_cons. unfold sjf_pending at 1. rewrite (decide_True _ _ Hp). lia.
    - eapply Forall_impl; [exact Hnone|]. by left.
    - rewrite sum_nil. induction Hnone as [|p ps Hp Hps IH]; simpl; [done|].
      rewrite sum_cons. unfold sjf_finished_burst at 1.
      rewrite (decide_True _ _ Hp). lia. }
  exists fuel, (Sjf.gantt st), (Sjf.processes st).
  unfold Sjf.sjf_non_preemptive. rewrite Hrun. simpl. split; [done|].
  apply Nat.ltb_ge in Hcond.
  pose proof (sjf_pending_nonneg (Sjf.processes st)) as Hnn.
  assert (Forall (fun p => Sjf.completion p ≠ None) (Sjf.processes st)) as Hall
    by (apply sjf_pending_zero; lia).
  split; [|split].
  - apply (while_invariant _ _ (fun s => length (Sjf.processes s) = length processes))
      in Hrun as [? _]; [done| |done].
    intros s Hs _. unfold Sjf.body. destruct (min_by _ _) as [[i cur]|]; [|done].
    simpl. by rewrite length_insert.
  - rewrite Forall_forall in Hmet, Hall. apply Forall_forall. intros p Hp.
    destruct (Hmet p Hp) as [Hn|Hok]; [by destruct (Hall p Hp)|done].
  - split.
    + rewrite Hwork. f_equal. rewrite !map_fmap. apply Forall_fmap_ext.
      eapply Forall_impl; [exact Hall|]. intros p Hp.
      unfold sjf_finished_burst. by rewrite decide_False.
    + apply (while_invariant _ _
               (fun s => map sjf_static (Sjf.processes s) = map sjf_static processes))
        in Hrun as [? _]; [done| |done].
      intros s Hs _. by rewrite sjf_body_static.
Qed.

(** ** sjf.py: sjf_preemptive *)

(** 1 for a process with time remaining, 0 otherwise. *)
Definition sjfp_pending (p : Sjf.Process) : Z := if 0 <? Sjf.remaining p then 1 else 0.

Record sjfp_inv (st : Sjf.pstate) : Prop := {
  pi_count : Z.of_nat (Sjf.p_completed st) + sum (map sjfp_pending (Sjf.p_processes st))
             = Z.of_nat (length (Sjf.p_processes st));
  pi_bounds : Forall (fun p => 0 ≤ Sjf.remaining p) (Sjf.p_processes st);
  pi_ran : Forall (fun p => Sjf.remaining p = Sjf.burst p
                            ∨ Sjf.arrival p + Sjf.burst p - Sjf.remaining p ≤ Sjf.p_time st)
                  (Sjf.p_processes st);
  pi_done : Forall (fun p => 0 < Sjf.remaining p ∨ sjf_metrics_ok p) (Sjf.p_processes st)
}.

Definition sjfp_left (st : Sjf.pstate) : nat :=
  Z.to_nat (sum (map Sjf.remaining (Sjf.p_processes st))).

Definition sjfp_wait (st : Sjf.pstate) : nat :=
  Z.to_nat (sum (map (fun p => if 0 <? Sjf.remaining p
                               then Z.max 0 (Sjf.arrival p - Sjf.p_time st) else 0)
                     (Sjf.p_processes st))).

Lemma sjfp_pending_nonneg ps : 0 ≤ sum (map sjfp_pending ps).
Proof. apply sum_map_nonneg. intros p. unfold sjfp_pending. destruct (0 <? _); lia. Qed.

Lemma sjfp_pending_pos ps :
  0 < sum (map sjfp_pending ps) → ∃ p, p ∈ ps ∧ 0 < Sjf.remaining p.
Proof.
  induction ps as [|p ps IH]; simpl; [rewrite sum_nil; lia|].
  rewrite sum_cons. unfold sjfp_pending at 1.
  destruct (Z.ltb_spec 0 (Sjf.remaining p)).
  - intros _. exists p. split; [by left|done].
  - intros Hpos. destruct IH as (p' & ? & ?); [lia|]. exists p'. split; [by right|done].
Qed.

Lemma sjfp_pending_zero ps :
  sum (map sjfp_pending ps) = 0 → Forall (fun p => Sjf.remaining p ≤ 0) ps.
Proof.
  induction ps as [|p ps IH]; simpl; [by constructor|].
  rewrite sum_cons. pose proof (sjfp_pending_nonneg ps).
  unfold sjfp_pending at 1. destruct (Z.ltb_spec 0 (Sjf.remaining p)); [lia|].
  intros Hz. constructor; [done|]. apply IH. lia.
Qed.

Lemma elem_of_sjfp_ready (ps : list Sjf.Process) (t : Z) i p :
  (i, p) ∈ filter (fun ip : nat * Sjf.Process =>
                     (Sjf.arrival ip.2 <=? t) && (0 <? Sjf.remaining ip.2))
                  (enumerate ps)
  ↔ ps !! i = Some p ∧ Sjf.arrival p ≤ t ∧ 0 < Sjf.remaining p.
Proof.
  rewrite list_elem_of_filter, elem_of_enumerate. simpl.
  rewrite andb_True, !Is_true_true, Z.leb_le, Z.ltb_lt. tauto.
Qed.

Lemma sjfp_body_step st :
  sjfp_inv st → Sjf.pcond st = true →
  sjfp_inv (Sjf.pbody st)
  ∧ ((sjfp_left (Sjf.pbody st) < sjfp_left st)%nat
     ∨ (sjfp_left (Sjf.pbody st) ≤ sjfp_left st
        ∧ sjfp_wait (Sjf.pbody st) < sjfp_wait st)%nat).
Proof.
  intros [Hcount Hbounds Hran Hdone] Hcond. apply Nat.ltb_lt in Hcond.
  pose proof (sjfp_pending_nonneg (Sjf.p_processes st)) as Hnn.
  unfold Sjf.pbody.
  destruct (min_by _ _) as [[i cur]|] eqn:Hmin.
  - (* one unit of the shortest *)
    apply min_by_elem_of, elem_of_sjfp_ready in Hmin as (Hcur & Harr & Hrem).
    set (cur' := Sjf.set_remaining (Sjf.remaining cur - 1) cur).
    assert (sjfp_pending cur = 1) as E1
      by (unfold sjfp_pending; destruct (Z.ltb_spec 0 (Sjf.remaining cur)); lia).
    pose proof (Forall_lookup_1 _ _ _ _ Hran Hcur) as Hcur_ran. simpl in Hcur_ran.
    assert (Forall (fun p => Sjf.remaining p = Sjf.burst p
                             ∨ Sjf.arrival p + Sjf.burst p - Sjf.remaining p
                               ≤ Sjf.p_time st + 1) (Sjf.p_processes st)) as Hran'.
    { eapply Forall_impl; [exact Hran|]. simpl. intros p [?|?]; [by left|right; lia]. }
    assert (∀ x, Sjf.remaining x = Sjf.remaining cur - 1 →
              sum (map Sjf.remaining (<[i := x]> (Sjf.p_processes st)))
              = sum (map Sjf.remaining (Sjf.p_processes st)) - 1) as Hsum.
    { intros x Hx. rewrite (sum_map_insert Sjf.remaining _ _ _ x Hcur). lia. }
    assert (∀ x, Sjf.remaining x = Sjf.remaining cur - 1 →
              0 ≤ sum (map Sjf.remaining (<[i := x]> (Sjf.p_processes st)))) as Hsum'.
    { intros x Hx. apply Forall_fmap in Hbounds.
      assert (Forall (fun z => 0 ≤ z) (map Sjf.remaining (<[i := x]> (Sjf.p_processes st))))
        as Hb.
      { rewrite map_fmap. apply Forall_fmap, Forall_insert; [by apply Forall_fmap|].
        simpl. lia. }
      clear -Hb. induction Hb; [done|]. rewrite sum_cons. lia. }
    change (Sjf.remaining cur') with (Sjf.remaining cur - 1).
    destruct (Z.eqb_spec (Sjf.remaining cur - 1) 0) as [Hlast|Hmore].
    + split; [split|]; simpl.
      * rewrite length_insert.
        rewrite (sum_map_insert sjfp_pending _ _ _ _ Hcur), E1.
        unfold sjfp_pending at 2. simpl. rewrite Hlast. simpl. lia.
      * apply Forall_insert; [done|]. simpl. lia.
      * apply Forall_insert; [done|]. simpl. right. destruct Hcur_ran; lia.
      * apply Forall_insert; [done|]. right.
        exists (Sjf.p_time st + 1). simpl. repeat split; try done.
        all: destruct Hcur_ran; lia.
      * left. unfold sjfp_left. simpl.
        specialize (Hsum (Sjf.finish (Sjf.p_time st + 1) cur') eq_refl).
        specialize (Hsum' (Sjf.finish (Sjf.p_time st + 1) cur') eq_refl). lia.
    + split; [split|]; simpl.
      * rewrite length_insert.
        rewrite (sum_map_insert sjfp_pending _ _ _ _ Hcur), E1.
        unfold sjfp_pending at 2. simpl.
        destruct (Z.ltb_spec 0 (Sjf.remaining cur - 1)); lia.
      * apply Forall_insert; [done|]. simpl. lia.
      * apply Forall_insert; [done|]. simpl. right. destruct Hcur_ran; lia.
      * apply Forall_insert; [done|]. left. simpl. lia.
      * left. unfold sjfp_left. simpl.
        specialize (Hsum cur' eq_refl). specialize (Hsum' cur' eq_refl). lia.
  - (* idle *)
    apply min_by_None in Hmin. split; [split; simpl; try done|].
    { eapply Forall_impl; [exact Hran|]. simpl. intros p [?|?]; [by left|right; lia]. }
    right. unfold sjfp_left, sjfp_wait. simpl. split; [lia|].
    destruct (sjfp_pending_pos (Sjf.p_processes st)) as (p & Hin & Hrem); [lia|].
    assert (Sjf.p_time st < Sjf.arrival p) as Hlate.
    { apply list_elem_of_lookup in Hin as [i Hi].
      destruct (Z.lt_ge_cases (Sjf.p_time st) (Sjf.arrival p)) as [|Hle]; [done|].
      assert ((i, p) ∈ filter (fun ip : nat * Sjf.Process =>
                 (Sjf.arrival ip.2 <=? Sjf.p_time st) && (0 <? Sjf.remaining ip.2))
                (enumerate (Sjf.p_processes st))) as Hready
        by (apply elem_of_sjfp_ready; repeat split; try done; lia).
      rewrite Hmin in Hready. by apply elem_of_nil in Hready. }
    apply Z2Nat.inj_lt.
    + apply sum_map_nonneg. intros; destruct (0 <? _); lia.
    + apply sum_map_nonneg. intros; destruct (0 <? _); lia.
    + apply (sum_map_lt _ _ _ p); [|done|].
      * apply Forall_forall. intros; destruct (0 <? _); lia.
      * destruct (Z.ltb_spec 0 (Sjf.remaining p)); lia.
Qed.

Lemma sjfp_body_static st :
  map sjf_static (Sjf.p_processes (Sjf.pbody st)) = map sjf_static (Sjf.p_processes st).
Proof.
  unfold Sjf.pbody. destruct (min_by _ _) as [[i cur]|] eqn:Hmin; [|done].
  apply min_by_elem_of, elem_of_sjfp_ready in Hmin as (Hcur & _).
  destruct (_ =? 0); simpl; by eapply map_insert_same.
Qed.

(** [sjf_preemptive] returns on processes with positive bursts and
    [remaining] equal to [burst]; every process then has nothing left and
    has its metrics. *)
Lemma sjf_preemptive_returns (processes : list Sjf.Process) :
  Forall (fun p => 0 < Sjf.burst p ∧ Sjf.remaining p = Sjf.burst p) processes →
  ∃ fuel gantt final,
    Sjf.sjf_preemptive fuel processes = Some (gantt, final)
    ∧ map sjf_static final = map sjf_static processes
    ∧ Forall (fun p => Sjf.remaining p = 0) final
    ∧ Forall sjf_metrics_ok final.
Proof.
  intros Hvalid.
  destruct (while_terminates Sjf.pcond Sjf.pbody sjfp_inv sjfp_left sjfp_wait
              sjfp_body_step
              {| Sjf.p_processes := processes; Sjf.p_time := 0; Sjf.p_completed := 0;
                 Sjf.p_gantt := []; Sjf.current_process := None |})
    as (fuel & st & Hrun & [Hcount Hbounds Hran Hdone] & Hcond).
  { split; simpl.
    - induction Hvalid as [|p ps [Hb Hr] Hps IH]; simpl; [done|].
      rewrite sum_cons. unfold sjfp_pending at 1.
      destruct (Z.ltb_spec 0 (Sjf.remaining p)); lia.
    - eapply Forall_impl; [exact Hvalid|]. simpl. lia.
    - eapply Forall_impl; [exact Hvalid|]. simpl. intros p [_ ?]. by left.
    - eapply Forall_impl; [exact Hvalid|]. simpl. intros p [? ?]. left. lia. }
  exists fuel, (Sjf.p_gantt st), (Sjf.p_processes st).
  unfold Sjf.sjf_preemptive. rewrite Hrun. simpl. split; [done|].
  apply Nat.ltb_ge in Hcond.
  pose proof (sjfp_pending_nonneg (Sjf.p_processes st)) as Hnn.
  assert (Forall (fun p => Sjf.remaining p ≤ 0) (Sjf.p_processes st)) as Hall
    by (apply sjfp_pending_zero; lia).
  split; [|split].
  - apply (while_invariant _ _
             (fun s => map sjf_static (Sjf.p_processes s) = map sjf_static processes))
      in Hrun as [? _]; [done| |done].
    intros s Hs _. by rewrite sjfp_body_static.
  - rewrite Forall_forall in Hbounds, Hall. apply Forall_forall. intros p Hp.
    specialize (Hbounds p Hp). specialize (Hall p Hp). simpl in *. lia.
  - rewrite Forall_forall in Hdone, Hall. apply Forall_forall. intros p Hp.
    specialize (Hall p Hp). destruct (Hdone p Hp) as [?|?]; [simpl in *; lia|done].
Qed.

(** A process list on which [sjf_preemptive] never returns: with nothing
    remaining no process is ever ready, and the count never moves. *)
Lemma sjf_preemptive_spent_never_returns (processes : list Sjf.Process) fuel :
  processes ≠ [] → Forall (fun p => Sjf.remaining p = 0) processes →
  Sjf.sjf_preemptive fuel processes = None.
Proof.
  intros Hne Hzero. unfold Sjf.sjf_preemptive.
  assert (∀ t, while Sjf.pcond Sjf.pbody fuel
                 {| Sjf.p_processes := processes; Sjf.p_time := t; Sjf.p_completed := 0;
                    Sjf.p_gantt := []; Sjf.current_process := None |} = None) as Hloop;
    [|by rewrite Hloop].
  induction fuel as [|fuel IH]; intros t; simpl; [done|].
  unfold Sjf.pcond at 1. simpl.
  destruct (Nat.ltb_spec 0 (length processes)) as [_|Hlen];
    [|destruct processes; [done|simpl in Hlen; lia]].
  unfold Sjf.pbody at 2. simpl.
  assert (filter (fun ip : nat * Sjf.Process =>
                    (Sjf.arrival ip.2 <=? t) && (0 <? Sjf.remaining ip.2))
                 (enumerate processes) = []) as ->; [|apply IH].
  destruct (filter _ _) as [|[i p] ready] eqn:Hready; [done|].
  assert ((i, p) ∈ filter (fun ip : nat * Sjf.Process =>
                             (Sjf.arrival ip.2 <=? t) && (0 <? Sjf.remaining ip.2))
                          (enumerate processes)) as Hin by (rewrite Hready; by left).
  apply elem_of_sjfp_ready in Hin as (Hp & _ & Hrem).
  pose proof (Forall_lookup_1 _ _ _ _ Hzero Hp) as Hz. simpl in Hz. lia.
Qed.

(** ** Round Robin with a quantum no burst exceeds *)

Lemma fcfs_end_app t l1 l2 : fcfs_end t (l1 ++ l2) = fcfs_end (fcfs_end t l1) l2.
Proof. revert t. induction l1 as [|j l1 IH]; intros t; simpl; [done|]. apply IH. Qed.

Lemma fcfs_schedule_app t l1 l2 :
  fcfs_schedule t (l1 ++ l2) = fcfs_schedule t l1 ++ fcfs_schedule (fcfs_end t l1) l2.
Proof.
  revert t. induction l1 as [|j l1 IH]; intros t; simpl; [done|]. by rewrite IH.
Qed.

(** The start of the job at position [k] in FCFS. *)
Definition fcfs_start (l : list job) (k : nat) (j : job) : Z :=
  Z.max (fcfs_end 0 (take k l)) (job_arrival j).

Lemma fcfs_schedule_lookup l k j :
  l !! k = Some j → fcfs_schedule 0 l !! k = Some (fcfs_start l k j, j).
Proof.
  intros Hk. rewrite <- (take_drop_middle l k j Hk) at 1.
  rewrite fcfs_schedule_app.
  rewrite lookup_app_r; rewrite fcfs_schedule_length, length_take_le;
    try (apply lookup_lt_Some in Hk; lia).
  by rewrite Nat.sub_diag.
Qed.

Lemma fcfs_end_take_S l k j :
  l !! k = Some j → fcfs_end 0 (take (S k) l) = fcfs_start l k j + job_burst j.
Proof. intros Hk. by rewrite (take_S_r _ _ _ Hk), fcfs_end_app. Qed.

Definition rr_new (j : job) : Rr.Process :=
  Rr.new_Process (job_pid j) (job_arrival j) (job_burst j).

(** The process object of a job that ran in one slice from [start]. *)
Definition rr_done (sj : Z * job) : Rr.Process :=
  let completion := sj.1 + job_burst sj.2 in
  let turnaround := completion - job_arrival sj.2 in
  {| Rr.pid := job_pid sj.2; Rr.arrival := job_arrival sj.2; Rr.burst := job_burst sj.2;
     Rr.remaining := 0; Rr.completion := completion; Rr.turnaround := turnaround;
     Rr.waiting := turnaround - job_burst sj.2 |}.

Section Degenerate.
Variable quantum : Z.
Variable jobs : list job.   (* sorted by arrival *)
Hypothesis jobs_sorted : StronglySorted Z.le (map job_arrival jobs).
Hypothesis jobs_short : Forall (fun j => 0 ≤ job_burst j ∧ job_burst j ≤ quantum) jobs.

Let sched := fcfs_schedule 0 jobs.

(** The queue and the flags after [k] processes have finished: the queue
    holds the flagged positions from [k] on, in order; the flagged
    positions are an initial part of the list; a flagged job has arrived. *)
Record queue_like (k : nat) (queue : list nat) (flags : list bool) (t : Z) : Prop := {
  ql_flags : length flags = length jobs;
  ql_sorted : StronglySorted lt queue;
  ql_queue : ∀ i, i ∈ queue ↔ (k ≤ i)%nat ∧ flags !! i = Some true;
  ql_finished : ∀ i, (i < k)%nat → flags !! i = Some true;
  ql_prefix : ∀ i j, (j < i)%nat → flags !! i = Some true → flags !! j = Some true;
  ql_arrived : ∀ i j, flags !! i = Some true → jobs !! i = Some j → job_arrival j ≤ t
}.

(** A store whose processes have the arrival times of the jobs. *)
Definition store_of_jobs (ps : list Rr.Process) : Prop :=
  length ps = length jobs
  ∧ ∀ i p, ps !! i = Some p → ∃ j, jobs !! i = Some j ∧ Rr.arrival p = job_arrival j.

Lemma queue_like_scan (test : Rr.Process → bool) ps k queue flags t t' :
  queue_like k queue flags t → store_of_jobs ps → t ≤ t' →
  (∀ p, test p = true → Rr.arrival p ≤ t') →
  (∀ i j pi pj, (j < i)%nat → ps !! i = Some pi → ps !! j = Some pj →
                flags !! j = Some false → test pi = true → test pj = true) →
  queue_like k (enqueue_arrivals test ps queue flags).1
             (enqueue_arrivals test ps queue flags).2 t'.
Proof.
  intros [Hlen Hsorted Hqueue Hfin Hprefix Harr] [Hps Hjobs] Ht Htest Hmono.
  destruct (enqueue_arrivals_spec test ps queue flags) as (E1 & E2 & E3 & _).
  assert (∀ i, flags !! i = Some true →
               (enqueue_arrivals test ps queue flags).2 !! i = Some true) as Hkeep.
  { intros i Hi. by apply enqueue_arrivals_flag_mono. }
  assert (∀ i, i ∈ newly test ps flags →
               (enqueue_arrivals test ps queue flags).2 !! i = Some true) as Hnew.
  { intros i Hi. rewrite E3. by rewrite decide_True. }
  split.
  - by rewrite E2.
  - rewrite E1. apply StronglySorted_app_2; [|done|apply newly_from_increasing].
    intros x y Hx Hy. apply Hqueue in Hx as [_ Hx].
    apply elem_of_newly in Hy as [Hy _].
    destruct (Nat.lt_trichotomy x y) as [?|[->|Hlt]]; [done|congruence|].
    specialize (Hprefix x y Hlt Hx). congruence.
  - intros i. rewrite E1, elem_of_app, Hqueue. split.
    + intros [[Hk Hi]|Hi]; [by auto|]. split; [|by apply Hnew].
      apply elem_of_newly in Hi as [Hi _].
      destruct (Nat.le_gt_cases k i) as [|Hlt]; [done|].
      specialize (Hfin i Hlt). congruence.
    + intros [Hk Hi]. rewrite E3 in Hi. case_decide; [by right|by left].
  - intros i Hi. by apply Hkeep, Hfin.
  - intros i j Hji Hi. rewrite E3 in Hi. case_decide as Hin.
    + apply elem_of_newly in Hin as (Hfi & pi & Hpi & Hti).
      assert (j < length ps)%nat as Hj by (apply lookup_lt_Some in Hpi; lia).
      destruct (lookup_lt_is_Some_2 ps j Hj) as [pj Hpj].
      destruct (lookup_lt_is_Some_2 flags j ltac:(lia)) as [[] Hfj]; [by apply Hkeep|].
      apply Hnew, elem_of_newly. split; [done|]. exists pj. split; [done|].
      by apply (Hmono i j pi pj).
    + by apply Hkeep, (Hprefix i j).
  - intros i j Hi Hj. rewrite E3 in Hi. case_decide as Hin.
    + apply elem_of_newly in Hin as (_ & p & Hp & Htp).
      destruct (Hjobs i p Hp) as (j' & Hj' & Hpa). simplify_eq.
      rewrite <- Hpa. by apply Htest.
    + specialize (Harr i j Hi Hj). lia.
Qed.

Lemma store_of_jobs_lookup_le ps (i j : nat) pi pj :
  store_of_jobs ps → (j < i)%nat → ps !! i = Some pi → ps !! j = Some pj →
  Rr.arrival pj ≤ Rr.arrival pi.
Proof.
  intros [_ Hjobs] Hji Hpi Hpj.
  destruct (Hjobs i pi Hpi) as (ji & Hi & ->).
  destruct (Hjobs j pj Hpj) as (jj & Hj & ->).
  by apply (sorted_lookup_le job_arrival jobs j i).
Qed.

Lemma queue_like_later k queue flags t t' :
  queue_like k queue flags t → t ≤ t' → queue_like k queue flags t'.
Proof.
  intros [? ? ? ? ? Harr] Ht. split; try done.
  intros i j Hi Hj. specialize (Harr i j Hi Hj). lia.
Qed.

Lemma queue_like_pop k rest flags t :
  queue_like k (k :: rest) flags t → queue_like (S k) rest flags t.
Proof.
  intros [Hlen Hsorted Hqueue Hfin Hprefix Harr].
  apply StronglySorted_inv in Hsorted as [Hsorted Hhead].
  rewrite Forall_forall in Hhead. split; try done.
  - intros i. split.
    + intros Hi. split; [by apply Hhead|]. apply Hqueue. by right.
    + intros [Hk Hi].
      assert (i ∈ k :: rest) as [?|?]%elem_of_cons by (apply Hqueue; split; [lia|done]);
        [lia|done].
  - intros i Hi. destruct (decide (i = k)) as [->|]; [|apply Hfin; lia].
    apply Hqueue. by left.
Qed.

(** The loop of [round_robin] keeps step with FCFS: after [completed]
    processes the clock, the chart and the finished processes are those of
    FCFS, and the clock has not passed the start of the next job. *)
Record fcfs_like (st : Rr.state) : Prop := {
  fl_store : ∀ i, Rr.processes st !! i
                  = if decide (i < Rr.completed st)%nat
                    then rr_done <$> sched !! i else rr_new <$> jobs !! i;
  fl_gantt : Rr.gantt st = map fcfs_segment (take (Rr.completed st) sched);
  fl_queue : queue_like (Rr.completed st) (Rr.queue st) (Rr.arrived st) (Rr.time st);
  fl_clock : fcfs_end 0 (take (Rr.completed st) jobs) ≤ Rr.time st;
  fl_next : ∀ j, jobs !! Rr.completed st = Some j →
                 Rr.time st ≤ fcfs_start jobs (Rr.completed st) j
}.

Lemma sched_lookup_job i s j : sched !! i = Some (s, j) → jobs !! i = Some j.
Proof.
  intros Hs. assert (i < length jobs)%nat as Hi.
  { apply lookup_lt_Some in Hs. unfold sched in Hs.
    by rewrite fcfs_schedule_length in Hs. }
  destruct (lookup_lt_is_Some_2 jobs i Hi) as [j' Hj'].
  unfold sched in Hs. rewrite (fcfs_schedule_lookup _ _ _ Hj') in Hs. by simplify_eq.
Qed.

Lemma fcfs_like_store st : fcfs_like st → store_of_jobs (Rr.processes st).
Proof.
  intros Hfl. split.
  - destruct (Nat.lt_trichotomy (length (Rr.processes st)) (length jobs))
      as [Hlt|[?|Hgt]]; [|done|].
    + pose proof (fl_store _ Hfl (length (Rr.processes st))) as Hl.
      rewrite lookup_ge_None_2 in Hl by done.
      destruct (lookup_lt_is_Some_2 jobs _ Hlt) as [j Hj].
      pose proof (fcfs_schedule_lookup _ _ _ Hj) as Hs. fold sched in Hs.
      rewrite Hj, Hs in Hl. by case_decide.
    + pose proof (fl_store _ Hfl (length jobs)) as Hl.
      destruct (lookup_lt_is_Some_2 (Rr.processes st) _ Hgt) as [p Hp].
      rewrite Hp in Hl. rewrite (lookup_ge_None_2 jobs) in Hl by done.
      unfold sched in Hl.
      rewrite (lookup_ge_None_2 (fcfs_schedule 0 jobs)) in Hl
        by (by rewrite fcfs_schedule_length).
      by case_decide.
  - intros i p Hp. rewrite (fl_store _ Hfl) in Hp. case_decide.
    + destruct (sched !! i) as [[s j]|] eqn:Hs; simplify_eq/=.
      exists j. split; [|done]. by eapply sched_lookup_job.
    + destruct (jobs !! i) as [j|] eqn:Hj; simplify_eq/=. by exists j.
Qed.
Lemma fcfs_like_body st :
  fcfs_like st → Rr.cond st = true → fcfs_like (Rr.body quantum st).
Proof.
  intros Hfl Hcond. pose proof (fcfs_like_store st Hfl) as Hjobs.
  destruct Hfl as [Hstore Hgantt Hq Hclock Hnext].
  apply Nat.ltb_lt in Hcond. destruct Hjobs as [Hlen Hjobs].
  set (k := Rr.completed st) in *. set (t := Rr.time st) in *.
  assert (queue_like k
            (enqueue_arrivals (fun p => Rr.arrival p <=? t)
               (Rr.processes st) (Rr.queue st) (Rr.arrived st)).1
            (enqueue_arrivals (fun p => Rr.arrival p <=? t)
               (Rr.processes st) (Rr.queue st) (Rr.arrived st)).2 t) as Q1.
  { apply (queue_like_scan _ _ _ _ _ t); [exact Hq|by split|lia|..].
    - intros p Hp. by apply Z.leb_le.
    - intros i j pi pj Hji Hpi Hpj _ Hti. apply Z.leb_le. apply Z.leb_le in Hti.
      pose proof (store_of_jobs_lookup_le _ i j pi pj (conj Hlen Hjobs) Hji Hpi Hpj).
      lia. }
  assert (∀ i p, (enqueue_arrivals (fun p => Rr.arrival p <=? t)
                    (Rr.processes st) (Rr.queue st) (Rr.arrived st)).2 !! i = Some false →
                 Rr.processes st !! i = Some p → t < Rr.arrival p) as Hlate.
  { intros i p Hi Hp. apply Z.leb_gt.
    eapply (enqueue_arrivals_flags_false (fun p => Rr.arrival p <=? t));
      [|exact Hi|exact Hp].
    rewrite (ql_flags _ _ _ _ Hq). done. }
  destruct (lookup_lt_is_Some_2 jobs k ltac:(lia)) as [j Hj].
  assert (Rr.processes st !! k = Some (rr_new j)) as Hcur.
  { rewrite Hstore, decide_False by lia. by rewrite Hj. }
  unfold Rr.body. fold t.
  destruct (enqueue_arrivals _ (Rr.processes st) (Rr.queue st) (Rr.arrived st))
    as [queue1 flags1] eqn:Hscan.
  simpl in Q1, Hlate. cbn [fst snd]. destruct queue1 as [|c rest].
  - (* idle *)
    split; simpl; fold k; try done.
    + apply (queue_like_later _ _ _ t); [done|lia].
    + fold t. lia.
    + intros j' Hj'. simplify_eq. fold t.
      assert (flags1 !! k = Some false) as Hk.
      { destruct (lookup_lt_is_Some_2 flags1 k) as [[] Hk];
          [rewrite (ql_flags _ _ _ _ Q1); lia| |done].
        assert (k ∈ []) as Hin by (apply (ql_queue _ _ _ _ Q1); split; [lia|done]).
        by apply elem_of_nil in Hin. }
      specialize (Hlate k _ Hk Hcur). simpl in Hlate. unfold fcfs_start. lia.
  - (* the slice of the job at position [k] *)
    assert (c = k) as ->.
    { assert (c ∈ c :: rest) as Hc by (by left).
      apply (ql_queue _ _ _ _ Q1) in Hc as [Hkc Hc].
      destruct (decide (c = k)) as [|Hne]; [done|].
      assert (flags1 !! k = Some true) as Hk
        by (apply (ql_prefix _ _ _ _ Q1 c k); [lia|done]).
      assert (k ∈ c :: rest) as [?|Hin]%elem_of_cons
        by (apply (ql_queue _ _ _ _ Q1); split; [lia|done]); [done|].
      pose proof (ql_sorted _ _ _ _ Q1) as Hs.
      apply StronglySorted_inv in Hs as [_ Hs]. rewrite Forall_forall in Hs.
      specialize (Hs k Hin). lia. }
    rewrite Hcur.
    change (Rr.remaining (rr_new j)) with (job_burst j).
    rewrite Forall_forall in jobs_short.
    destruct (jobs_short j) as [Hb Hbq]; [by eapply list_elem_of_lookup_2|].
    replace (Z.min (job_burst j) quantum) with (job_burst j) by lia.
    set (cur' := Rr.set_remaining (job_burst j - job_burst j) (rr_new j)).
    assert (flags1 !! k = Some true) as Hk
      by (apply (ql_queue _ _ _ _ Q1); by left).
    assert (t = fcfs_start jobs k j) as Hstart.
    { pose proof (ql_arrived _ _ _ _ Q1 k j Hk Hj). specialize (Hnext j Hj).
      unfold fcfs_start in *. lia. }
    change (Rr.remaining cur') with (job_burst j - job_burst j).
    replace (0 <? job_burst j - job_burst j) with false
      by (symmetry; apply Z.ltb_ge; lia).
    pose proof (fcfs_schedule_lookup _ _ _ Hj) as Hsched. fold sched in Hsched.
    split; simpl; fold k.
    + (* the store *)
      intros i. rewrite list_insert_insert_eq.
      destruct (decide (i = k)) as [->|Hne].
      * rewrite list_lookup_insert_eq by (apply lookup_lt_Some in Hcur; lia).
        rewrite decide_True by lia. rewrite Hsched. simpl. f_equal.
        unfold Rr.finish, rr_done, cur'. simpl. rewrite <- Hstart. f_equal; lia.
      * rewrite list_lookup_insert_ne by done. rewrite Hstore. fold k.
        destruct (decide (i < k)%nat), (decide (i < S k)%nat); try done; lia.
    + (* the chart *)
      rewrite Hgantt, (take_S_r _ _ _ Hsched), map_app. simpl.
      unfold fcfs_segment. simpl. by rewrite <- Hstart.
    + (* the queue *)
      apply (queue_like_scan _ _ _ _ _ t).
      * by apply queue_like_pop.
      * split; [by rewrite length_insert|]. intros i p Hp.
        destruct (decide (i = k)) as [->|Hne].
        -- rewrite list_lookup_insert_eq in Hp by (apply lookup_lt_Some in Hcur; lia).
           simplify_eq. by exists j.
        -- rewrite list_lookup_insert_ne in Hp by done. by apply Hjobs.
      * lia.
      * intros p [_ Hp]%andb_prop. by apply Z.leb_le.
      * intros i i' pi pj Hji Hpi Hpj Hflag [Hlo Hhi]%andb_prop.
        apply Z.ltb_lt in Hlo. apply Z.leb_le in Hhi.
        assert (i' ≠ k) as Hne' by (intros ->; congruence).
        rewrite list_lookup_insert_ne in Hpj by done.
        specialize (Hlate i' pj Hflag Hpj).
        assert (Rr.arrival pj ≤ Rr.arrival pi) as Hle.
        { destruct (decide (i = k)) as [->|Hne].
          - rewrite list_lookup_insert_eq in Hpi by (apply lookup_lt_Some in Hcur; lia).
            simplify_eq. simpl.
            destruct (Hjobs i' pj Hpj) as (jj & Hjj & ->).
            by apply (sorted_lookup_le job_arrival jobs i' k).
          - rewrite list_lookup_insert_ne in Hpi by done.
            by apply (store_of_jobs_lookup_le _ i i' pi pj (conj Hlen Hjobs)). }
        apply andb_true_intro. split; [apply Z.ltb_lt|apply Z.leb_le]; lia.
    + (* the clock *)
      rewrite (fcfs_end_take_S _ _ _ Hj). lia.
    + intros j' Hj'. unfold fcfs_start. rewrite (fcfs_end_take_S _ _ _ Hj). lia.
Qed.
End Degenerate.

(** A process object of [rr.py] and a process dictionary of
    [fcfs_scheduling.py] with the same identity and the same metrics. *)
Definition same_metrics (p : Rr.Process) (d : dict) : Prop :=
  d !! "pid" = Some (Rr.pid p)
  ∧ get_int d "arrival_time" = Some (Rr.arrival p)
  ∧ get_int d "burst_time" = Some (Rr.burst p)
  ∧ get_int d "completion_time" = Some (Rr.completion p)
  ∧ get_int d "turnaround_time" = Some (Rr.turnaround p)
  ∧ get_int d "waiting_time" = Some (Rr.waiting p).

Lemma Forall2_map_same {A B C : Type} (R : B → C → Prop) (f : A → B) (g : A → C) l :
  (∀ x, R (f x) (g x)) → Forall2 R (map f l) (map g l).
Proof. intros H. induction l; simpl; constructor; auto. Qed.

(** With a quantum that no burst exceeds, [round_robin] returns the chart
    of [fcfs_scheduling] and leaves every process with the metrics FCFS
    gives it. *)
Lemma round_robin_degenerates_to_fcfs (l : list job) (quantum : Z) :
  0 < quantum →
  Forall (fun j => 0 ≤ job_burst j ∧ job_burst j ≤ quantum) l →
  ∃ fuel final r,
    Rr.round_robin fuel (map rr_new l) quantum = Some (Fcfs.gantt_chart r, final)
    ∧ Fcfs.fcfs_scheduling (map fcfs_input l) = Some r
    ∧ Forall2 same_metrics final (Fcfs.processes r).
Proof.
  intros Hq Hshort.
  set (jobs := sort_by job_arrival l).
  assert (StronglySorted Z.le (map job_arrival jobs)) as Hsorted
    by apply StronglySorted_map_key, sort_by_sorted.
  assert (Forall (fun j => 0 ≤ job_burst j ∧ job_burst j ≤ quantum) jobs) as Hshort'
    by (unfold jobs; by rewrite sort_by_Permutation).
  assert (Rr.init (map rr_new l)
          = {| Rr.processes := map rr_new jobs; Rr.time := 0; Rr.gantt := [];
               Rr.queue := []; Rr.completed := 0;
               Rr.arrived := replicate (length jobs) false |}) as Hinit.
  { unfold Rr.init. rewrite (sort_by_map job_arrival Rr.arrival rr_new) by done.
    unfold jobs. by rewrite length_map, sort_by_length. }
  destruct (rr_loop_terminates quantum Hq (Rr.init (map rr_new l)) (rr_inv_init _))
    as (fuel & st & Hrun & _ & Hcond).
  pose proof Hrun as Hlike.
  apply (while_invariant _ _ (fcfs_like jobs)) in Hlike as [Hlike _].
  2:{ intros s Hs Hc. by apply fcfs_like_body. }
  2:{ rewrite Hinit. split; simpl.
      - intros i. by rewrite map_fmap, list_lookup_fmap.
      - done.
      - split; simpl.
        + by rewrite length_replicate.
        + constructor.
        + intros i. split; [by intros ?%elem_of_nil|].
          intros [_ Hi]. apply lookup_replicate in Hi as [? _]. done.
        + intros i ?. lia.
        + intros i j _ Hi. apply lookup_replicate in Hi as [? _]. done.
        + intros i j Hi. apply lookup_replicate in Hi as [? _]. done.
      - lia.
      - intros j _. unfold fcfs_start. simpl. lia. }
  destruct (fcfs_like_store jobs st Hlike) as [Hlen _].
  destruct Hlike as [Hstore Hgantt _ _ _].
  apply Nat.ltb_ge in Hcond. rewrite Hlen in Hcond.
  exists fuel, (Rr.processes st). eexists.
  split; [|split; [apply fcfs_scheduling_jobs|]].
  - unfold Rr.round_robin. rewrite Hrun. simpl. fold jobs. rewrite Hgantt.
    by rewrite take_ge by (by rewrite fcfs_schedule_length).
  - simpl. fold jobs.
    replace (Rr.processes st) with (map rr_done (fcfs_schedule 0 jobs)).
    { apply Forall2_map_same. intros [s j].
      unfold same_metrics. repeat split; try reflexivity.
      change (get_int (fcfs_output (s, j)) "waiting_time")
        with (Some (s - job_arrival j)).
      f_equal. simpl. lia. }
    apply list_eq. intros i. rewrite Hstore, map_fmap, list_lookup_fmap.
    case_decide as Hi; [done|].
    rewrite !lookup_ge_None_2; [done|lia|rewrite fcfs_schedule_length; lia].
Qed.

(** ** main.py: logic_fcfs, logic_sjf and logic_priority *)

Definition main_metrics_ok (p : Main.Process) : Prop :=
  Main.turnaround_time p = Main.completion_time p - Main.arrival_time p
  ∧ Main.waiting_time p = Main.turnaround_time p - Main.burst_time p
  ∧ 0 ≤ Main.waiting_time p
  ∧ Main.burst_time p ≤ Main.turnaround_time p.

Lemma run_whole_metrics t p :
  Main.arrival_time p ≤ t → main_metrics_ok (Main.run_whole t p).
Proof. intros Ht. unfold main_metrics_ok. simpl. lia. Qed.

Lemma logic_fcfs_loop_metrics l t acc :
  Forall main_metrics_ok acc →
  Forall main_metrics_ok (fold_left Main.fcfs_step l (t, acc)).2.
Proof.
  revert t acc. induction l as [|p l IH]; intros t acc Hacc; simpl; [done|].
  apply IH. apply Forall_app. split; [done|]. constructor; [|done].
  apply run_whole_metrics. cbn [fst].
  destruct (Z.ltb_spec t (Main.arrival_time p)); lia.
Qed.

(** [logic_fcfs]: every process has its metrics, whatever the numbers. *)
Lemma logic_fcfs_metrics procs : Forall main_metrics_ok (Main.logic_fcfs procs).
Proof. apply logic_fcfs_loop_metrics. constructor. Qed.

Record select_inv (st : Main.state) : Prop := {
  sl_length : length (Main.comp st) = length (Main.procs st);
  sl_count : (Main.count st + unset (Main.comp st) = length (Main.procs st))%nat;
  sl_res : ∀ i, i ∈ Main.res st ↔ Main.comp st !! i = Some true;
  sl_NoDup : NoDup (Main.res st);
  sl_metrics : ∀ i p, Main.procs st !! i = Some p → Main.comp st !! i = Some true →
                      main_metrics_ok p
}.

Definition select_wait (st : Main.state) : nat :=
  Z.to_nat (sum (map (fun ip : nat * Main.Process =>
                        if default true (Main.comp st !! ip.1) then 0
                        else Z.max 0 (Main.arrival_time ip.2 - Main.t st))
                     (enumerate (Main.procs st)))).

Lemma select_body_step key st :
  select_inv st → Main.cond st = true →
  select_inv (Main.select_body key st)
  ∧ ((unset (Main.comp (Main.select_body key st)) < unset (Main.comp st))%nat
     ∨ (unset (Main.comp (Main.select_body key st)) ≤ unset (Main.comp st)
        ∧ select_wait (Main.select_body key st) < select_wait st)%nat).
Proof.
  intros [Hlen Hcount Hres Hnd Hmet] Hcond. apply Nat.ltb_lt in Hcond.
  unfold Main.select_body.
  destruct (min_by _ (Main.avail st)) as [[idx p]|] eqn:Hmin.
  - (* a process runs to its end *)
    apply min_by_elem_of, elem_of_avail in Hmin as (Hp & Harr & Hcomp).
    pose proof (unset_insert_true _ _ Hcomp) as Hunset.
    assert (idx < length (Main.comp st))%nat as Hidx by (by eapply lookup_lt_Some).
    split; [split; simpl|left; simpl; lia].
    + by rewrite !length_insert.
    + rewrite length_insert. lia.
    + intros i. rewrite elem_of_app, list_elem_of_singleton, Hres.
      destruct (decide (i = idx)) as [->|Hne].
      * rewrite list_lookup_insert_eq by done. split; [done|by right].
      * rewrite list_lookup_insert_ne by done.
        split; [by intros [?|?]|by left].
    + apply NoDup_app. split; [done|]. split; [|apply NoDup_singleton].
      intros i Hi ->%list_elem_of_singleton. apply Hres in Hi. congruence.
    + intros i p' Hp' Hi. destruct (decide (i = idx)) as [->|Hne].
      * rewrite list_lookup_insert_eq in Hp' by lia. simplify_eq.
        by apply run_whole_metrics.
      * rewrite list_lookup_insert_ne in Hp' by done.
        rewrite list_lookup_insert_ne in Hi by done. by apply (Hmet i).
  - (* idle *)
    apply min_by_None in Hmin. split; [by split|]. right. simpl. split; [done|].
    destruct (unset_pos (Main.comp st)) as [i Hi]; [lia|].
    destruct (lookup_lt_is_Some_2 (Main.procs st) i) as [p Hp].
    { rewrite <- Hlen. by eapply lookup_lt_Some. }
    assert (Main.t st < Main.arrival_time p) as Hlate.
    { destruct (Z.lt_ge_cases (Main.t st) (Main.arrival_time p)) as [|Hle]; [done|].
      assert ((i, p) ∈ Main.avail st) as Hin
        by (apply elem_of_avail; repeat split; try done; lia).
      rewrite Hmin in Hin. by apply elem_of_nil in Hin. }
    unfold select_wait. simpl. apply Z2Nat.inj_lt.
    + apply sum_map_nonneg. intros; destruct (default _ _); lia.
    + apply sum_map_nonneg. intros; destruct (default _ _); lia.
    + apply (sum_map_lt _ _ _ (i, p)).
      * apply Forall_forall. intros; destruct (default _ _); lia.
      * by apply elem_of_enumerate.
      * simpl. rewrite Hi. simpl. lia.
Qed.

Lemma length_omap_all {A B : Type} (f : A → option B) (l : list A) :
  (∀ x, x ∈ l → is_Some (f x)) → length (omap f l) = length l.
Proof.
  induction l as [|x l IH]; intros Hall; [done|]. simpl.
  destruct (Hall x) as [y ->]; [by left|]. simpl. f_equal.
  apply IH. intros x' Hx'. apply Hall. by right.
Qed.

(** [logic_sjf] and [logic_priority] return on every input; each process
    is in the result and has its metrics. *)
Lemma select_loop_returns (key : Main.Process → Z) (procs : list Main.Process) :
  ∃ fuel res,
    Main.select_loop key fuel procs = Some res
    ∧ length res = length procs
    ∧ Forall main_metrics_ok res.
Proof.
  destruct (while_terminates Main.cond (Main.select_body key) select_inv
              (fun st => unset (Main.comp st)) select_wait (select_body_step key)
              {| Main.procs := procs; Main.t := 0; Main.count := 0; Main.res := [];
                 Main.comp := replicate (length procs) false |})
    as (fuel & st & Hrun & [Hlen Hcount Hres Hnd Hmet] & Hcond).
  { split; simpl.
    - by rewrite length_replicate.
    - by rewrite unset_replicate.
    - intros i. split; [by intros ?%elem_of_nil|].
      intros Hi. apply lookup_replicate in Hi as [? _]. done.
    - constructor.
    - intros i p _ Hi. apply lookup_replicate in Hi as [? _]. done. }
  exists fuel. eexists. unfold Main.select_loop. rewrite Hrun. simpl.
  split; [done|]. apply Nat.ltb_ge in Hcond.
  assert (∀ i, i ∈ Main.res st ↔ (i < length (Main.procs st))%nat) as Hall.
  { intros i. rewrite Hres. split.
    - intros Hi. rewrite <- Hlen. by eapply lookup_lt_Some.
    - intros Hi. apply unset_zero; lia. }
  assert (Main.res st ≡ₚ seq 0 (length (Main.procs st))) as Hperm.
  { apply NoDup_Permutation; [done|apply NoDup_seq|].
    intros i. rewrite Hall, elem_of_seq. lia. }
  assert (length (Main.procs st) = length procs) as Hsame.
  { apply (while_invariant _ _ (fun s => length (Main.procs s) = length procs))
      in Hrun as [? _]; [done| |done].
    intros s Hs _. unfold Main.select_body.
    destruct (min_by _ _) as [[idx p]|]; [|done]. simpl. by rewrite length_insert. }
  split.
  - rewrite length_omap_all.
    + by rewrite Hperm, length_seq.
    + intros i Hi. apply lookup_lt_is_Some_2. by apply Hall.
  - apply Forall_forall. intros p Hp.
    apply list_elem_of_omap in Hp as (i & Hi & Hp).
    apply (Hmet i p Hp). by apply Hres.
Qed.

(** ** main.py: the loop of [logic_rr] *)

Section LogicRr.
Variable quantum : Z.
Hypothesis quantum_pos : 0 < quantum.

(** The queue invariant of Round Robin, and with an empty queue every
    process not visited yet arrives later than the clock. *)
Definition logic_rr_inv (st : Main.rr_state) : Prop :=
  queue_inv Main.remaining_time (Main.rr_procs st) (Main.queue st) [] (Main.visited st)
            (Main.rr_count st)
  ∧ (Main.queue st = [] →
     ∀ i p, Main.rr_procs st !! i = Some p → Main.visited st !! i = Some false →
            Main.rr_t st < Main.arrival_time p).

Definition logic_rr_work (st : Main.rr_state) : nat :=
  (Z.to_nat (sum (map (fun p => slices quantum (Main.remaining_time p)) (Main.rr_procs st)))
   + (length (Main.rr_procs st) - Main.rr_count st))%nat.

Definition logic_rr_wait (st : Main.rr_state) : nat :=
  Z.to_nat (sum (map (fun p => Z.max 0 (Main.arrival_time p - Main.rr_t st))
                     (Main.rr_procs st))).

Lemma logic_rr_body_step st :
  logic_rr_inv st → Main.rr_cond st = true →
  logic_rr_inv (Main.rr_body quantum st)
  ∧ ((logic_rr_work (Main.rr_body quantum st) < logic_rr_work st)%nat
     ∨ (logic_rr_work (Main.rr_body quantum st) ≤ logic_rr_work st
        ∧ logic_rr_wait (Main.rr_body quantum st) < logic_rr_wait st)%nat).
Proof.
  intros [Hinv Hlate] Hcond. apply Nat.ltb_lt in Hcond.
  unfold Main.rr_body. destruct (Main.queue st) as [|c rest] eqn:Hqueue.
  - (* idle *)
    pose proof (queue_inv_scan Main.remaining_time
                  (fun p => Main.arrival_time p <=? Main.rr_t st + 1) _ _ _ _ _ Hinv)
      as H1.
    split; [split; [exact H1|]|right].
    + simpl. intros _ i p Hp Hi.
      pose proof (enqueue_arrivals_flags_false _ _ _ _ _ _
                    (qi_length _ _ _ _ _ _ Hinv) Hi Hp) as Htest.
      simpl in Htest. by apply Z.leb_gt in Htest.
    + unfold logic_rr_work, logic_rr_wait. simpl. split; [lia|].
      destruct (queue_inv_idle _ _ _ _ Hinv Hcond) as (i & p & Hi & Hp).
      specialize (Hlate eq_refl i p Hp Hi).
      apply Z2Nat.inj_lt.
      * apply sum_map_nonneg. lia.
      * apply sum_map_nonneg. lia.
      * apply (sum_map_lt _ _ _ p).
        -- apply Forall_forall. intros; lia.
        -- by eapply list_elem_of_lookup_2.
        -- lia.
  - (* a slice *)
    pose proof (queue_inv_pop _ _ _ _ _ _ Hinv) as H1.
    destruct (queue_inv_held_lookup _ _ _ _ _ _ H1) as [cur Hcur].
    rewrite Hcur.
    set (run := Z.min (Main.remaining_time cur) quantum).
    set (cur' := Main.set_remaining_time (Main.remaining_time cur - run) cur).
    apply (queue_inv_update _ _ _ cur') in H1.
    pose proof (queue_inv_scan Main.remaining_time
                  (fun p => Main.arrival_time p <=? Main.rr_t st + run) _ _ _ _ _ H1)
      as H2.
    assert (∀ i p x,
              <[c := x]> (<[c := cur']> (Main.rr_procs st)) !! i = Some p →
              (enqueue_arrivals (fun p => Main.arrival_time p <=? Main.rr_t st + run)
                 (<[c := cur']> (Main.rr_procs st)) rest (Main.visited st)).2 !! i
              = Some false →
              Main.rr_t st + run < Main.arrival_time p) as Hlate'.
    { intros i p x Hp Hi.
      assert (Main.visited st !! c = Some true) as Hc
        by (apply (qi_flagged _ _ _ _ _ _ Hinv); rewrite app_nil_r; by left).
      assert (i ≠ c) as Hne.
      { intros ->.
        rewrite (enqueue_arrivals_flag_mono _ _ _ _ _ Hc) in Hi. done. }
      rewrite list_lookup_insert_ne in Hp by done.
      pose proof (enqueue_arrivals_flags_false _ _ _ _ _ _
                    (qi_length _ _ _ _ _ _ H1) Hi Hp) as Htest.
      simpl in Htest. by apply Z.leb_gt in Htest. }
    pose proof (sum_map_nonneg (fun p => slices quantum (Main.remaining_time p))
                  (Main.rr_procs st)
                  (fun p => slices_nonneg quantum (Main.remaining_time p))) as Hnn.
    pose proof (sum_map_nonneg (fun p => slices quantum (Main.remaining_time p))
                  (<[c := cur']> (Main.rr_procs st))
                  (fun p => slices_nonneg quantum (Main.remaining_time p))) as Hnn'.
    pose proof (sum_map_insert (fun p => slices quantum (Main.remaining_time p))
                  (Main.rr_procs st) c cur cur' Hcur) as Hsum.
    cbv beta in Hsum.
    destruct (0 <? Main.remaining_time cur') eqn:Hrem.
    + apply Z.ltb_lt in Hrem. split; [split|left].
      * by apply queue_inv_requeue.
      * simpl. intros _ i p Hp Hi. apply (Hlate' i p cur'); [|done].
        by rewrite list_insert_insert_eq.
      * unfold logic_rr_work. simpl. rewrite length_insert.
        assert (quantum < Main.remaining_time cur) as Hlong
          by (subst cur' run; simpl in *; lia).
        apply (slices_sub quantum quantum_pos) in Hlong.
        replace (Main.remaining_time cur - quantum) with (Main.remaining_time cur')
          in Hlong by (subst cur' run; simpl in *; lia).
        lia.
    + apply Z.ltb_ge in Hrem.
      assert (Main.remaining_time cur' = 0) as Hzero
        by (subst cur' run; simpl in *; lia).
      split; [split|left].
      * eapply queue_inv_finish.
        -- apply queue_inv_update, H2.
        -- apply list_lookup_insert_eq. rewrite length_insert.
           by eapply lookup_lt_Some.
        -- done.
      * simpl. intros _ i p Hp Hi. by apply (Hlate' i p _ Hp).
      * unfold logic_rr_work. simpl.
        rewrite list_insert_insert_eq, length_insert.
        rewrite (sum_map_insert _ _ _ _ _ Hcur).
        change (Main.remaining_time (Main.finish (Main.rr_t st + run) cur'))
          with (Main.remaining_time cur').
        rewrite Hzero, (slices_zero quantum quantum_pos).
        pose proof (slices_nonneg quantum (Main.remaining_time cur)). lia.
Qed.

(** [logic_rr] returns on every non-empty list when the quantum is
    positive, and raises on the empty one. *)
Lemma logic_rr_returns (procs : list Main.Process) :
  procs ≠ [] →
  ∃ fuel res gantt,
    Main.logic_rr fuel procs quantum = Some (Some (res, gantt)).
Proof.
  intros Hne. unfold Main.logic_rr.
  destruct (sort_by Main.arrival_time procs) as [|p0 sorted] eqn:Hsort.
  { apply (f_equal length) in Hsort. rewrite sort_by_length in Hsort.
    by destruct procs. }
  destruct (while_terminates Main.rr_cond (Main.rr_body quantum) logic_rr_inv
              logic_rr_work logic_rr_wait logic_rr_body_step
              {| Main.rr_procs := p0 :: sorted; Main.queue := [0%nat]; Main.rr_t := 0;
                 Main.rr_count := 0; Main.rr_res := [];
                 Main.visited := <[0%nat := true]> (replicate (length (p0 :: sorted)) false);
                 Main.gantt_log := [] |})
    as (fuel & st & Hrun & _).
  { split; [|done]. simpl. split; simpl.
    - by rewrite length_replicate.
    - apply NoDup_singleton.
    - by intros i ->%list_elem_of_singleton.
    - f_equal. change (unset (true :: replicate (length sorted) false))
        with (unset (replicate (length sorted) false)).
      apply unset_replicate.
    - intros [|i] p _ Hi Hnot; [set_solver|].
      simpl in Hi. apply lookup_replicate in Hi as [? _]. done. }
  exists fuel. rewrite Hrun. simpl. by eexists _, _.
Qed.

Lemma logic_rr_empty fuel : Main.logic_rr fuel [] quantum = Some None.
Proof. done. Qed.
End LogicRr.

(** ** Work done against bursts *)

(** The only durations a chart of [(pid, start)] entries gives: each entry
    lasts until the next one, the last until the final clock. *)
Fixpoint switch_durations (chart : list (value * Z)) (final : Z) : list Z :=
  match chart with
  | [] => []
  | (_, start) :: rest =>
      match rest with
      | [] => final - start
      | (_, next) :: _ => next - start
      end :: switch_durations rest final
  end.




(** * Further properties of the schedulers *)

(** ** Loops that never end *)

Section WhileForever.
Context {St : Type} (cond : St → bool) (body : St → St).

(** A loop whose condition holds on every state it reaches returns for no
    amount of fuel. *)
Lemma while_never_returns (I : St → Prop) :
  (∀ s, I s → cond s = true ∧ I (body s)) →
  ∀ fuel s, I s → while cond body fuel s = None.
Proof.
  intros Hstep fuel. induction fuel as [|fuel IH]; intros s Hs; simpl; [done|].
  destruct (Hstep s Hs) as [-> Hs']. by apply IH.
Qed.
End WhileForever.

(** No process finished yet, and every process with time left to run. *)
Definition rr_stuck (st : Rr.state) : Prop :=
  Rr.completed st = 0%nat ∧ Rr.processes st ≠ []
  ∧ Forall (fun p => 0 < Rr.remaining p) (Rr.processes st).

Lemma insert_nonempty {A : Type} (l : list A) i x : l ≠ [] → <[i := x]> l ≠ [].
Proof.
  intros Hne Heq. apply (f_equal length) in Heq. rewrite length_insert in Heq.
  by destruct l.
Qed.

Lemma rr_body_stuck quantum st :
  quantum ≤ 0 → rr_stuck st → Rr.cond st = true ∧ rr_stuck (Rr.body quantum st).
Proof.
  intros Hq (Hc & Hne & Hpos). split.
  { unfold Rr.cond. rewrite Hc. apply Nat.ltb_lt.
    destruct (Rr.processes st); [done|simpl; lia]. }
  unfold Rr.body.
  destruct (enqueue_arrivals _ (Rr.processes st) (Rr.queue st) (Rr.arrived st)).1
    as [|current queue]; [done|].
  destruct (Rr.processes st !! current) as [cur|] eqn:Hcur; [|done].
  pose proof (Forall_lookup_1 _ _ _ _ Hpos Hcur) as Hrem. simpl in Hrem.
  cbn zeta.
  replace (0 <? Rr.remaining (Rr.set_remaining
             (Rr.remaining cur - Z.min (Rr.remaining cur) quantum) cur)) with true
    by (symmetry; apply Z.ltb_lt; simpl; lia).
  split; [done|]. simpl. split; [by apply insert_nonempty|].
  apply Forall_insert; [done|]. simpl. lia.
Qed.

(** X5. [round_robin] needs a positive quantum: with a quantum of 0 or
    less a slice never lowers [remaining], no process ever finishes, and
    on a non-empty list of processes with time left to run the loop
    returns for no amount of fuel. *)
Theorem round_robin_nonpositive_quantum_never_returns
    (processes : list Rr.Process) (time_quantum : Z) (fuel : nat) :
  time_quantum ≤ 0 → processes ≠ [] →
  Forall (fun p => 0 < Rr.remaining p) processes →
  Rr.round_robin fuel processes time_quantum = None.
Proof.
  intros Hq Hne Hpos. unfold Rr.round_robin.
  rewrite (while_never_returns Rr.cond (Rr.body time_quantum) rr_stuck); [done| |].
  - intros s. by apply rr_body_stuck.
  - split; [done|]. simpl. split.
    + intros Heq. apply (f_equal length) in Heq. rewrite sort_by_length in Heq.
      by destruct processes.
    + by rewrite sort_by_Permutation.
Qed.

Lemma round_robin_nonpositive_quantum_never_returns_witness :
  Rr.round_robin 100 Rr.processes_example 0 = None.
Proof.
  apply round_robin_nonpositive_quantum_never_returns; [lia|done|].
  repeat (constructor; [simpl; lia|]). constructor.
Defined.

Definition logic_rr_stuck (st : Main.rr_state) : Prop :=
  Main.rr_count st = 0%nat ∧ Main.rr_procs st ≠ []
  ∧ Forall (fun p => 0 < Main.remaining_time p) (Main.rr_procs st).

Lemma logic_rr_body_stuck q st :
  q ≤ 0 → logic_rr_stuck st →
  Main.rr_cond st = true ∧ logic_rr_stuck (Main.rr_body q st).
Proof.
  intros Hq (Hc & Hne & Hpos). split.
  { unfold Main.rr_cond. rewrite Hc. apply Nat.ltb_lt.
    destruct (Main.rr_procs st); [done|simpl; lia]. }
  unfold Main.rr_body.
  destruct (Main.queue st) as [|c queue]; [done|].
  destruct (Main.rr_procs st !! c) as [curr|] eqn:Hcurr; [|done].
  pose proof (Forall_lookup_1 _ _ _ _ Hpos Hcurr) as Hrem. simpl in Hrem.
  cbn zeta.
  replace (0 <? Main.remaining_time (Main.set_remaining_time
             (Main.remaining_time curr - Z.min (Main.remaining_time curr) q) curr))
    with true by (symmetry; apply Z.ltb_lt; simpl; lia).
  split; [done|]. simpl. split; [by apply insert_nonempty|].
  apply Forall_insert; [done|]. simpl. lia.
Qed.

(** X6. [logic_rr] takes the quantum the user typed as it is: with a
    quantum of 0 or less and processes that all have time left to run, no
    process ever finishes and the loop returns for no amount of fuel. *)
Theorem logic_rr_nonpositive_quantum_never_returns
    (procs : list Main.Process) (q : Z) (fuel : nat) :
  q ≤ 0 → procs ≠ [] →
  Forall (fun p => 0 < Main.remaining_time p) procs →
  Main.logic_rr fuel procs q = None.
Proof.
  intros Hq Hne Hpos. unfold Main.logic_rr.
  destruct (sort_by Main.arrival_time procs) as [|p0 sorted] eqn:Hsort.
  { apply (f_equal length) in Hsort. rewrite sort_by_length in Hsort.
    by destruct procs. }
  rewrite (while_never_returns Main.rr_cond (Main.rr_body q) logic_rr_stuck); [done| |].
  - intros s. by apply logic_rr_body_stuck.
  - split; [done|]. simpl. split; [done|].
    by rewrite <- Hsort, sort_by_Permutation.
Qed.

Lemma logic_rr_nonpositive_quantum_never_returns_witness :
  Main.logic_rr 100 [Main.new_Process (VStr "P1") 0 5 1] 0 = None.
Proof.
  apply logic_rr_nonpositive_quantum_never_returns; [lia|done|].
  repeat (constructor; [simpl; lia|]). constructor.
Defined.

Lemma sum_map_one {A : Type} (l : list A) : sum (map (fun _ => 1) l) = Z.of_nat (length l).
Proof. induction l as [|x l IH]; simpl; [done|]. rewrite sum_cons. lia. Qed.

(** A count of pending processes falls short of the length as soon as one
    process is not pending. *)
Lemma sum_pending_lt {A : Type} (pending : A → Z) (l : list A) :
  (∀ x, pending x = 0 ∨ pending x = 1) →
  Exists (fun x => pending x = 0) l →
  sum (map pending l) < Z.of_nat (length l).
Proof.
  intros Hp (x & Hx & Hz)%Exists_exists. rewrite <- sum_map_one.
  apply sum_map_lt with x; [|done|lia].
  apply Forall_forall. intros y _. destruct (Hp y); lia.
Qed.

Lemma sum_pending_eq {A : Type} (pending : A → Z) (l : list A) :
  Forall (fun x => pending x = 1) l → sum (map pending l) = Z.of_nat (length l).
Proof.
  induction 1 as [|x l Hx Hl IH]; simpl; [done|]. rewrite sum_cons. lia.
Qed.

(** More processes than the count and the pending ones together: the count
    can never reach the length. *)
Definition sjf_short (st : Sjf.state) : Prop :=
  Z.of_nat (Sjf.completed st) + sum (map sjf_pending (Sjf.processes st))
  < Z.of_nat (length (Sjf.processes st)).

Lemma sjf_body_short st :
  sjf_short st → Sjf.cond st = true ∧ sjf_short (Sjf.body st).
Proof.
  unfold sjf_short. intros Hshort. split.
  { unfold Sjf.cond. apply Nat.ltb_lt.
    pose proof (sjf_pending_nonneg (Sjf.processes st)). lia. }
  unfold Sjf.body.
  destruct (min_by _ _) as [[i current]|] eqn:Hmin; [|done].
  apply min_by_elem_of, elem_of_sjf_ready in Hmin as (Hi & _ & Hnone).
  cbn zeta. cbn [Sjf.processes Sjf.completed].
  rewrite length_insert, (sum_map_insert _ _ _ _ _ Hi).
  unfold sjf_pending at 2 3. rewrite decide_True by done.
  rewrite decide_False by done. lia.
Qed.

Definition sjfp_short (st : Sjf.pstate) : Prop :=
  Z.of_nat (Sjf.p_completed st) + sum (map sjfp_pending (Sjf.p_processes st))
  < Z.of_nat (length (Sjf.p_processes st)).

Lemma sjfp_body_short st :
  sjfp_short st → Sjf.pcond st = true ∧ sjfp_short (Sjf.pbody st).
Proof.
  unfold sjfp_short. intros Hshort. split.
  { unfold Sjf.pcond. apply Nat.ltb_lt.
    pose proof (sjfp_pending_nonneg (Sjf.p_processes st)). lia. }
  unfold Sjf.pbody.
  destruct (min_by _ _) as [[i shortest]|] eqn:Hmin; [|done].
  apply min_by_elem_of, elem_of_sjfp_ready in Hmin as (Hi & _ & Hrem).
  cbn zeta.
  destruct (Z.eqb_spec (Sjf.remaining (Sjf.set_remaining (Sjf.remaining shortest - 1)
                                         shortest)) 0) as [Hz|Hnz];
    cbn [Sjf.p_processes Sjf.p_completed];
    rewrite length_insert, (sum_map_insert _ _ _ _ _ Hi);
    unfold sjfp_pending at 2 3; simpl in *.
  - rewrite (proj2 (Z.ltb_lt 0 (Sjf.remaining shortest))) by done.
    rewrite (proj2 (Z.ltb_ge 0 (Sjf.remaining shortest - 1))) by lia. lia.
  - rewrite (proj2 (Z.ltb_lt 0 (Sjf.remaining shortest))) by done.
    rewrite (proj2 (Z.ltb_lt 0 (Sjf.remaining shortest - 1))) by lia. lia.
Qed.

(** X7. [sjf_non_preemptive] returns exactly on lists whose processes all
    have [completion] still [None]: a process that already carries a
    completion time is never ready and never counted, so the loop that
    waits for [completed] to reach [n] does not end.  Objects a scheduler
    has run cannot be scheduled again. *)
Theorem sjf_non_preemptive_returns_iff_none_completed (processes : list Sjf.Process) :
  (∃ fuel, is_Some (Sjf.sjf_non_preemptive fuel processes))
  ↔ Forall (fun p => Sjf.completion p = None) processes.
Proof.
  split.
  - intros [fuel Hsome].
    destruct (decide (Forall (fun p => Sjf.completion p = None) processes))
      as [|Hex]; [done|].
    apply not_Forall_Exists in Hex; [|apply _].
    unfold Sjf.sjf_non_preemptive in Hsome.
    rewrite (while_never_returns Sjf.cond Sjf.body sjf_short) in Hsome.
    + by destruct Hsome.
    + apply sjf_body_short.
    + unfold sjf_short. simpl. apply sum_pending_lt.
      * intros p. unfold sjf_pending. case_decide; auto.
      * eapply Exists_impl; [exact Hex|]. intros p Hp. simpl in Hp.
        unfold sjf_pending. by rewrite decide_False.
  - intros Hnone.
    destruct (sjf_non_preemptive_returns processes Hnone) as (fuel & g & f & Hrun & _).
    exists fuel. by rewrite Hrun.
Qed.

(** X8. [sjf_preemptive] on processes as [Process.__init__] builds them
    ([remaining] equal to [burst]) returns exactly when every burst is
    positive: a process with a burst of 0 or less is never ready, never
    reaches the test [remaining == 0] and is never counted. *)
Theorem sjf_preemptive_returns_iff_bursts_positive (processes : list Sjf.Process) :
  Forall (fun p => Sjf.remaining p = Sjf.burst p) processes →
  (∃ fuel, is_Some (Sjf.sjf_preemptive fuel processes))
  ↔ Forall (fun p => 0 < Sjf.burst p) processes.
Proof.
  intros Hfresh. split.
  - intros [fuel Hsome].
    destruct (decide (Forall (fun p => 0 < Sjf.burst p) processes)) as [|Hex]; [done|].
    apply not_Forall_Exists in Hex; [|apply _].
    unfold Sjf.sjf_preemptive in Hsome.
    rewrite (while_never_returns Sjf.pcond Sjf.pbody sjfp_short) in Hsome.
    + by destruct Hsome.
    + apply sjfp_body_short.
    + unfold sjfp_short. simpl. apply sum_pending_lt.
      * intros p. unfold sjfp_pending. destruct (0 <? _); auto.
      * apply Exists_exists in Hex as (p & Hp & Hb). apply Exists_exists.
        exists p. split; [done|].
        pose proof (proj1 (Forall_forall _ _) Hfresh p Hp) as Hr. simpl in *.
        unfold sjfp_pending. rewrite (proj2 (Z.ltb_ge 0 (Sjf.remaining p))); lia.
  - intros Hpos.
    destruct (sjf_preemptive_returns processes) as (fuel & g & f & Hrun & _).
    { apply Forall_forall. intros p Hp.
      pose proof (proj1 (Forall_forall _ _) Hfresh p Hp).
      pose proof (proj1 (Forall_forall _ _) Hpos p Hp). done. }
    exists fuel. by rewrite Hrun.
Qed.

Lemma sjf_preemptive_returns_iff_bursts_positive_witness :
  (∃ fuel, is_Some (Sjf.sjf_preemptive fuel Sjf.processes_data))
  ↔ Forall (fun p => 0 < Sjf.burst p) Sjf.processes_data.
Proof.
  apply sjf_preemptive_returns_iff_bursts_positive.
  repeat (constructor; [reflexivity|]). constructor.
Defined.

(** ** fcfs_scheduling.py: missing keys *)

(** The three subscripts [fcfs_scheduling] takes of a process dictionary
    succeed, and the two times are numbers. *)
Definition fcfs_keys_ok (p : dict) : Prop :=
  is_Some (p !! "pid") ∧ is_Some (get_int p "arrival_time")
  ∧ is_Some (get_int p "burst_time").

(** What the loop leaves in a dictionary it has passed. *)
Definition fcfs_passed (d : dict) : Prop :=
  is_Some (get_int d "arrival_time") ∧ is_Some (get_int d "burst_time")
  ∧ is_Some (get_int d "waiting_time") ∧ is_Some (get_int d "turnaround_time").

Lemma fcfs_body_is_Some st p : is_Some (Fcfs.fcfs_body st p) ↔ fcfs_keys_ok p.
Proof.
  destruct st as [[t g] seen]. unfold Fcfs.fcfs_body, fcfs_keys_ok.
  destruct (p !! "pid") as [pid|]; simpl.
  2:{ split; [by intros []|]. by intros [[] _]. }
  destruct (get_int p "arrival_time") as [a|]; simpl.
  2:{ split; [by intros []|]. by intros (_ & [] & _). }
  destruct (get_int p "burst_time") as [b|]; simpl.
  2:{ split; [by intros []|]. by intros (_ & _ & []). }
  split; eauto.
Qed.

Lemma fcfs_body_passed st p st' :
  Fcfs.fcfs_body st p = Some st' → ∃ d, st'.2 = st.2 ++ [d] ∧ fcfs_passed d.
Proof.
  destruct st as [[t g] seen]. unfold Fcfs.fcfs_body.
  destruct (p !! "pid") as [pid|]; simpl; [|done].
  destruct (get_int p "arrival_time") as [a|] eqn:Ha; simpl; [|done].
  destruct (get_int p "burst_time") as [b|] eqn:Hb; simpl; [|done].
  intros [= <-]. eexists. split; [done|].
  unfold fcfs_passed, get_int in *.
  rewrite !lookup_insert_eq.
  repeat (rewrite lookup_insert_ne by done). rewrite ?lookup_insert_eq.
  repeat (rewrite lookup_insert_ne by done).
  destruct (p !! "arrival_time") as [[]|]; [|done..].
  destruct (p !! "burst_time") as [[]|]; [|done..].
  eauto.
Qed.

Lemma for_each_fcfs_is_Some l st :
  is_Some (for_each Fcfs.fcfs_body l st) ↔ Forall fcfs_keys_ok l.
Proof.
  revert st. induction l as [|p l IH]; intros st; simpl.
  { split; [constructor|eauto]. }
  rewrite Forall_cons, <- (fcfs_body_is_Some st p).
  destruct (Fcfs.fcfs_body st p) as [st'|]; simpl.
  - rewrite IH. split; [eauto|tauto].
  - split; [by intros []|]. by intros [[] _].
Qed.

Lemma for_each_fcfs_passed l st st' :
  for_each Fcfs.fcfs_body l st = Some st' →
  ∃ out, st'.2 = st.2 ++ out ∧ length out = length l ∧ Forall fcfs_passed out.
Proof.
  revert st. induction l as [|p l IH]; intros st; simpl.
  { intros [= <-]. exists []. by rewrite app_nil_r. }
  destruct (Fcfs.fcfs_body st p) as [st1|] eqn:Hbody; simpl; [|done].
  intros Hrest. apply fcfs_body_passed in Hbody as (d & Hd & Hok).
  apply IH in Hrest as (out & Hout & Hlen & Hall).
  exists (d :: out). rewrite Hout, Hd, <- app_assoc. simpl.
  split; [done|]. split; [by rewrite Hlen|]. by constructor.
Qed.

Lemma mapM_get_int_is_Some (k : string) (l : list dict) :
  Forall (fun d => is_Some (get_int d k)) l → is_Some (mapM (fun d => get_int d k) l).
Proof. intros H. apply mapM_is_Some. by apply Forall_impl with (1 := H). Qed.


(** ** fcfs_scheduling.py: the shape of the chart *)

Definition seg_pid (g : segment) : value := g.1.1.
Definition seg_start (g : segment) : Z := g.1.2.
Definition seg_end (g : segment) : Z := g.2.

(** No segment begins before an earlier one has ended. *)
Definition in_time_order (chart : list segment) : Prop :=
  StronglySorted (fun g g' => seg_end g ≤ seg_start g') chart.

Lemma fcfs_schedule_from t l :
  Forall (fun j => 0 ≤ job_burst j) l →
  Forall (fun sj => t ≤ sj.1) (fcfs_schedule t l).
Proof.
  intros Hl. revert t. induction Hl as [|j l Hj Hl IH]; intros t; simpl; constructor.
  - simpl. lia.
  - eapply Forall_impl; [apply IH|]. intros sj. simpl. lia.
Qed.

Lemma fcfs_chart_in_time_order t l :
  Forall (fun j => 0 ≤ job_burst j) l →
  in_time_order (map fcfs_segment (fcfs_schedule t l)).
Proof.
  intros Hl. revert t. induction Hl as [|j l Hj Hl IH]; intros t; simpl; constructor.
  - apply IH.
  - rewrite map_fmap. apply Forall_fmap.
    eapply Forall_impl; [by apply fcfs_schedule_from|]. by intros sj.
Qed.

Lemma fcfs_chart_segments t l :
  0 ≤ t → Forall (fun j => 0 ≤ job_burst j) l →
  Forall2 (fun g j => seg_pid g = job_pid j
                      ∧ 0 ≤ seg_start g ∧ job_arrival j ≤ seg_start g
                      ∧ seg_end g = seg_start g + job_burst j)
          (map fcfs_segment (fcfs_schedule t l)) l.
Proof.
  intros Ht Hl. revert t Ht.
  induction Hl as [|j l Hj Hl IH]; intros t Ht; simpl; constructor.
  - unfold seg_pid, seg_start, seg_end. simpl. split; [done|lia].
  - apply IH. lia.
Qed.

Definition example_jobs : list job :=
  [ (VStr "P1", 0, 8); (VStr "P2", 1, 4); (VStr "P3", 2, 2) ].



(** ** CPU utilization is a percentage *)

Lemma sum_map_nonneg_Forall {A : Type} (f : A → Z) (l : list A) :
  Forall (fun x => 0 ≤ f x) l → 0 ≤ sum (map f l).
Proof. induction 1; simpl; rewrite ?sum_cons, ?sum_nil; lia. Qed.

Lemma fcfs_end_ge_sum t l :
  Forall (fun j => 0 ≤ job_burst j) l → t + sum (map job_burst l) ≤ fcfs_end t l.
Proof.
  intros Hl. revert t. induction Hl as [|j l Hj Hl IH]; intros t; simpl.
  - rewrite sum_nil. lia.
  - rewrite sum_cons. specialize (IH (Z.max t (job_arrival j) + job_burst j)). lia.
Qed.

(** Busy time over a span that holds it, as a percentage. *)
Lemma percentage_bounds (busy span : Z) :
  0 ≤ busy → busy ≤ span → 0 < span →
  (0 <= true_div busy span * 100 <= 100)%Q.
Proof.
  intros Hb Hs Hpos. unfold true_div.
  destruct span as [|p|p]; try lia.
  unfold Qle, Qdiv, Qmult, Qinv, inject_Z. simpl. split; nia.
Qed.



(** ** rr.py: metrics and the shape of the chart *)

Lemma in_time_order_snoc chart g :
  in_time_order chart → Forall (fun g0 => seg_end g0 ≤ seg_start g) chart →
  in_time_order (chart ++ [g]).
Proof.
  intros Hs Hall. apply StronglySorted_app. split; [|split; [done|]].
  - intros g1 g2 Hg1 ->%list_elem_of_singleton.
    by apply (proj1 (Forall_forall _ _) Hall).
  - repeat constructor.
Qed.

(** The chart against the clock: every segment lies between time 0 and
    the clock, none has a negative length, and the segments follow one
    another. *)
Definition chart_behind (t : Z) (chart : list segment) : Prop :=
  0 ≤ t
  ∧ Forall (fun g => 0 ≤ seg_start g ∧ seg_start g ≤ seg_end g ∧ seg_end g ≤ t) chart
  ∧ in_time_order chart.

Lemma chart_behind_nil : chart_behind 0 [].
Proof. split; [done|]. split; constructor. Qed.

Lemma chart_behind_later t t' chart :
  chart_behind t chart → t ≤ t' → chart_behind t' chart.
Proof.
  intros (Ht & Hall & Hs) Hle. split; [lia|]. split; [|done].
  eapply Forall_impl; [exact Hall|]. intros g. simpl. lia.
Qed.

Lemma chart_behind_snoc t chart pid run :
  chart_behind t chart → 0 ≤ run →
  chart_behind (t + run) (chart ++ [(pid, t, t + run)]).
Proof.
  intros (Ht & Hall & Hs) Hrun. split; [lia|]. split.
  - apply Forall_app. split.
    + eapply Forall_impl; [exact Hall|]. intros g. simpl. lia.
    + constructor; [|done]. unfold seg_start, seg_end. simpl. lia.
  - apply in_time_order_snoc; [done|].
    eapply Forall_impl; [exact Hall|]. intros g. unfold seg_start at 3. simpl. lia.
Qed.

Definition rr_chart_inv (q : Z) (st : Rr.state) : Prop :=
  Forall (fun p => 0 ≤ Rr.remaining p) (Rr.processes st)
  ∧ chart_behind (Rr.time st) (Rr.gantt st)
  ∧ Forall (fun g => duration g ≤ q) (Rr.gantt st).

Lemma rr_body_chart q st : 0 < q → rr_chart_inv q st → rr_chart_inv q (Rr.body q st).
Proof.
  intros Hq (Hrem & Hchart & Hshort). unfold Rr.body.
  destruct (enqueue_arrivals _ (Rr.processes st) (Rr.queue st) (Rr.arrived st)).1
    as [|current queue].
  { split; simpl; [done|]. split; [|done]. apply (chart_behind_later _ _ _ Hchart). lia. }
  destruct (Rr.processes st !! current) as [cur|] eqn:Hcur; [|done].
  pose proof (Forall_lookup_1 _ _ _ _ Hrem Hcur) as Hcur0. simpl in Hcur0.
  cbn zeta.
  assert (Forall (fun g => duration g ≤ q)
            (Rr.gantt st ++ [(Rr.pid cur, Rr.time st,
                              Rr.time st + Z.min (Rr.remaining cur) q)])) as Hshort'.
  { apply Forall_app. split; [done|]. constructor; [|done].
    unfold duration. simpl. lia. }
  destruct (0 <? _); split; simpl.
  - apply Forall_insert; [done|]. simpl. lia.
  - split; [|done]. apply chart_behind_snoc; [done|lia].
  - apply Forall_insert; [|simpl; lia]. apply Forall_insert; [done|]. simpl. lia.
  - split; [|done]. apply chart_behind_snoc; [done|lia].
Qed.

(** X4. [round_robin] with a positive quantum on processes as
    [Process.__init__] builds them, with positive bursts: it returns, the
    caller's list holds the same processes sorted by arrival, and every
    one of them has [turnaround = completion - arrival],
    [waiting = turnaround - burst], a waiting time of 0 or more and a
    turnaround of its burst or more. *)
Theorem round_robin_metrics_are_valid (processes : list Rr.Process) (time_quantum : Z) :
  0 < time_quantum →
  Forall (fun p => 0 < Rr.burst p ∧ Rr.remaining p = Rr.burst p) processes →
  ∃ fuel gantt final,
    Rr.round_robin fuel processes time_quantum = Some (gantt, final)
    ∧ map rr_static final = map rr_static (sort_by Rr.arrival processes)
    ∧ Forall rr_metrics_ok final.
Proof.
  intros Hq Hvalid.
  destruct (round_robin_valid time_quantum Hq processes Hvalid)
    as (fuel & gantt & final & Hrun & Hstatic & Hok & _).
  by exists fuel, gantt, final.
Qed.

Lemma round_robin_metrics_are_valid_witness :
  ∃ fuel gantt final,
    Rr.round_robin fuel Rr.processes_example 3 = Some (gantt, final)
    ∧ map rr_static final = map rr_static (sort_by Rr.arrival Rr.processes_example)
    ∧ Forall rr_metrics_ok final.
Proof.
  apply round_robin_metrics_are_valid; [lia|].
  repeat (constructor; [simpl; lia|]). constructor.
Defined.

(** X9. The chart of [round_robin], for a positive quantum and processes
    with no negative [remaining]: no slice begins before time 0, none is
    longer than the quantum or has a negative length, and a slice begins
    only after every earlier slice has ended. *)
Theorem round_robin_chart_slices (processes : list Rr.Process) (time_quantum : Z) :
  0 < time_quantum →
  Forall (fun p => 0 ≤ Rr.remaining p) processes →
  ∃ fuel gantt final,
    Rr.round_robin fuel processes time_quantum = Some (gantt, final)
    ∧ Forall (fun g => 0 ≤ seg_start g ∧ 0 ≤ duration g ∧ duration g ≤ time_quantum)
             gantt
    ∧ in_time_order gantt.
Proof.
  intros Hq Hrem.
  destruct (rr_loop_terminates time_quantum Hq (Rr.init processes)
              (rr_inv_init processes)) as (fuel & st & Hrun & _).
  exists fuel, (Rr.gantt st), (Rr.processes st).
  unfold Rr.round_robin. rewrite Hrun. simpl. split; [done|].
  apply (while_invariant _ _ (rr_chart_inv time_quantum)) in Hrun
    as [(_ & (_ & Hall & Hs) & Hshort) _].
  - split; [|done]. apply Forall_forall. intros g Hg.
    pose proof (proj1 (Forall_forall _ _) Hall g Hg) as (? & ? & _).
    pose proof (proj1 (Forall_forall _ _) Hshort g Hg) as Hd. simpl in Hd.
    unfold duration, seg_start, seg_end in *. lia.
  - intros s Hs _. by apply rr_body_chart.
  - split; simpl; [by rewrite sort_by_Permutation|].
    split; [apply chart_behind_nil|constructor].
Qed.

Lemma round_robin_chart_slices_witness :
  ∃ fuel gantt final,
    Rr.round_robin fuel Rr.processes_example 3 = Some (gantt, final)
    ∧ Forall (fun g => 0 ≤ seg_start g ∧ 0 ≤ duration g ∧ duration g ≤ 3) gantt
    ∧ in_time_order gantt.
Proof.
  apply round_robin_chart_slices; [lia|].
  repeat (constructor; [simpl; lia|]). constructor.
Defined.



(** ** sjf.py: sjf_non_preemptive *)

(** Process [p] at position [i] is in the ready queue of
    [sjf_non_preemptive]: arrived and without a completion time. *)
Definition sjf_ready (st : Sjf.state) (i : nat) (p : Sjf.Process) : Prop :=
  Sjf.processes st !! i = Some p ∧ Sjf.arrival p ≤ Sjf.time st
  ∧ Sjf.completion p = None.

Lemma enumerate_from_filter_increasing {A : Type} (Q : nat * A → Prop)
    `{!∀ x, Decision (Q x)} (k : nat) (l : list A) :
  StronglySorted lt (filter Q (enumerate_from k l)).*1.
Proof.
  revert k. induction l as [|x l IH]; intros k; simpl; [constructor|].
  rewrite filter_cons. case_decide; [|apply IH].
  simpl. constructor; [apply IH|]. apply Forall_forall. intros j Hj.
  apply list_elem_of_fmap in Hj as ([j' y] & -> & Hj).
  apply list_elem_of_filter in Hj as [_ Hj].
  apply elem_of_enumerate_from in Hj. simpl. lia.
Qed.

(** The least key over positions in increasing order: no position with
    the same key comes before the chosen one. *)
Lemma min_by_first_position {A : Type} (key : A → Z) (l : list (nat * A)) idx x :
  StronglySorted lt l.*1 →
  min_by (fun ip => key ip.2) l = Some (idx, x) →
  (idx, x) ∈ l
  ∧ ∀ j y, (j, y) ∈ l → key x ≤ key y ∧ (key y = key x → (idx ≤ j)%nat).
Proof.
  intros Hsorted Hmin. split; [by eapply min_by_elem_of|].
  destruct (min_by_first_least _ _ _ Hmin) as (pre & post & -> & Hpre & Hpost).
  rewrite fmap_app, fmap_cons in Hsorted.
  apply StronglySorted_app in Hsorted as (_ & _ & Hs).
  apply StronglySorted_inv in Hs as [_ Hafter]. simpl in Hafter.
  intros j y Hj. apply elem_of_app in Hj as [Hj|Hj].
  - pose proof (proj1 (Forall_forall _ _) Hpre _ Hj) as Hlt. simpl in Hlt. lia.
  - apply elem_of_cons in Hj as [[= -> ->]|Hj]; [lia|].
    pose proof (proj1 (Forall_forall _ _) Hpost _ Hj) as Hle. simpl in Hle.
    split; [done|]. intros _.
    assert (j ∈ post.*1) as Hjp by (apply list_elem_of_fmap; by exists (j, y)).
    pose proof (proj1 (Forall_forall _ _) Hafter _ Hjp). simpl in *. lia.
Qed.

(** One pass of [sjf_non_preemptive]. *)
Lemma sjf_body_spec (st : Sjf.state) :
  (∀ i0 p0, sjf_ready st i0 p0 →
     ∃ idx p,
       sjf_ready st idx p
       ∧ (∀ j p', sjf_ready st j p' →
            Sjf.burst p ≤ Sjf.burst p'
            ∧ (Sjf.burst p' = Sjf.burst p → (idx ≤ j)%nat))
       ∧ Sjf.gantt (Sjf.body st)
         = Sjf.gantt st ++ [(Sjf.pid p, Sjf.time st, Sjf.time st + Sjf.burst p)]
       ∧ Sjf.processes (Sjf.body st)
         = <[idx := Sjf.finish (Sjf.time st + Sjf.burst p) p]> (Sjf.processes st)
       ∧ Sjf.time (Sjf.body st) = Sjf.time st + Sjf.burst p
       ∧ Sjf.completed (Sjf.body st) = S (Sjf.completed st))
  ∧ ((∀ i p, ¬ sjf_ready st i p) →
     Sjf.body st
     = {| Sjf.processes := Sjf.processes st; Sjf.time := Sjf.time st + 1;
          Sjf.completed := Sjf.completed st; Sjf.gantt := Sjf.gantt st |}).
Proof.
  split.
  - intros i0 p0 Hready. apply elem_of_sjf_ready in Hready.
    unfold Sjf.body.
    destruct (min_by _ _) as [[idx p]|] eqn:Hmin.
    2:{ apply min_by_None in Hmin. rewrite Hmin in Hready.
        by apply elem_of_nil in Hready. }
    apply (min_by_first_position Sjf.burst) in Hmin as [Hin Hleast];
      [|apply enumerate_from_filter_increasing].
    exists idx, p. split; [by apply elem_of_sjf_ready|].
    split; [|done].
    intros j p' Hj. apply Hleast. by apply elem_of_sjf_ready.
  - intros Hnone. unfold Sjf.body.
    destruct (min_by _ _) as [[idx p]|] eqn:Hmin; [|done].
    apply min_by_elem_of, elem_of_sjf_ready in Hmin. by destruct (Hnone idx p).
Qed.

(** X11. One pass of [sjf_non_preemptive].  With a process ready, the
    ready process of least burst runs to its end, the first in the list
    among those of least burst: its segment from the clock to the clock
    plus its burst is appended, it gets that end as completion time, and
    the clock moves there.  With no process ready the clock moves by one
    and nothing else changes. *)
Theorem sjf_non_preemptive_runs_shortest_ready (st : Sjf.state) :
  (∀ i0 p0, sjf_ready st i0 p0 →
     ∃ idx p,
       sjf_ready st idx p
       ∧ (∀ j p', sjf_ready st j p' →
            Sjf.burst p ≤ Sjf.burst p'
            ∧ (Sjf.burst p' = Sjf.burst p → (idx ≤ j)%nat))
       ∧ Sjf.gantt (Sjf.body st)
         = Sjf.gantt st ++ [(Sjf.pid p, Sjf.time st, Sjf.time st + Sjf.burst p)]
       ∧ Sjf.processes (Sjf.body st)
         = <[idx := Sjf.finish (Sjf.time st + Sjf.burst p) p]> (Sjf.processes st)
       ∧ Sjf.time (Sjf.body st) = Sjf.time st + Sjf.burst p
       ∧ Sjf.completed (Sjf.body st) = S (Sjf.completed st))
  ∧ ((∀ i p, ¬ sjf_ready st i p) →
     Sjf.body st
     = {| Sjf.processes := Sjf.processes st; Sjf.time := Sjf.time st + 1;
          Sjf.completed := Sjf.completed st; Sjf.gantt := Sjf.gantt st |}).
Proof. apply sjf_body_spec. Qed.

(** The second pass on the processes of the example section: P1 has run
    from 0 to 8, P2 and P3 are ready. *)
Definition sjf_example_state : Sjf.state :=
  {| Sjf.processes := [ Sjf.finish 8 (Sjf.new_Process (VInt 1) 0 8);
                        Sjf.new_Process (VInt 2) 1 4;
                        Sjf.new_Process (VInt 3) 2 2 ];
     Sjf.time := 8; Sjf.completed := 1; Sjf.gantt := [(VInt 1, 0, 8)] |}.

Lemma sjf_non_preemptive_runs_shortest_ready_witness :
  ∃ idx p,
    sjf_ready sjf_example_state idx p
    ∧ (∀ j p', sjf_ready sjf_example_state j p' →
         Sjf.burst p ≤ Sjf.burst p'
         ∧ (Sjf.burst p' = Sjf.burst p → (idx ≤ j)%nat))
    ∧ Sjf.gantt (Sjf.body sjf_example_state)
      = Sjf.gantt sjf_example_state
        ++ [(Sjf.pid p, Sjf.time sjf_example_state,
             Sjf.time sjf_example_state + Sjf.burst p)]
    ∧ Sjf.processes (Sjf.body sjf_example_state)
      = <[idx := Sjf.finish (Sjf.time sjf_example_state + Sjf.burst p) p]>
          (Sjf.processes sjf_example_state)
    ∧ Sjf.time (Sjf.body sjf_example_state)
      = Sjf.time sjf_example_state + Sjf.burst p
    ∧ Sjf.completed (Sjf.body sjf_example_state)
      = S (Sjf.completed sjf_example_state).
Proof.
  apply (proj1 (sjf_non_preemptive_runs_shortest_ready sjf_example_state)
           1%nat (Sjf.new_Process (VInt 2) 1 4)).
  repeat split; simpl; lia.
Defined.

(** The segment a finished process stands for: it ends at the completion
    time and lasts the burst. *)
Definition sjf_segment_of (p : Sjf.Process) : option segment :=
  c ← Sjf.completion p; Some (Sjf.pid p, c - Sjf.burst p, c).

Lemma omap_insert_fresh {A B : Type} (f : A → option B) (l : list A) i x y b :
  l !! i = Some x → f x = None → f y = Some b →
  omap f (<[i := y]> l) ≡ₚ omap f l ++ [b].
Proof.
  intros Hi Hx Hy.
  rewrite insert_take_drop by (by eapply lookup_lt_Some).
  rewrite <- (take_drop_middle l i x Hi) at 3.
  rewrite !omap_app. simpl. rewrite Hx, Hy.
  rewrite <- app_assoc. apply Permutation_app_head.
  by rewrite (Permutation_app_comm _ [b]).
Qed.

Record sjf_chart_inv (st : Sjf.state) : Prop := {
  sc_bursts : Forall (fun p => 0 ≤ Sjf.burst p) (Sjf.processes st);
  sc_chart : chart_behind (Sjf.time st) (Sjf.gantt st);
  sc_once : Sjf.gantt st ≡ₚ omap sjf_segment_of (Sjf.processes st)
}.

Lemma sjf_body_chart st : sjf_chart_inv st → sjf_chart_inv (Sjf.body st).
Proof.
  intros [Hb Hchart Honce]. unfold Sjf.body.
  destruct (min_by _ _) as [[i cur]|] eqn:Hmin.
  - apply min_by_elem_of, elem_of_sjf_ready in Hmin as (Hcur & _ & Hnone).
    pose proof (Forall_lookup_1 _ _ _ _ Hb Hcur) as Hcur0. simpl in Hcur0.
    split; simpl.
    + by apply Forall_insert.
    + by apply chart_behind_snoc.
    + rewrite Honce. symmetry.
      apply omap_insert_fresh with cur; [done| |].
      * unfold sjf_segment_of. by rewrite Hnone.
      * unfold sjf_segment_of. simpl. do 3 f_equal. lia.
  - split; simpl; [done| |done]. apply (chart_behind_later _ _ _ Hchart). lia.
Qed.

(** X12. [sjf_non_preemptive] on processes whose [completion] is [None]
    and whose bursts are not negative runs every process exactly once: the
    chart is, in some order, one segment per process, ending at the
    completion time the process is left with and lasting its burst; no
    segment begins before time 0 or before an earlier one has ended; and
    every process is left with
    [turnaround = completion - arrival], [waiting = turnaround - burst],
    a waiting time of 0 or more.  The list itself keeps its order. *)
Theorem sjf_non_preemptive_runs_each_process_once (processes : list Sjf.Process) :
  Forall (fun p => Sjf.completion p = None ∧ 0 ≤ Sjf.burst p) processes →
  ∃ fuel gantt final,
    Sjf.sjf_non_preemptive fuel processes = Some (gantt, final)
    ∧ map sjf_static final = map sjf_static processes
    ∧ Forall sjf_metrics_ok final
    ∧ gantt ≡ₚ omap sjf_segment_of final
    ∧ length gantt = length processes
    ∧ Forall (fun g => 0 ≤ seg_start g) gantt
    ∧ in_time_order gantt.
Proof.
  intros Hvalid.
  destruct (sjf_non_preemptive_returns processes)
    as (fuel & gantt & final & Hrun & Hlen & Hok & _ & Hstatic).
  { eapply Forall_impl; [exact Hvalid|]. by intros p [? _]. }
  exists fuel, gantt, final. split; [done|]. split; [done|]. split; [done|].
  unfold Sjf.sjf_non_preemptive in Hrun.
  destruct (while _ _ _ _) as [st|] eqn:Hloop; [|done]. injection Hrun as <- <-.
  apply (while_invariant _ _ sjf_chart_inv) in Hloop as [[_ Hchart Honce] _].
  - split; [done|]. split.
    + rewrite Honce, <- Hlen. clear -Hok.
      induction Hok as [|p ps (c & Hc & _) _ IH]; simpl; [done|].
      unfold sjf_segment_of at 1. rewrite Hc. simpl. f_equal. exact IH.
    + destruct Hchart as (_ & Hall & Hs). split; [|done].
      eapply Forall_impl; [exact Hall|]. by intros g [? _].
  - intros s Hs _. by apply sjf_body_chart.
  - split; simpl.
    + eapply Forall_impl; [exact Hvalid|]. by intros p [_ ?].
    + apply chart_behind_nil.
    + clear -Hvalid. induction Hvalid as [|p ps [Hp _] _ IH]; simpl; [done|].
      unfold sjf_segment_of at 1. by rewrite Hp.
Qed.

Lemma sjf_non_preemptive_runs_each_process_once_witness :
  ∃ fuel gantt final,
    Sjf.sjf_non_preemptive fuel Sjf.processes_data = Some (gantt, final)
    ∧ map sjf_static final = map sjf_static Sjf.processes_data
    ∧ Forall sjf_metrics_ok final
    ∧ gantt ≡ₚ omap sjf_segment_of final
    ∧ length gantt = length Sjf.processes_data
    ∧ Forall (fun g => 0 ≤ seg_start g) gantt
    ∧ in_time_order gantt.
Proof.
  apply sjf_non_preemptive_runs_each_process_once.
  repeat (constructor; [simpl; split; [reflexivity|lia]|]). constructor.
Defined.

(** ** sjf.py: sjf_preemptive *)

(** Process [p] at position [i] is in the ready queue of
    [sjf_preemptive]: arrived and with time remaining. *)
Definition sjfp_ready (st : Sjf.pstate) (i : nat) (p : Sjf.Process) : Prop :=
  Sjf.p_processes st !! i = Some p ∧ Sjf.arrival p ≤ Sjf.p_time st
  ∧ 0 < Sjf.remaining p.

(** X13. One pass of [sjf_preemptive].  With a process ready, the ready
    process of least remaining time runs for one unit, the first in the
    list among those of least remaining time, whichever process ran
    before: its [remaining] drops by one, the clock moves by one, an entry
    [(pid, clock)] is appended to the chart exactly when it is not the
    process that ran last, and it is counted as completed exactly when
    nothing remains.  With no process ready only the clock moves. *)
Theorem sjf_preemptive_runs_shortest_remaining (st : Sjf.pstate) :
  (∀ i0 p0, sjfp_ready st i0 p0 →
     ∃ idx p,
       sjfp_ready st idx p
       ∧ (∀ j p', sjfp_ready st j p' →
            Sjf.remaining p ≤ Sjf.remaining p'
            ∧ (Sjf.remaining p' = Sjf.remaining p → (idx ≤ j)%nat))
       ∧ (∃ p', Sjf.p_processes (Sjf.pbody st) = <[idx := p']> (Sjf.p_processes st)
                ∧ Sjf.remaining p' = Sjf.remaining p - 1
                ∧ sjf_static p' = sjf_static p)
       ∧ Sjf.p_time (Sjf.pbody st) = Sjf.p_time st + 1
       ∧ Sjf.current_process (Sjf.pbody st) = Some idx
       ∧ Sjf.p_gantt (Sjf.pbody st)
         = (if decide (Sjf.current_process st = Some idx) then Sjf.p_gantt st
            else Sjf.p_gantt st ++ [(Sjf.pid p, Sjf.p_time st)])
       ∧ Sjf.p_completed (Sjf.pbody st)
         = (if decide (Sjf.remaining p = 1) then S (Sjf.p_completed st)
            else Sjf.p_completed st))
  ∧ ((∀ i p, ¬ sjfp_ready st i p) →
     Sjf.pbody st
     = {| Sjf.p_processes := Sjf.p_processes st; Sjf.p_time := Sjf.p_time st + 1;
          Sjf.p_completed := Sjf.p_completed st; Sjf.p_gantt := Sjf.p_gantt st;
          Sjf.current_process := Sjf.current_process st |}).
Proof.
  split.
  - intros i0 p0 Hready. apply elem_of_sjfp_ready in Hready.
    unfold Sjf.pbody.
    destruct (min_by _ _) as [[idx p]|] eqn:Hmin.
    2:{ apply min_by_None in Hmin. rewrite Hmin in Hready.
        by apply elem_of_nil in Hready. }
    apply (min_by_first_position Sjf.remaining) in Hmin as [Hin Hleast];
      [|apply enumerate_from_filter_increasing].
    exists idx, p. split; [by apply elem_of_sjfp_ready|].
    split. { intros j p' Hj. apply Hleast. by apply elem_of_sjfp_ready. }
    cbn zeta.
    assert ((if bool_decide (Sjf.current_process st ≠ Some idx)
             then Sjf.p_gantt st ++ [(Sjf.pid p, Sjf.p_time st)] else Sjf.p_gantt st)
            = (if decide (Sjf.current_process st = Some idx) then Sjf.p_gantt st
               else Sjf.p_gantt st ++ [(Sjf.pid p, Sjf.p_time st)])) as ->.
    { destruct (decide (Sjf.current_process st = Some idx)) as [Heq|Hne].
      - by rewrite bool_decide_eq_false_2 by (by intros ?).
      - by rewrite bool_decide_eq_true_2. }
    destruct (Z.eqb_spec (Sjf.remaining (Sjf.set_remaining (Sjf.remaining p - 1) p)) 0)
      as [Hz|Hnz]; simpl in *.
    + destruct (decide (Sjf.remaining p = 1)); [|lia]. repeat split; eauto.
    + destruct (decide (Sjf.remaining p = 1)); [lia|]. repeat split; eauto.
  - intros Hnone. unfold Sjf.pbody.
    destruct (min_by _ _) as [[idx p]|] eqn:Hmin; [|done].
    apply min_by_elem_of, elem_of_sjfp_ready in Hmin. by destruct (Hnone idx p).
Qed.

(** The third pass of [sjf_preemptive] on the processes of the example
    section: P1 ran from 0 to 1, P2 from 1 to 2, and P3 has just arrived. *)
Definition sjfp_example_state : Sjf.pstate :=
  {| Sjf.p_processes := [ Sjf.set_remaining 7 (Sjf.new_Process (VInt 1) 0 8);
                          Sjf.set_remaining 3 (Sjf.new_Process (VInt 2) 1 4);
                          Sjf.new_Process (VInt 3) 2 2 ];
     Sjf.p_time := 2; Sjf.p_completed := 0;
     Sjf.p_gantt := [(VInt 1, 0); (VInt 2, 1)];
     Sjf.current_process := Some 1%nat |}.

Lemma sjf_preemptive_runs_shortest_remaining_witness :
  ∃ idx p,
    sjfp_ready sjfp_example_state idx p
    ∧ (∀ j p', sjfp_ready sjfp_example_state j p' →
         Sjf.remaining p ≤ Sjf.remaining p'
         ∧ (Sjf.remaining p' = Sjf.remaining p → (idx ≤ j)%nat))
    ∧ (∃ p', Sjf.p_processes (Sjf.pbody sjfp_example_state)
             = <[idx := p']> (Sjf.p_processes sjfp_example_state)
             ∧ Sjf.remaining p' = Sjf.remaining p - 1
             ∧ sjf_static p' = sjf_static p)
    ∧ Sjf.p_time (Sjf.pbody sjfp_example_state) = Sjf.p_time sjfp_example_state + 1
    ∧ Sjf.current_process (Sjf.pbody sjfp_example_state) = Some idx
    ∧ Sjf.p_gantt (Sjf.pbody sjfp_example_state)
      = (if decide (Sjf.current_process sjfp_example_state = Some idx)
         then Sjf.p_gantt sjfp_example_state
         else Sjf.p_gantt sjfp_example_state
              ++ [(Sjf.pid p, Sjf.p_time sjfp_example_state)])
    ∧ Sjf.p_completed (Sjf.pbody sjfp_example_state)
      = (if decide (Sjf.remaining p = 1) then S (Sjf.p_completed sjfp_example_state)
         else Sjf.p_completed sjfp_example_state).
Proof.
  apply (proj1 (sjf_preemptive_runs_shortest_remaining sjfp_example_state)
           1%nat (Sjf.set_remaining 3 (Sjf.new_Process (VInt 2) 1 4))).
  repeat split; simpl; lia.
Defined.

(** The chart of switches against the clock and the processes: the
    entries are behind the clock and in strictly increasing time, and a
    process that has run, or that ran last, has an entry. *)
Record sjfp_chart_inv (st : Sjf.pstate) : Prop := {
  pc_clock : 0 ≤ Sjf.p_time st;
  pc_behind : Forall (fun e : value * Z => 0 ≤ e.2 ∧ e.2 < Sjf.p_time st) (Sjf.p_gantt st);
  pc_sorted : StronglySorted (fun e e' : value * Z => e.2 < e'.2) (Sjf.p_gantt st);
  pc_ran : ∀ i p, Sjf.p_processes st !! i = Some p →
                  Sjf.remaining p < Sjf.burst p → Sjf.pid p ∈ (Sjf.p_gantt st).*1;
  pc_current : ∀ i p, Sjf.current_process st = Some i →
                      Sjf.p_processes st !! i = Some p →
                      Sjf.pid p ∈ (Sjf.p_gantt st).*1
}.

Lemma sjfp_body_chart st : sjfp_chart_inv st → sjfp_chart_inv (Sjf.pbody st).
Proof.
  intros [Hclock Hbehind Hsorted Hran Hcurrent]. unfold Sjf.pbody.
  destruct (min_by _ _) as [[idx p]|] eqn:Hmin.
  2:{ split; simpl; [lia| |done..].
      eapply Forall_impl; [exact Hbehind|]. intros e. simpl. lia. }
  apply min_by_elem_of, elem_of_sjfp_ready in Hmin as (Hp & _ & Hrem).
  cbn zeta.
  set (gantt := if bool_decide (Sjf.current_process st ≠ Some idx)
                then Sjf.p_gantt st ++ [(Sjf.pid p, Sjf.p_time st)]
                else Sjf.p_gantt st).
  assert (Forall (fun e : value * Z => 0 ≤ e.2 ∧ e.2 < Sjf.p_time st + 1) gantt) as Hb'.
  { unfold gantt. case_bool_decide.
    - apply Forall_app. split.
      + eapply Forall_impl; [exact Hbehind|]. intros e. simpl. lia.
      + constructor; [simpl; lia|done].
    - eapply Forall_impl; [exact Hbehind|]. intros e. simpl. lia. }
  assert (StronglySorted (fun e e' : value * Z => e.2 < e'.2) gantt) as Hs'.
  { unfold gantt. case_bool_decide; [|done].
    apply StronglySorted_app. split; [|split; [done|repeat constructor]].
    intros e1 e2 He1 ->%list_elem_of_singleton.
    pose proof (proj1 (Forall_forall _ _) Hbehind e1 He1). simpl in *. lia. }
  assert (∀ e, e ∈ (Sjf.p_gantt st).*1 → e ∈ gantt.*1) as Hkeep.
  { intros e He. unfold gantt. case_bool_decide; [|done].
    rewrite fmap_app. apply elem_of_app. by left. }
  assert (Sjf.pid p ∈ gantt.*1) as Hnow.
  { unfold gantt. case_bool_decide as Hcur.
    - rewrite fmap_app. apply elem_of_app. right. simpl. by left.
    - apply (Hcurrent idx p); [|done].
      destruct (decide (Sjf.current_process st = Some idx)); [done|].
      by destruct Hcur. }
  assert (∀ p' i q, <[idx := p']> (Sjf.p_processes st) !! i = Some q →
            Sjf.pid p' = Sjf.pid p →
            (i = idx ∧ q = p') ∨ (i ≠ idx ∧ Sjf.p_processes st !! i = Some q)) as Hcases.
  { intros p' i q Hq _. destruct (decide (i = idx)) as [->|Hne].
    - rewrite list_lookup_insert_eq in Hq by (by eapply lookup_lt_Some).
      left. split; [done|]. by injection Hq.
    - rewrite list_lookup_insert_ne in Hq by done. by right. }
  destruct (Sjf.remaining _ =? 0); split; simpl; try done; try lia.
  - intros i q Hq Hlt. destruct (Hcases _ i q Hq eq_refl) as [[-> ->]|[Hne Hq']].
    + exact Hnow.
    + by apply Hkeep, (Hran i q).
  - intros i q [= <-] Hq. destruct (Hcases _ idx q Hq eq_refl) as [[_ ->]|[Hne _]];
      [exact Hnow|done].
  - intros i q Hq Hlt. destruct (Hcases _ i q Hq eq_refl) as [[-> ->]|[Hne Hq']].
    + exact Hnow.
    + by apply Hkeep, (Hran i q).
  - intros i q [= <-] Hq. destruct (Hcases _ idx q Hq eq_refl) as [[_ ->]|[Hne _]];
      [exact Hnow|done].
Qed.

(** X14. [sjf_preemptive] on processes as [Process.__init__] builds them,
    with positive bursts: it returns; every process is left with
    [turnaround = completion - arrival], [waiting = turnaround - burst] and
    a waiting time of 0 or more; the chart of switches is in strictly
    increasing time from 0 on; and every process has an entry in it. *)
Theorem sjf_preemptive_runs_every_process (processes : list Sjf.Process) :
  Forall (fun p => 0 < Sjf.burst p ∧ Sjf.remaining p = Sjf.burst p) processes →
  ∃ fuel gantt final,
    Sjf.sjf_preemptive fuel processes = Some (gantt, final)
    ∧ map sjf_static final = map sjf_static processes
    ∧ Forall sjf_metrics_ok final
    ∧ StronglySorted (fun e e' : value * Z => e.2 < e'.2) gantt
    ∧ Forall (fun e : value * Z => 0 ≤ e.2) gantt
    ∧ ∀ p, p ∈ processes → Sjf.pid p ∈ gantt.*1.
Proof.
  intros Hvalid.
  destruct (sjf_preemptive_returns processes Hvalid)
    as (fuel & gantt & final & Hrun & Hstatic & Hzero & Hok).
  exists fuel, gantt, final. split; [done|]. split; [done|]. split; [done|].
  unfold Sjf.sjf_preemptive in Hrun.
  destruct (while _ _ _ _) as [st|] eqn:Hloop; [|done]. injection Hrun as <- <-.
  apply (while_invariant _ _ sjfp_chart_inv) in Hloop
    as [[_ Hbehind Hsorted Hran _] _].
  - split; [done|]. split.
    { eapply Forall_impl; [exact Hbehind|]. by intros e [? _]. }
    intros p Hp.
    assert (sjf_static p ∈ map sjf_static (Sjf.p_processes st)) as Hin.
    { rewrite Hstatic, map_fmap. apply list_elem_of_fmap. by exists p. }
    rewrite map_fmap in Hin. apply list_elem_of_fmap in Hin as (q & Hpq & Hq).
    apply list_elem_of_lookup in Hq as [i Hi].
    pose proof (proj1 (Forall_forall _ _) Hvalid p Hp) as [Hpos _].
    pose proof (Forall_lookup_1 _ _ _ _ Hzero Hi) as Hq0. simpl in Hq0.
    unfold sjf_static in Hpq. injection Hpq as Hpid _ Hburst.
    rewrite Hpid. apply (Hran i q Hi). lia.
  - intros s Hs _. by apply sjfp_body_chart.
  - split; simpl; [done|constructor|constructor| |done].
    intros i p Hp Hlt.
    pose proof (Forall_lookup_1 _ _ _ _ Hvalid Hp) as [_ Heq]. simpl in Heq. lia.
Qed.

Lemma sjf_preemptive_runs_every_process_witness :
  ∃ fuel gantt final,
    Sjf.sjf_preemptive fuel Sjf.processes_data = Some (gantt, final)
    ∧ map sjf_static final = map sjf_static Sjf.processes_data
    ∧ Forall sjf_metrics_ok final
    ∧ StronglySorted (fun e e' : value * Z => e.2 < e'.2) gantt
    ∧ Forall (fun e : value * Z => 0 ≤ e.2) gantt
    ∧ ∀ p, p ∈ Sjf.processes_data → Sjf.pid p ∈ gantt.*1.
Proof.
  apply sjf_preemptive_runs_every_process.
  repeat (constructor; [simpl; lia|]). constructor.
Defined.

(** ** fcfs_scheduling.py: metrics *)


(** ** main.py: logic_fcfs against fcfs_scheduling.py *)

(** What a [Process] of [main.py] is built from, and the segment
    [draw_gantt] draws for it. *)
Definition main_job (p : Main.Process) : job :=
  (Main.pid p, Main.arrival_time p, Main.burst_time p).

Definition main_segment (p : Main.Process) : segment :=
  (Main.pid p, Main.start_time p, Main.completion_time p).

(** A process object of [main.py] and a process dictionary of
    [fcfs_scheduling.py] with the same identity and the same times. *)
Definition same_times (p : Main.Process) (d : dict) : Prop :=
  d !! "pid" = Some (Main.pid p)
  ∧ get_int d "arrival_time" = Some (Main.arrival_time p)
  ∧ get_int d "burst_time" = Some (Main.burst_time p)
  ∧ get_int d "start_time" = Some (Main.start_time p)
  ∧ get_int d "completion_time" = Some (Main.completion_time p)
  ∧ get_int d "waiting_time" = Some (Main.waiting_time p)
  ∧ get_int d "turnaround_time" = Some (Main.turnaround_time p).

(** The [for] loop of [logic_fcfs] from clock [t]. *)
Fixpoint main_fcfs (t : Z) (l : list Main.Process) : list Main.Process :=
  match l with
  | [] => []
  | p :: l' =>
      let start := Z.max t (Main.arrival_time p) in
      Main.run_whole start p :: main_fcfs (start + Main.burst_time p) l'
  end.

Lemma logic_fcfs_loop l t acc :
  (fold_left Main.fcfs_step l (t, acc)).2 = acc ++ main_fcfs t l.
Proof.
  revert t acc. induction l as [|p l IH]; intros t acc; simpl.
  { by rewrite app_nil_r. }
  unfold Main.fcfs_step at 2. cbn [fst snd].
  replace (if t <? Main.arrival_time p then Main.arrival_time p else t)
    with (Z.max t (Main.arrival_time p))
    by (destruct (Z.ltb_spec t (Main.arrival_time p)); lia).
  rewrite IH, <- app_assoc. done.
Qed.

Lemma main_fcfs_same_times t l :
  Forall2 same_times (main_fcfs t l) (map fcfs_output (fcfs_schedule t (map main_job l))).
Proof.
  revert t. induction l as [|p l IH]; intros t; simpl; constructor; [|apply IH].
  unfold same_times. repeat split; try reflexivity.
  change (get_int (fcfs_output (Z.max t (job_arrival (main_job p)), main_job p))
            "waiting_time")
    with (Some (Z.max t (Main.arrival_time p) - Main.arrival_time p)).
  f_equal. simpl. lia.
Qed.

Lemma main_fcfs_segments t l :
  map main_segment (main_fcfs t l) = map fcfs_segment (fcfs_schedule t (map main_job l)).
Proof. revert t. induction l as [|p l IH]; intros t; simpl; [done|]. by rewrite IH. Qed.

Lemma main_fcfs_from t l :
  Forall (fun p => 0 ≤ Main.burst_time p) l →
  Forall (fun p => t ≤ Main.start_time p) (main_fcfs t l).
Proof.
  intros Hl. revert t. induction Hl as [|p l Hp Hl IH]; intros t; simpl; constructor.
  - simpl. lia.
  - eapply Forall_impl; [apply IH|]. intros q. simpl. lia.
Qed.

Lemma main_fcfs_sorted t l :
  Forall (fun p => 0 ≤ Main.burst_time p) l →
  StronglySorted (fun a b => Main.start_time a ≤ Main.start_time b) (main_fcfs t l).
Proof.
  intros Hl. revert t. induction Hl as [|p l Hp Hl IH]; intros t; simpl; constructor.
  - apply IH.
  - eapply Forall_impl; [by apply main_fcfs_from|]. intros q. simpl. lia.
Qed.


(** ** main.py: logic_sjf and logic_priority run every process once *)

Lemma omap_ext_in {A B : Type} (f g : A → option B) (l : list A) :
  (∀ x, x ∈ l → f x = g x) → omap f l = omap g l.
Proof.
  induction l as [|x l IH]; intros Hfg; simpl; [done|].
  rewrite (Hfg x) by (by left).
  assert (omap f l = omap g l) as Hrest.
  { apply IH. intros y Hy. apply Hfg. by right. }
  destruct (g x); [f_equal|]; exact Hrest.
Qed.

Lemma omap_lookup_seq {A : Type} (l : list A) :
  omap (fun i => l !! i) (seq 0 (length l)) = l.
Proof.
  induction l as [|x l IH] using rev_ind; [done|].
  rewrite length_app. simpl. rewrite Nat.add_1_r, seq_S, omap_app. simpl.
  rewrite lookup_app_r by lia. rewrite Nat.sub_diag. simpl. f_equal.
  etrans; [|exact IH]. apply omap_ext_in. intros i Hi.
  apply elem_of_seq in Hi. by rewrite lookup_app_l by lia.
Qed.

Lemma omap_lookup_insert_notin {A : Type} (l : list A) (res : list nat) i x :
  i ∉ res → omap (fun k => <[i := x]> l !! k) res = omap (fun k => l !! k) res.
Proof.
  intros Hi. apply omap_ext_in. intros k Hk.
  rewrite list_lookup_insert_ne; [done|]. by intros ->.
Qed.

(** What [logic_sjf] and [logic_priority] keep besides [select_inv]: the
    processes are those of the input, none has a negative burst, and the
    processes run so far, in the order they ran, each from its start to its
    completion, make a chart behind the clock. *)
Record select_chart_inv (procs0 : list Main.Process) (st : Main.state) : Prop := {
  sh_static : map main_job (Main.procs st) = map main_job procs0;
  sh_bursts : Forall (fun p => 0 ≤ Main.burst_time p) (Main.procs st);
  sh_runs : Forall (fun p => Main.completion_time p
                             = Main.start_time p + Main.burst_time p)
                   (omap (fun i => Main.procs st !! i) (Main.res st));
  sh_chart : chart_behind (Main.t st)
               (map main_segment (omap (fun i => Main.procs st !! i) (Main.res st)))
}.

Lemma select_body_chart key procs0 st :
  select_inv st → select_chart_inv procs0 st →
  select_chart_inv procs0 (Main.select_body key st).
Proof.
  intros [_ _ Hres _ _] [Hstatic Hb Hruns Hchart]. unfold Main.select_body.
  destruct (min_by _ (Main.avail st)) as [[idx p]|] eqn:Hmin.
  - apply min_by_elem_of, elem_of_avail in Hmin as (Hp & _ & Hcomp).
    pose proof (Forall_lookup_1 _ _ _ _ Hb Hp) as Hp0. simpl in Hp0.
    assert (idx ∉ Main.res st) as Hnot.
    { intros Hin. apply Hres in Hin. congruence. }
    split; simpl.
    + rewrite <- Hstatic. by eapply map_insert_same.
    + by apply Forall_insert.
    + rewrite omap_app, omap_lookup_insert_notin by done. simpl.
      rewrite list_lookup_insert_eq by (by eapply lookup_lt_Some). simpl.
      apply Forall_app. split; [done|]. by constructor.
    + rewrite omap_app, map_app, omap_lookup_insert_notin by done. simpl.
      rewrite list_lookup_insert_eq by (by eapply lookup_lt_Some). simpl.
      by apply chart_behind_snoc.
  - split; simpl; [done..|]. apply (chart_behind_later _ _ _ Hchart). lia.
Qed.

(** A result of [logic_sjf] or [logic_priority] for the input [procs]:
    the processes of the input, each once, in the order they ran; each with
    its metrics, started at 0 or later and completed one burst after its
    start; never two at a time; and [draw_gantt] draws them in the order
    they ran. *)
Definition runs_each_once (procs res : list Main.Process) : Prop :=
  map main_job res ≡ₚ map main_job procs
  ∧ Forall main_metrics_ok res
  ∧ Forall (fun p => 0 ≤ Main.start_time p
                     ∧ Main.completion_time p = Main.start_time p + Main.burst_time p) res
  ∧ in_time_order (map main_segment res)
  ∧ Main.draw_data res = map main_segment res.

Lemma in_time_order_starts (l : list Main.Process) :
  Forall (fun p => Main.start_time p ≤ Main.completion_time p) l →
  in_time_order (map main_segment l) →
  StronglySorted (fun a b => Main.start_time a ≤ Main.start_time b) l.
Proof.
  induction 1 as [|p l Hp Hl IH]; simpl; intros Hs; constructor.
  - apply IH. by apply StronglySorted_inv in Hs as [? _].
  - apply StronglySorted_inv in Hs as [_ Hall].
    rewrite map_fmap, Forall_fmap in Hall.
    eapply Forall_impl; [exact Hall|]. intros q. unfold seg_end, seg_start. simpl. lia.
Qed.

Lemma select_loop_runs_each_once (key : Main.Process → Z) (procs : list Main.Process) :
  Forall (fun p => 0 ≤ Main.burst_time p) procs →
  ∃ fuel res, Main.select_loop key fuel procs = Some res ∧ runs_each_once procs res.
Proof.
  intros Hvalid.
  set (st0 := {| Main.procs := procs; Main.t := 0; Main.count := 0; Main.res := [];
                 Main.comp := replicate (length procs) false |}).
  assert (select_inv st0) as Hinv0.
  { split; simpl.
    - by rewrite length_replicate.
    - by rewrite unset_replicate.
    - intros i. split; [by intros ?%elem_of_nil|].
      intros Hi. apply lookup_replicate in Hi as [? _]. done.
    - constructor.
    - intros i p _ Hi. apply lookup_replicate in Hi as [? _]. done. }
  destruct (while_terminates Main.cond (Main.select_body key) select_inv
              (fun st => unset (Main.comp st)) select_wait (select_body_step key)
              st0 Hinv0) as (fuel & st & Hrun & _ & Hcond).
  apply (while_invariant _ _ (fun s => select_inv s ∧ select_chart_inv procs s))
    in Hrun as Hfinal.
  2:{ intros s [Hs Hc] Hcs. split; [by apply select_body_step|].
      by apply select_body_chart. }
  2:{ split; [done|]. split; simpl; [done|done|constructor|apply chart_behind_nil]. }
  destruct Hfinal as [[[Hlen Hcount Hres Hnd Hmet] [Hstatic Hb Hruns Hchart]] _].
  exists fuel. eexists. unfold Main.select_loop. fold st0. rewrite Hrun. simpl.
  split; [done|]. apply Nat.ltb_ge in Hcond.
  assert (Main.res st ≡ₚ seq 0 (length (Main.procs st))) as Hperm.
  { apply NoDup_Permutation; [done|apply NoDup_seq|].
    intros i. rewrite Hres, elem_of_seq. split.
    - intros Hi. apply lookup_lt_Some in Hi. lia.
    - intros Hi. apply unset_zero; lia. }
  set (res := omap (fun i => Main.procs st !! i) (Main.res st)) in *.
  assert (res ≡ₚ Main.procs st) as Hall.
  { unfold res. rewrite Hperm. by rewrite omap_lookup_seq. }
  destruct Hchart as (_ & Hsegs & Horder).
  assert (Forall (fun p => 0 ≤ Main.start_time p
                           ∧ Main.start_time p ≤ Main.completion_time p) res) as Hstart.
  { rewrite map_fmap, Forall_fmap in Hsegs.
    eapply Forall_impl; [exact Hsegs|]. intros p. unfold seg_start, seg_end. simpl. lia. }
  split; [|split; [|split; [|split]]].
  - rewrite <- Hstatic, !map_fmap. by apply fmap_Permutation.
  - apply Forall_forall. intros p Hp.
    apply list_elem_of_omap in Hp as (i & Hi & Hp).
    apply (Hmet i p Hp). by apply Hres.
  - apply Forall_forall. intros p Hp.
    pose proof (proj1 (Forall_forall _ _) Hstart p Hp) as [H0 _].
    pose proof (proj1 (Forall_forall _ _) Hruns p Hp) as H1. done.
  - done.
  - unfold Main.draw_data. fold main_segment. rewrite sort_by_id; [done|].
    apply in_time_order_starts; [|done].
    eapply Forall_impl; [exact Hstart|]. by intros p [_ ?].
Qed.

(** X17. [logic_sjf] and [logic_priority] on processes with no negative
    burst: each returns the processes of the input, every one exactly once,
    in the order they ran; every process has
    [turnaround_time = completion_time - arrival_time],
    [waiting_time = turnaround_time - burst_time], a waiting time of 0 or
    more, a start at 0 or later and a completion one burst after its start;
    no process begins before an earlier one has completed; and
    [draw_gantt] draws the segments in the order the processes ran. *)
Theorem logic_sjf_and_logic_priority_run_each_process_once (procs : list Main.Process) :
  Forall (fun p => 0 ≤ Main.burst_time p) procs →
  (∃ fuel res, Main.logic_sjf fuel procs = Some res ∧ runs_each_once procs res)
  ∧ (∃ fuel res, Main.logic_priority fuel procs = Some res ∧ runs_each_once procs res).
Proof.
  intros Hvalid. split; by apply select_loop_runs_each_once.
Qed.

Lemma logic_sjf_and_logic_priority_run_each_process_once_witness :
  (∃ fuel res,
     Main.logic_sjf fuel [Main.new_Process (VStr "P1") 0 8 2;
                          Main.new_Process (VStr "P2") 1 4 1] = Some res
     ∧ runs_each_once [Main.new_Process (VStr "P1") 0 8 2;
                       Main.new_Process (VStr "P2") 1 4 1] res)
  ∧ (∃ fuel res,
       Main.logic_priority fuel [Main.new_Process (VStr "P1") 0 8 2;
                                 Main.new_Process (VStr "P2") 1 4 1] = Some res
       ∧ runs_each_once [Main.new_Process (VStr "P1") 0 8 2;
                         Main.new_Process (VStr "P2") 1 4 1] res).
Proof.
  apply logic_sjf_and_logic_priority_run_each_process_once.
  repeat (constructor; [simpl; lia|]). constructor.
Defined.

(** ** main.py: logic_rr *)


(** One scan keeps the positions held by the queue and by [others]
    distinct and flagged. *)
Lemma scan_distinct {P : Type} (test : P → bool) (ps : list P) (others q : list nat)
    (a : list bool) :
  NoDup (others ++ q) → (∀ i, i ∈ others ++ q → a !! i = Some true) →
  NoDup (others ++ (enqueue_arrivals test ps q a).1)
  ∧ ∀ i, i ∈ others ++ (enqueue_arrivals test ps q a).1 →
         (enqueue_arrivals test ps q a).2 !! i = Some true.
Proof.
  intros Hnd Hflag.
  destruct (enqueue_arrivals_spec test ps q a) as (Hq & _ & Hflags & _).
  rewrite Hq. split.
  - rewrite app_assoc. apply NoDup_app. split; [done|]. split; [|apply newly_from_NoDup].
    intros i Hi Hnew. apply elem_of_newly in Hnew as [Hfalse _].
    rewrite (Hflag i Hi) in Hfalse. done.
  - intros i Hi. rewrite Hflags. case_decide; [done|].
    apply Hflag. rewrite app_assoc in Hi. apply elem_of_app in Hi as [Hi|Hi]; done.
Qed.

(** What [logic_rr] keeps besides [logic_rr_inv]: the processes are those
    of the sorted input, none has a negative [remaining_time], [res] and
    the queue hold distinct flagged positions, [res] has [count] entries,
    and the log is a chart behind the clock with no slice longer than the
    quantum. *)
Record logic_rr_chart_inv (q : Z) (procs0 : list Main.Process) (st : Main.rr_state)
  : Prop := {
  lc_static : map main_job (Main.rr_procs st) = map main_job procs0;
  lc_bounds : Forall (fun p => 0 ≤ Main.remaining_time p) (Main.rr_procs st);
  lc_distinct : NoDup (Main.rr_res st ++ Main.queue st);
  lc_flagged : ∀ i, i ∈ Main.rr_res st ++ Main.queue st → Main.visited st !! i = Some true;
  lc_count : length (Main.rr_res st) = Main.rr_count st;
  lc_chart : chart_behind (Main.rr_t st) (Main.gantt_log st);
  lc_short : Forall (fun g => duration g ≤ q) (Main.gantt_log st)
}.

Lemma logic_rr_body_chart q procs0 st :
  0 < q → logic_rr_chart_inv q procs0 st → logic_rr_chart_inv q procs0 (Main.rr_body q st).
Proof.
  intros Hq [Hstatic Hb Hnd Hflag Hcount Hchart Hshort]. unfold Main.rr_body.
  destruct (Main.queue st) as [|c queue] eqn:Hqueue.
  { destruct (scan_distinct (fun p => Main.arrival_time p <=? Main.rr_t st + 1)
                (Main.rr_procs st) (Main.rr_res st) [] (Main.visited st) Hnd Hflag)
      as [Hnd' Hflag'].
    split; simpl; try done. apply (chart_behind_later _ _ _ Hchart). lia. }
  destruct (Main.rr_procs st !! c) as [curr|] eqn:Hcurr.
  2:{ split; try done; by rewrite Hqueue. }
  pose proof (Forall_lookup_1 _ _ _ _ Hb Hcurr) as Hcurr0. simpl in Hcurr0.
  cbn zeta.
  set (run := Z.min (Main.remaining_time curr) q).
  set (curr' := Main.set_remaining_time (Main.remaining_time curr - run) curr).
  set (procs' := <[c := curr']> (Main.rr_procs st)).
  set (qv := enqueue_arrivals (fun p => Main.arrival_time p <=? Main.rr_t st + run)
               procs' queue (Main.visited st)).
  assert (NoDup ((Main.rr_res st ++ [c]) ++ queue)) as Hnd1.
  { rewrite <- app_assoc. done. }
  assert (∀ i, i ∈ (Main.rr_res st ++ [c]) ++ queue → Main.visited st !! i = Some true)
    as Hflag1.
  { intros i Hi. apply Hflag. by rewrite <- app_assoc in Hi. }
  destruct (scan_distinct (fun p => Main.arrival_time p <=? Main.rr_t st + run)
              procs' (Main.rr_res st ++ [c]) queue (Main.visited st) Hnd1 Hflag1)
    as [Hnd' Hflag']. fold qv in Hnd', Hflag'.
  assert (map main_job procs' = map main_job procs0) as Hstatic'.
  { rewrite <- Hstatic. by eapply map_insert_same. }
  assert (Forall (fun p => 0 ≤ Main.remaining_time p) procs') as Hb'.
  { apply Forall_insert; [done|]. simpl. lia. }
  assert (chart_behind (Main.rr_t st + run)
            (Main.gantt_log st ++ [(Main.pid curr', Main.rr_t st, Main.rr_t st + run)]))
    as Hchart' by (apply chart_behind_snoc; [done|lia]).
  assert (Forall (fun g => duration g ≤ q)
            (Main.gantt_log st ++ [(Main.pid curr', Main.rr_t st, Main.rr_t st + run)]))
    as Hshort'.
  { apply Forall_app. split; [done|]. constructor; [|done]. unfold duration. simpl. lia. }
  destruct (0 <? Main.remaining_time curr'); split; simpl; try done.
  - assert (Main.rr_res st ++ qv.1 ++ [c] ≡ₚ (Main.rr_res st ++ [c]) ++ qv.1) as ->;
      [|done].
    rewrite <- !app_assoc. apply Permutation_app_head, Permutation_app_comm.
  - intros i Hi. apply Hflag'. rewrite <- !app_assoc.
    rewrite !elem_of_app in Hi. rewrite !elem_of_app. tauto.
  - rewrite <- Hstatic'. apply map_insert_same with curr'; [|done].
    apply list_lookup_insert_eq. by eapply lookup_lt_Some.
  - apply Forall_insert; [done|]. simpl in *. lia.
  - rewrite length_app. simpl. lia.
Qed.

Lemma NoDup_bounded_Permutation (l : list nat) (n : nat) :
  NoDup l → (∀ i, i ∈ l → (i < n)%nat) → (n ≤ length l)%nat → l ≡ₚ seq 0 n.
Proof.
  intros Hnd Hlt Hlen.
  apply submseteq_length_Permutation; [|by rewrite length_seq].
  apply NoDup_submseteq; [done|]. intros i Hi. apply elem_of_seq. specialize (Hlt i Hi). lia.
Qed.

(** The state [logic_rr] starts its loop in, on the sorted list. *)
Definition logic_rr_init (sorted : list Main.Process) : Main.rr_state :=
  {| Main.rr_procs := sorted; Main.queue := [0%nat]; Main.rr_t := 0;
     Main.rr_count := 0; Main.rr_res := [];
     Main.visited := <[0%nat := true]> (replicate (length sorted) false);
     Main.gantt_log := [] |}.

Lemma logic_rr_unfold fuel procs q :
  procs ≠ [] →
  Main.logic_rr fuel procs q
  = st ← while Main.rr_cond (Main.rr_body q) fuel
           (logic_rr_init (sort_by Main.arrival_time procs));
    Some (Some (omap (fun i => Main.rr_procs st !! i) (Main.rr_res st), Main.gantt_log st)).
Proof.
  intros Hne. unfold Main.logic_rr.
  destruct (sort_by Main.arrival_time procs) as [|p0 sorted] eqn:Hsort; [|done].
  apply (f_equal length) in Hsort. rewrite sort_by_length in Hsort. by destruct procs.
Qed.

Lemma logic_rr_inv_init sorted : sorted ≠ [] → logic_rr_inv (logic_rr_init sorted).
Proof.
  intros Hne. destruct sorted as [|p0 sorted]; [done|].
  split; [|done]. simpl. split; simpl.
  - by rewrite length_replicate.
  - apply NoDup_singleton.
  - by intros i ->%list_elem_of_singleton.
  - f_equal. change (unset (true :: replicate (length sorted) false))
      with (unset (replicate (length sorted) false)).
    apply unset_replicate.
  - intros [|i] p _ Hi Hnot; [set_solver|].
    simpl in Hi. apply lookup_replicate in Hi as [? _]. done.
Qed.

(** The loop of [logic_rr] ends, and how. *)
Lemma logic_rr_loop (sorted : list Main.Process) (q : Z) :
  sorted ≠ [] → 0 < q → Forall (fun p => 0 ≤ Main.remaining_time p) sorted →
  ∃ fuel st,
    while Main.rr_cond (Main.rr_body q) fuel (logic_rr_init sorted) = Some st
    ∧ logic_rr_chart_inv q sorted st
    ∧ omap (fun i => Main.rr_procs st !! i) (Main.rr_res st) ≡ₚ Main.rr_procs st
    ∧ Forall (fun p => Main.remaining_time p = 0) (Main.rr_procs st).
Proof.
  intros Hne Hq Hvalid.
  pose proof (logic_rr_inv_init sorted Hne) as Hinv0.
  destruct (while_terminates Main.rr_cond (Main.rr_body q) logic_rr_inv
              (logic_rr_work q) logic_rr_wait (logic_rr_body_step q Hq) _ Hinv0)
    as (fuel & st & Hrun & _ & Hcond).
  exists fuel, st. split; [done|].
  apply (while_invariant _ _ (fun s => logic_rr_inv s ∧ logic_rr_chart_inv q sorted s))
    in Hrun as Hfinal.
  2:{ intros s [Hs Hc] Hcs. split; [by apply (logic_rr_body_step q Hq)|].
      by apply logic_rr_body_chart. }
  2:{ split; [done|]. destruct sorted as [|p0 sorted']; [done|].
      split; simpl; try done.
      - apply NoDup_singleton.
      - by intros i ->%list_elem_of_singleton.
      - apply chart_behind_nil. }
  destruct Hfinal as [[[Hqinv _] Hchart] _]. split; [done|].
  destruct Hchart as [Hstatic Hb Hnd Hflag Hcount Hchart Hshort].
  apply Nat.ltb_ge in Hcond.
  destruct (queue_inv_all_finished _ _ _ _ _ Hqinv Hcond) as [Hempty Hzero].
  rewrite Hempty, app_nil_r in Hnd, Hflag. split; [|done].
  assert (Main.rr_res st ≡ₚ seq 0 (length (Main.rr_procs st))) as Hperm.
  { apply NoDup_bounded_Permutation; [done| |lia].
    intros i Hi. apply Hflag, lookup_lt_Some in Hi.
    by rewrite (qi_length _ _ _ _ _ _ Hqinv) in Hi. }
  rewrite Hperm. by rewrite omap_lookup_seq.
Qed.

(** X18. [logic_rr] raises on the empty list ([procs[0]]).  On any other
    list, with a positive quantum and no negative [remaining_time], it
    returns: [res] holds the processes of the input, every one exactly
    once, each with nothing remaining; no slice of the log begins before
    time 0, is longer than the quantum or has a negative length, and a
    slice begins only after every earlier slice has ended. *)
Theorem logic_rr_returns_each_process_once :
  (∀ fuel q, Main.logic_rr fuel [] q = Some None)
  ∧ ∀ (procs : list Main.Process) (q : Z),
      procs ≠ [] → 0 < q → Forall (fun p => 0 ≤ Main.remaining_time p) procs →
      ∃ fuel res gantt,
        Main.logic_rr fuel procs q = Some (Some (res, gantt))
        ∧ map main_job res ≡ₚ map main_job procs
        ∧ Forall (fun p => Main.remaining_time p = 0) res
        ∧ Forall (fun g => 0 ≤ seg_start g ∧ 0 ≤ duration g ∧ duration g ≤ q) gantt
        ∧ in_time_order gantt.
Proof.
  split; [done|]. intros procs q Hne Hq Hvalid.
  destruct (logic_rr_loop (sort_by Main.arrival_time procs) q)
    as (fuel & st & Hrun & [Hstatic _ _ _ _ Hchart Hshort] & Hall & Hzero);
    [|done|by rewrite sort_by_Permutation|].
  { intros Heq. apply (f_equal length) in Heq. rewrite sort_by_length in Heq.
    by destruct procs. }
  exists fuel. eexists _, _. rewrite logic_rr_unfold, Hrun by done. simpl.
  split; [done|]. split; [|split; [|split]].
  - rewrite (map_fmap _ (omap _ _)), Hall, <- map_fmap, Hstatic.
    rewrite !map_fmap. apply fmap_Permutation, sort_by_Permutation.
  - by rewrite Hall.
  - destruct Hchart as (_ & Hsegs & _). apply Forall_forall. intros g Hg.
    pose proof (proj1 (Forall_forall _ _) Hsegs g Hg) as (? & ? & _).
    pose proof (proj1 (Forall_forall _ _) Hshort g Hg) as Hd. simpl in Hd.
    unfold duration, seg_start, seg_end in *. lia.
  - by destruct Hchart as (_ & _ & ?).
Qed.

Lemma logic_rr_returns_each_process_once_witness :
  ∃ fuel res gantt,
    Main.logic_rr fuel [Main.new_Process (VStr "P1") 0 5 1;
                        Main.new_Process (VStr "P2") 1 3 1] 2
    = Some (Some (res, gantt))
    ∧ map main_job res ≡ₚ map main_job [Main.new_Process (VStr "P1") 0 5 1;
                                        Main.new_Process (VStr "P2") 1 3 1]
    ∧ Forall (fun p => Main.remaining_time p = 0) res
    ∧ Forall (fun g => 0 ≤ seg_start g ∧ 0 ≤ duration g ∧ duration g ≤ 2) gantt
    ∧ in_time_order gantt.
Proof.
  apply (proj2 logic_rr_returns_each_process_once); [done|lia|].
  repeat (constructor; [simpl; lia|]). constructor.
Defined.

(** ** priority_scheduling.py: the chart and the utilization *)

Section WhileRaisingInvariant.
Context {St : Type} (cond : St → bool) (body : St → option St).

(** The invariant rule for a loop whose body can raise. *)
Lemma while_raising_invariant (I : St → Prop) fuel s r :
  (∀ s s', I s → cond s = true → body s = Some s' → I s') →
  I s → while_raising cond body fuel s = Some (Some r) → I r ∧ cond r = false.
Proof.
  intros Hstep. revert s. induction fuel as [|fuel IH]; intros s Hs; simpl; [done|].
  destruct (cond s) eqn:Hc.
  - destruct (body s) as [s'|] eqn:Hb; [|done].
    intros Hrun. apply (IH s'); [|done]. by apply (Hstep s).
  - by intros [= <-].
Qed.
End WhileRaisingInvariant.

(** [round(x, 2)] stays between two whole numbers that [x] lies between. *)
Lemma round_half_even_bounds (q : Q) (lo hi : Z) :
  (inject_Z lo <= q)%Q → (q <= inject_Z hi)%Q →
  lo ≤ round_half_even q ∧ round_half_even q ≤ hi.
Proof.
  intros Hlo Hhi. unfold round_half_even.
  pose proof (Qfloor_le q) as Hf1. pose proof (Qlt_floor q) as Hf2.
  set (f := Qfloor q) in *. rewrite inject_Z_plus in Hf2.
  assert (lo ≤ f) as Hlof.
  { apply Z.lt_succ_r. rewrite Zlt_Qlt. unfold Z.succ. rewrite inject_Z_plus. lra. }
  assert (f ≤ hi) as Hfhi by (rewrite Zle_Qle; lra).
  destruct (Qcompare_spec (q - inject_Z f) (1 # 2)) as [Heq|Hlt|Hgt].
  - destruct (Z.even f); [lia|]. split; [lia|].
    apply Z.lt_succ_r. cut (f < hi); [lia|]. rewrite Zlt_Qlt. lra.
  - lia.
  - split; [lia|]. cut (f < hi); [lia|]. rewrite Zlt_Qlt. lra.
Qed.

Lemma round2_percentage (x : Q) : (0 <= x <= 100)%Q → (0 <= round2 x <= 100)%Q.
Proof.
  intros [H0 H100]. unfold round2.
  destruct (round_half_even_bounds (x * 100) 0 10000) as [Hlo Hhi].
  { change (inject_Z 0) with 0%Q. lra. }
  { change (inject_Z 10000) with 10000%Q. lra. }
  rewrite Zle_Qle in Hlo, Hhi.
  change (inject_Z 0) with 0%Q in Hlo. change (inject_Z 10000) with 10000%Q in Hhi.
  split.
  - apply Qle_shift_div_l; lra.
  - apply Qle_shift_div_r; lra.
Qed.

Section PriorityChart.
Variable l : list pjob.
Hypothesis l_nonempty : l ≠ [].
Hypothesis l_valid : Forall (fun j => 0 ≤ pjob_arrival j ∧ 0 < pjob_burst j) l.

(** The chart of [priority_scheduling] against its clock. *)
Definition prio_chart_inv (st : Priority.state) : Prop :=
  (∃ t ran, st = prio_state t ran)
  ∧ chart_behind (Priority.current_time st) (Priority.st_gantt_chart st)
  ∧ Forall (fun g => seg_start g < seg_end g) (Priority.st_gantt_chart st)
  ∧ sum (map duration (Priority.st_gantt_chart st)) ≤ Priority.current_time st.

Lemma prio_body_chart st st' :
  prio_chart_inv st → Priority.body (map prio_input l) st = Some st' → prio_chart_inv st'.
Proof.
  intros ((t & ran & ->) & Hchart & Hpos & Hsum).
  rewrite prio_body_jobs by done. intros [= <-]. split; [eauto|].
  cbn [prio_state Priority.current_time Priority.st_gantt_chart] in *.
  unfold prio_step.
  destruct (min_by pjob_priority (filter (fun j => pjob_arrival j ≤ t) l))
    as [j|] eqn:Hmin; cbn [fst snd].
  - apply min_by_elem_of, list_elem_of_filter in Hmin as [_ Hj].
    destruct (proj1 (Forall_forall _ _) l_valid j Hj) as [_ Hb]. cbv beta in Hb.
    rewrite !map_app. cbn [map].
    change (prio_segment (t, j)) with (pjob_pid j, t, t + pjob_burst j).
    split; [|split].
    + apply chart_behind_snoc; [done|lia].
    + apply Forall_app. split; [done|]. constructor; [|done].
      unfold seg_start, seg_end. cbn [fst snd]. lia.
    + rewrite sum_app, sum_cons, sum_nil. unfold duration at 2. cbn [fst snd]. lia.
  - apply min_by_None in Hmin.
    destruct (min_by_is_Some id (map pjob_arrival l)) as [m Hm]; [by destruct l|].
    rewrite Hm. cbn [default].
    apply min_by_elem_of in Hm. rewrite map_fmap in Hm.
    apply list_elem_of_fmap in Hm as (jm & -> & Hjm).
    assert (t < pjob_arrival jm) as Hlate.
    { destruct (Z.lt_ge_cases t (pjob_arrival jm)) as [|Hle]; [done|].
      assert (jm ∈ filter (fun j => pjob_arrival j ≤ t) l) as Hin
        by (apply list_elem_of_filter; split; [lia|done]).
      rewrite Hmin in Hin. by apply elem_of_nil in Hin. }
    unfold id. split; [|split; [done|lia]]. apply (chart_behind_later _ _ _ Hchart). lia.
Qed.
End PriorityChart.

Definition example_pjobs : list pjob :=
  [ (VStr "P1", 0, 5, 2); (VStr "P2", 1, 3, 1); (VStr "P3", 2, 4, 3);
    (VStr "P4", 3, 2, 2) ].

(** Steps 13 to 15 on the state the loop ends in. *)
Lemma prio_summarize t ran sj :
  last ran = Some sj → sj.1 + pjob_burst sj.2 = t → 0 < t →
  Priority.summarize (prio_state t ran)
  = Some {| Priority.results_ := map prio_result ran;
            Priority.gantt_chart := map prio_segment ran;
            Priority.avg_waiting_time :=
              round2 (true_div (sum (map (fun sj => sj.1 - pjob_arrival sj.2) ran))
                               (Z.of_nat (length ran)));
            Priority.avg_turnaround_time :=
              round2 (true_div
                        (sum (map (fun sj => sj.1 + pjob_burst sj.2 - pjob_arrival sj.2) ran))
                        (Z.of_nat (length ran)));
            Priority.cpu_utilization :=
              round2 (true_div (sum (map (fun sj => pjob_burst sj.2) ran)) t * 100)%Q |}.
Proof.
  intros Hsj Hend Hpos. unfold Priority.summarize.
  cbn [prio_state Priority.completed_processes Priority.st_gantt_chart].
  rewrite (mapM_map_Some (fun p => get_int p "waiting_time") prio_result
             (fun sj => sj.1 - pjob_arrival sj.2)) by reflexivity.
  cbn [mbind option_bind].
  rewrite (mapM_map_Some (fun p => get_int p "turnaround_time") prio_result
             (fun sj => sj.1 + pjob_burst sj.2 - pjob_arrival sj.2)) by reflexivity.
  cbn [mbind option_bind].
  rewrite option_guard_True by (rewrite length_map; destruct ran; [done|simpl; lia]).
  rewrite (mapM_map_Some (fun p => get_int p "burst_time") prio_result
             (fun sj => pjob_burst sj.2)) by reflexivity.
  cbn [mbind option_bind].
  rewrite map_fmap, fmap_last, Hsj. cbn [fmap option_fmap option_map mbind option_bind].
  replace (get_int (prio_result sj) "completion_time")
    with (Some (sj.1 + pjob_burst sj.2)) by reflexivity.
  cbn [mbind option_bind]. rewrite Hend.
  destruct (Z.ltb_spec 0 t); [|lia].
  by rewrite <- map_fmap, length_map.
Qed.

Lemma prio_segments_duration ran :
  map duration (map prio_segment ran) = map (fun sj : Z * pjob => pjob_burst sj.2) ran.
Proof.
  rewrite map_map. apply map_ext. intros [s j]. unfold duration. simpl. lia.
Qed.



(** ** priority_scheduling.py: a finished process stays available *)

Lemma filter_all {A : Type} (P : A → Prop) `{!∀ x, Decision (P x)} (l : list A) :
  Forall P l → filter P l = l.
Proof.
  induction 1 as [|x l Hx Hl IH]; [done|].
  rewrite filter_cons, decide_True by done. by rewrite IH.
Qed.

(** The state after [k] back-to-back runs of job [j] from time 0. *)
Definition prio_reruns (j : pjob) (k : nat) : list (Z * pjob) :=
  map (fun i : nat => (Z.of_nat i * pjob_burst j, j)) (seq 0 k).

Lemma prio_reruns_S j k :
  prio_reruns j (S k) = prio_reruns j k ++ [(Z.of_nat k * pjob_burst j, j)].
Proof. unfold prio_reruns. by rewrite seq_S, map_app. Qed.



(** ** priority_scheduling.py: a missing key *)

Lemma available_raises processes t completed :
  Exists (fun p => get_int p "arrival_time" = None) processes →
  Priority.available processes t completed = None.
Proof.
  induction 1 as [p ps Hp|p ps Hps IH]; simpl.
  - by rewrite Hp.
  - rewrite IH. by destruct (get_int p "arrival_time").
Qed.

(** X21. [priority_scheduling] on a list in which some dictionary has no
    ['arrival_time'] (or holds no number there) raises in its first pass,
    when it collects the available processes, whatever the other
    dictionaries hold: it returns no result and does not loop. *)
Theorem priority_scheduling_raises_without_arrival_time
    (processes : list dict) (fuel : nat) :
  Exists (fun p => get_int p "arrival_time" = None) processes →
  Priority.priority_scheduling (S fuel) processes = Some None.
Proof.
  intros Hex. unfold Priority.priority_scheduling.
  destruct processes as [|p ps]; [by apply Exists_nil in Hex|].
  cbn [while_raising]. unfold Priority.cond at 1. cbn [Priority.completed_processes].
  replace ((length (@nil dict) <? length (p :: ps))%nat) with true by done.
  unfold Priority.body at 1. cbn [Priority.current_time Priority.completed_processes].
  by rewrite available_raises.
Qed.

Lemma priority_scheduling_raises_without_arrival_time_witness :
  Priority.priority_scheduling 1
    [ Priority.mk_process (VStr "P1") 0 5 2;
      {["pid" := VStr "P2"; "burst_time" := VInt 3; "priority" := VInt 1]} ]
  = Some None.
Proof.
  apply priority_scheduling_raises_without_arrival_time.
  apply Exists_cons_tl, Exists_cons_hd. reflexivity.
Defined.

(** ** main.py: logic_sjf against sjf.py *)

Section WhileTogether.
Context {S1 S2 : Type} (cond1 : S1 → bool) (body1 : S1 → S1)
        (cond2 : S2 → bool) (body2 : S2 → S2) (R : S1 → S2 → Prop).

(** Two loops that test alike and step alike on related states end
    together, in related states. *)
Lemma while_together :
  (∀ s1 s2, R s1 s2 → cond1 s1 = cond2 s2) →
  (∀ s1 s2, R s1 s2 → cond1 s1 = true → R (body1 s1) (body2 s2)) →
  ∀ fuel s1 s2 r2, R s1 s2 → while cond2 body2 fuel s2 = Some r2 →
    ∃ r1, while cond1 body1 fuel s1 = Some r1 ∧ R r1 r2.
Proof.
  intros Hcond Hbody fuel. induction fuel as [|fuel IH]; intros s1 s2 r2 HR; simpl; [done|].
  rewrite <- (Hcond s1 s2 HR). destruct (cond1 s1) eqn:Hc.
  - apply IH. by apply Hbody.
  - intros [= <-]. by exists s1.
Qed.
End WhileTogether.

(** One pass of [logic_sjf] and of [logic_priority]. *)
Lemma select_body_spec (key : Main.Process → Z) (st : Main.state) :
  (∀ i0 p0, ready st i0 p0 →
     ∃ idx p,
       ready st idx p
       ∧ (∀ j p', ready st j p' → key p ≤ key p' ∧ (key p' = key p → (idx ≤ j)%nat))
       ∧ Main.select_body key st
         = {| Main.procs := <[idx := Main.run_whole (Main.t st) p]> (Main.procs st);
              Main.t := Main.t st + Main.burst_time p;
              Main.count := S (Main.count st);
              Main.res := Main.res st ++ [idx];
              Main.comp := <[idx := true]> (Main.comp st) |})
  ∧ ((∀ i p, ¬ ready st i p) →
     Main.select_body key st
     = {| Main.procs := Main.procs st; Main.t := Main.t st + 1;
          Main.count := Main.count st; Main.res := Main.res st;
          Main.comp := Main.comp st |}).
Proof.
  split.
  - intros i0 p0 Hready. apply elem_of_avail in Hready.
    unfold Main.select_body.
    destruct (min_by _ _) as [[idx p]|] eqn:Hmin.
    2:{ apply min_by_None in Hmin. rewrite Hmin in Hready.
        by apply elem_of_nil in Hready. }
    apply (min_by_first_position key) in Hmin as [Hin Hleast];
      [|apply enumerate_from_filter_increasing].
    exists idx, p. split; [by apply elem_of_avail|]. split; [|done].
    intros j p' Hj. apply Hleast. by apply elem_of_avail.
  - intros Hnone. unfold Main.select_body.
    destruct (min_by _ _) as [[idx p]|] eqn:Hmin; [|done].
    apply min_by_elem_of, elem_of_avail in Hmin. by destruct (Hnone idx p).
Qed.

(** The process object of [sjf.py] for a process of [main.py]. *)
Definition sjf_of_main (p : Main.Process) : Sjf.Process :=
  Sjf.new_Process (Main.pid p) (Main.arrival_time p) (Main.burst_time p).

(** A process of [sjf.py] and a process of [main.py] at the same point of
    the same schedule: the same identity, and either both still to run or
    both finished with the same times. *)
Definition sjf_same (sp : Sjf.Process) (mp : Main.Process) (done_ : bool) : Prop :=
  Sjf.pid sp = Main.pid mp ∧ Sjf.arrival sp = Main.arrival_time mp
  ∧ Sjf.burst sp = Main.burst_time mp
  ∧ if done_
    then Sjf.completion sp = Some (Main.completion_time mp)
         ∧ Sjf.turnaround sp = Main.turnaround_time mp
         ∧ Sjf.waiting sp = Main.waiting_time mp
    else Sjf.completion sp = None.

Record sjf_sim (s : Sjf.state) (m : Main.state) : Prop := {
  ss_inv : select_inv m;
  ss_time : Sjf.time s = Main.t m;
  ss_count : Sjf.completed s = Main.count m;
  ss_length : length (Sjf.processes s) = length (Main.procs m);
  ss_same : ∀ i sp mp b, Sjf.processes s !! i = Some sp → Main.procs m !! i = Some mp →
                         Main.comp m !! i = Some b → sjf_same sp mp b;
  ss_gantt : Sjf.gantt s
             = map main_segment (omap (fun i => Main.procs m !! i) (Main.res m))
}.

Lemma sjf_sim_ready s m i :
  sjf_sim s m →
  (∀ sp, sjf_ready s i sp → ∃ mp, ready m i mp ∧ sjf_same sp mp false)
  ∧ (∀ mp, ready m i mp → ∃ sp, sjf_ready s i sp ∧ sjf_same sp mp false).
Proof.
  intros [Hinv Ht _ Hlen Hsame _]. split.
  - intros sp (Hsp & Harr & Hnone).
    destruct (lookup_lt_is_Some_2 (Main.procs m) i) as [mp Hmp].
    { rewrite <- Hlen. by eapply lookup_lt_Some. }
    destruct (lookup_lt_is_Some_2 (Main.comp m) i) as [b Hb].
    { rewrite (sl_length _ Hinv). by eapply lookup_lt_Some. }
    pose proof (Hsame i sp mp b Hsp Hmp Hb) as Hrel.
    destruct b.
    { destruct Hrel as (_ & _ & _ & Hc & _). congruence. }
    exists mp. split; [|done]. destruct Hrel as (_ & Ha & _).
    repeat split; [done| |done]. lia.
  - intros mp (Hmp & Harr & Hb).
    destruct (lookup_lt_is_Some_2 (Sjf.processes s) i) as [sp Hsp].
    { rewrite Hlen. by eapply lookup_lt_Some. }
    pose proof (Hsame i sp mp false Hsp Hmp Hb) as Hrel.
    exists sp. split; [|done]. destruct Hrel as (_ & Ha & _ & Hnone).
    repeat split; [done| |done]. lia.
Qed.

Lemma sjf_sim_body s m :
  sjf_sim s m → Sjf.cond s = true →
  sjf_sim (Sjf.body s) (Main.select_body Main.burst_time m).
Proof.
  intros Hsim Hcond.
  assert (Main.cond m = true) as Hcond'.
  { destruct Hsim as [_ _ Hc Hl _ _]. unfold Sjf.cond in Hcond. unfold Main.cond.
    by rewrite <- Hc, <- Hl. }
  pose proof (proj1 (select_body_step Main.burst_time m (ss_inv _ _ Hsim) Hcond')) as Hinv'.
  destruct (sjf_body_spec s) as [Hrun Hidle].
  destruct (select_body_spec Main.burst_time m) as [Hrun' Hidle'].
  destruct (filter (fun ip : nat * Sjf.Process =>
                      (Sjf.arrival ip.2 <=? Sjf.time s)
                      && bool_decide (Sjf.completion ip.2 = None))
                   (enumerate (Sjf.processes s))) as [|[i0 sp0] rest] eqn:Hq.
  2:{ assert (sjf_ready s i0 sp0) as Hready.
      { apply elem_of_sjf_ready. rewrite Hq. by left. }
      clear Hq rest.
      destruct (Hrun i0 sp0 Hready) as (idx & sp & Hsp & Hleast & Hg & Hps & Ht & Hc).
    destruct (proj1 (sjf_sim_ready s m i0 Hsim) sp0 Hready) as (mp0 & Hready' & _).
    destruct (Hrun' i0 mp0 Hready') as (idx' & mp & Hmp & Hleast' & Hbody).
    destruct (proj1 (sjf_sim_ready s m idx Hsim) sp Hsp) as (mp1 & Hmp1 & Hrel1).
    destruct (proj2 (sjf_sim_ready s m idx' Hsim) mp Hmp) as (sp1 & Hsp1 & Hrel1').
    assert (idx' = idx) as ->.
    { destruct (Hleast idx' sp1 Hsp1) as [Hle1 Hfirst1].
      destruct (Hleast' idx mp1 Hmp1) as [Hle2 Hfirst2].
      destruct Hrel1 as (_ & _ & Hb1 & _). destruct Hrel1' as (_ & _ & Hb1' & _).
      assert (Sjf.burst sp1 = Sjf.burst sp) as Heq by lia.
      specialize (Hfirst1 Heq). assert (Main.burst_time mp1 = Main.burst_time mp) as Heq'
        by lia.
      specialize (Hfirst2 Heq'). lia. }
    assert (mp1 = mp) as -> by (destruct Hmp as [? _], Hmp1 as [? _]; congruence).
    destruct Hsp as (Hsp & _ & Hnone). destruct Hmp as (Hmp & _ & Hfalse).
    destruct Hrel1 as (Hpid & Harr & Hburst & _).
    destruct Hsim as [Hinv Htime Hcount Hlen Hsame Hgantt].
    rewrite Hbody. rewrite Hbody in Hinv'.
    assert (idx ∉ Main.res m) as Hnot.
    { intros Hin. apply (sl_res _ Hinv) in Hin. congruence. }
    split; simpl.
    + done.
    + rewrite Ht. lia.
    + rewrite Hc. lia.
    + by rewrite Hps, !length_insert.
    + intros i sp' mp' b. rewrite Hps. destruct (decide (i = idx)) as [->|Hne].
      * rewrite !list_lookup_insert_eq by (by eapply lookup_lt_Some).
        intros [= <-] [= <-] [= <-]. unfold sjf_same. simpl.
        repeat split; try done; try lia. f_equal. lia.
      * rewrite !list_lookup_insert_ne by done. apply Hsame.
    + rewrite Hg, Hgantt, omap_app, map_app, omap_lookup_insert_notin by done. simpl.
      rewrite list_lookup_insert_eq by (by eapply lookup_lt_Some). simpl.
      unfold main_segment. simpl. rewrite Hpid, Htime, Hburst. done. }
  - assert (∀ i sp, ¬ sjf_ready s i sp) as Hnone1.
    { intros i sp H. apply elem_of_sjf_ready in H. rewrite Hq in H.
      by apply elem_of_nil in H. }
    assert (∀ i mp, ¬ ready m i mp) as Hnone2.
    { intros i mp H. destruct (proj2 (sjf_sim_ready s m i Hsim) mp H) as (sp & Hsp & _).
      by apply (Hnone1 i sp). }
    rewrite (Hidle Hnone1), (Hidle' Hnone2). rewrite (Hidle' Hnone2) in Hinv'.
    destruct Hsim as [Hinv Htime Hcount Hlen Hsame Hgantt].
    split; simpl; try done. lia.
Qed.

(** The times a scheduler leaves in a process: pid, arrival, burst,
    completion, turnaround and waiting. *)
Definition main_times (p : Main.Process) : value * Z * Z * option Z * Z * Z :=
  (Main.pid p, Main.arrival_time p, Main.burst_time p, Some (Main.completion_time p),
   Main.turnaround_time p, Main.waiting_time p).

Definition sjf_times (p : Sjf.Process) : value * Z * Z * option Z * Z * Z :=
  (Sjf.pid p, Sjf.arrival p, Sjf.burst p, Sjf.completion p, Sjf.turnaround p,
   Sjf.waiting p).



(** ** main.py: logic_rr against rr.py *)

Section ScanAgree.
Context {P P' : Type}.

(** Two scans enqueue the same positions when test and flag agree
    position by position. *)
Lemma newly_from_agree (test : P → bool) (test' : P' → bool) k ps ps' a a' :
  length ps = length ps' →
  (∀ i p p', ps !! i = Some p → ps' !! i = Some p' →
     test p && negb (default true (a !! (k + i)%nat))
     = test' p' && negb (default true (a' !! (k + i)%nat))) →
  newly_from test k ps a = newly_from test' k ps' a'.
Proof.
  revert k ps'. induction ps as [|p ps IH]; intros k [|p' ps'] Hlen Hagree;
    simplify_eq/=; [done|].
  rewrite !newly_from_cons.
  rewrite (IH (S k) ps');
    [|done|intros i x x' ? ?; replace (S k + i)%nat with (k + S i)%nat by lia;
           by apply (Hagree (S i))].
  specialize (Hagree 0%nat p p' eq_refl eq_refl). rewrite Nat.add_0_r in Hagree.
  by rewrite Hagree.
Qed.

(** A scan is settled by the positions it enqueues. *)
Lemma enqueue_arrivals_by_newly (test : P → bool) (test' : P' → bool) ps ps' q a :
  newly test ps a = newly test' ps' a →
  enqueue_arrivals test ps q a = enqueue_arrivals test' ps' q a.
Proof.
  intros Hn.
  destruct (enqueue_arrivals_spec test ps q a) as (H1 & H2 & H3 & _).
  destruct (enqueue_arrivals_spec test' ps' q a) as (H1' & H2' & H3' & _).
  destruct (enqueue_arrivals test ps q a) as [r1 r2],
    (enqueue_arrivals test' ps' q a) as [r1' r2']. simpl in *.
  f_equal; [congruence|]. apply list_eq. intros i. by rewrite H3, H3', Hn.
Qed.

(** Scans of two lists with the same keys, by a test on the key. *)
Lemma enqueue_arrivals_same_keys (key : P → Z) (key' : P' → Z) (f : Z → bool) ps ps' q a :
  map key ps = map key' ps' →
  enqueue_arrivals (fun p => f (key p)) ps q a
  = enqueue_arrivals (fun p => f (key' p)) ps' q a.
Proof.
  intros Hkeys. apply enqueue_arrivals_by_newly, newly_from_agree.
  - apply (f_equal length) in Hkeys. by rewrite !length_map in Hkeys.
  - intros i p p' Hp Hp'.
    apply (f_equal (fun l => l !! i)) in Hkeys.
    rewrite !map_fmap, !list_lookup_fmap, Hp, Hp' in Hkeys. simpl in Hkeys.
    by injection Hkeys as ->.
Qed.
End ScanAgree.

Section ScanTwice.
Context {P : Type}.

(** A scan that no unflagged process passes changes nothing. *)
Lemma enqueue_arrivals_noop (test : P → bool) ps q a :
  (∀ i p, ps !! i = Some p → a !! i = Some false → test p = false) →
  enqueue_arrivals test ps q a = (q, a).
Proof.
  intros Hnone.
  assert (newly test ps a = []) as Hn.
  { apply elem_of_nil_inv. intros i Hi.
    apply elem_of_newly in Hi as (Hf & p & Hp & Ht).
    by rewrite (Hnone i p Hp Hf) in Ht. }
  destruct (enqueue_arrivals_spec test ps q a) as (H1 & H2 & H3 & _).
  destruct (enqueue_arrivals test ps q a) as [r1 r2]. simpl in *. f_equal.
  - by rewrite H1, Hn, app_nil_r.
  - apply list_eq. intros i. rewrite H3, Hn.
    by rewrite decide_False by apply not_elem_of_nil.
Qed.

(** The queue a scan starts from is only extended. *)
Lemma enqueue_arrivals_queue (test : P → bool) ps q0 q a :
  enqueue_arrivals test ps (q0 ++ q) a
  = (q0 ++ (enqueue_arrivals test ps q a).1, (enqueue_arrivals test ps q a).2).
Proof.
  destruct (enqueue_arrivals_spec test ps (q0 ++ q) a) as (H1 & H2 & H3 & _).
  destruct (enqueue_arrivals_spec test ps q a) as (H1' & H2' & H3' & _).
  destruct (enqueue_arrivals test ps (q0 ++ q) a) as [r1 r2],
    (enqueue_arrivals test ps q a) as [r1' r2']. simpl in *. f_equal.
  - by rewrite H1, H1', app_assoc.
  - apply list_eq. intros i. by rewrite H3, H3'.
Qed.

(** In a list sorted by [key] the processes up to [t'] are those up to
    [t] followed by those after [t] and up to [t']. *)
Lemma newly_from_split (key : P → Z) (t t' : Z) k ps a :
  StronglySorted Z.le (map key ps) → t ≤ t' →
  newly_from (fun p => key p <=? t') k ps a
  = newly_from (fun p => key p <=? t) k ps a
    ++ newly_from (fun p => (t <? key p) && (key p <=? t')) k ps a.
Proof.
  intros Hs Ht. revert k. induction ps as [|p ps IH]; intros k; [done|].
  simpl in Hs. apply StronglySorted_inv in Hs as [Hs Hp].
  destruct (Z.le_gt_cases (key p) t) as [Hle|Hgt].
  - rewrite !newly_from_cons, IH by done.
    rewrite (proj2 (Z.leb_le (key p) t)) by done.
    rewrite (proj2 (Z.leb_le (key p) t')) by lia.
    rewrite (proj2 (Z.ltb_ge t (key p))) by lia. simpl.
    by destruct (negb _).
  - assert (newly_from (fun p => key p <=? t) k (p :: ps) a = []) as ->.
    { apply elem_of_nil_inv. intros i Hi.
      apply elem_of_newly_from in Hi as (_ & _ & x & Hx & Htest).
      apply Z.leb_le in Htest.
      apply list_elem_of_lookup_2, elem_of_cons in Hx as [->|Hx]; [lia|].
      rewrite Forall_forall in Hp.
      assert (key p ≤ key x); [|lia].
      apply Hp. rewrite map_fmap. apply list_elem_of_fmap. by exists x. }
    simpl. apply newly_from_agree; [done|]. intros i x x' Hx Hx'. simplify_eq.
    f_equal.
    assert (key p ≤ key x) as Hpx.
    { apply list_elem_of_lookup_2, elem_of_cons in Hx as [->|Hx]; [lia|].
      rewrite Forall_forall in Hp.
      apply Hp. rewrite map_fmap. apply list_elem_of_fmap. by exists x. }
    by rewrite (proj2 (Z.ltb_lt t (key x))) by lia.
Qed.

(** On a list sorted by [key], a scan up to [t] followed by a scan of what
    lies after [t] and up to [t'] is one scan up to [t']. *)
Lemma enqueue_arrivals_split (key : P → Z) (t t' : Z) ps q a :
  StronglySorted Z.le (map key ps) → t ≤ t' →
  enqueue_arrivals (fun p => (t <? key p) && (key p <=? t')) ps
    (enqueue_arrivals (fun p => key p <=? t) ps q a).1
    (enqueue_arrivals (fun p => key p <=? t) ps q a).2
  = enqueue_arrivals (fun p => key p <=? t') ps q a.
Proof.
  intros Hs Ht.
  destruct (enqueue_arrivals_spec (fun p => key p <=? t) ps q a) as (H1 & H2 & H3 & _).
  set (r := enqueue_arrivals (fun p => key p <=? t) ps q a) in *.
  set (B := fun p : P => (t <? key p) && (key p <=? t')).
  assert (newly B ps r.2 = newly B ps a) as HnB.
  { apply newly_from_agree; [done|]. intros i p p' Hp Hp'. simplify_eq.
    simpl. rewrite H3. case_decide as Hin; [|done].
    apply elem_of_newly in Hin as (Hf & x & Hx & Htest).
    assert (x = p) as -> by congruence.
    apply Z.leb_le in Htest. unfold B.
    by rewrite (proj2 (Z.ltb_ge t (key p))) by lia. }
  pose proof (newly_from_split key t t' 0 ps a Hs Ht) as Hsplit.
  change (newly (fun p => key p <=? t') ps a
          = newly (fun p => key p <=? t) ps a ++ newly B ps a) in Hsplit.
  destruct (enqueue_arrivals_spec B ps r.1 r.2) as (G1 & G2 & G3 & _).
  destruct (enqueue_arrivals_spec (fun p => key p <=? t') ps q a) as (K1 & K2 & K3 & _).
  destruct (enqueue_arrivals B ps r.1 r.2) as [x1 x2],
    (enqueue_arrivals (fun p => key p <=? t') ps q a) as [y1 y2]. simpl in *.
  f_equal.
  - by rewrite G1, K1, H1, HnB, Hsplit, app_assoc.
  - apply list_eq. intros i. rewrite G3, K3, H3, HnB, Hsplit.
    repeat case_decide; try done; set_solver.
Qed.
End ScanTwice.

Section ScanFlagged.
Context {P : Type}.

(** A process a scan leaves unflagged does not pass the test. *)
Lemma enqueue_arrivals_unflagged (test : P → bool) ps q a i p :
  (enqueue_arrivals test ps q a).2 !! i = Some false → ps !! i = Some p → test p = false.
Proof.
  intros Hf Hp.
  destruct (enqueue_arrivals_spec test ps q a) as (_ & _ & H3 & _).
  rewrite H3 in Hf. case_decide as Hin; [done|].
  destruct (test p) eqn:Ht; [|done].
  exfalso. apply Hin, elem_of_newly. eauto.
Qed.

(** The same scan a second time changes nothing. *)
Lemma enqueue_arrivals_twice (test : P → bool) ps q a :
  enqueue_arrivals test ps (enqueue_arrivals test ps q a).1 (enqueue_arrivals test ps q a).2
  = enqueue_arrivals test ps q a.
Proof.
  rewrite enqueue_arrivals_noop; [by destruct (enqueue_arrivals test ps q a)|].
  intros i p Hp Hf. by apply (enqueue_arrivals_unflagged test ps q a i).
Qed.
End ScanFlagged.

(** The process object of [rr.py] with the fields of a process of
    [main.py]; on a process as [Process.__init__] of [main.py] builds it,
    this is the process [Process.__init__] of [rr.py] builds. *)
Definition rr_of_main (p : Main.Process) : Rr.Process :=
  {| Rr.pid := Main.pid p; Rr.arrival := Main.arrival_time p;
     Rr.burst := Main.burst_time p; Rr.remaining := Main.remaining_time p;
     Rr.completion := Main.completion_time p; Rr.turnaround := Main.turnaround_time p;
     Rr.waiting := Main.waiting_time p |}.

Lemma rr_of_main_new pid arrival burst priority :
  rr_of_main (Main.new_Process pid arrival burst priority) = Rr.new_Process pid arrival burst.
Proof. reflexivity. Qed.

Lemma rr_of_main_insert c p procs :
  <[c := rr_of_main p]> (map rr_of_main procs) = map rr_of_main (<[c := p]> procs).
Proof. by rewrite !map_fmap, list_fmap_insert. Qed.

Lemma rr_scan_of_main (f : Z → bool) procs qu a :
  enqueue_arrivals (fun p => f (Rr.arrival p)) (map rr_of_main procs) qu a
  = enqueue_arrivals (fun p => f (Main.arrival_time p)) procs qu a.
Proof.
  apply (enqueue_arrivals_same_keys Rr.arrival Main.arrival_time f).
  by rewrite map_map.
Qed.

Lemma main_scan_same_arrivals (f : Z → bool) procs procs' qu a :
  map Main.arrival_time procs' = map Main.arrival_time procs →
  enqueue_arrivals (fun p => f (Main.arrival_time p)) procs' qu a
  = enqueue_arrivals (fun p => f (Main.arrival_time p)) procs qu a.
Proof. apply (enqueue_arrivals_same_keys Main.arrival_time Main.arrival_time f). Qed.

Lemma main_arrivals_insert procs c cur cur' :
  procs !! c = Some cur → Main.arrival_time cur' = Main.arrival_time cur →
  map Main.arrival_time (<[c := cur']> procs) = map Main.arrival_time procs.
Proof.
  intros Hc Ha. rewrite !map_fmap, list_fmap_insert, Ha.
  apply list_insert_id. by rewrite list_lookup_fmap, Hc.
Qed.

(** The states of [round_robin] and of [logic_rr] at the same point of the
    same schedule.  [round_robin] scans for arrivals at the start of a
    pass and [logic_rr] at the end of one, so the queue of [logic_rr] is
    ahead by one scan. *)
Record rr_sim (s : Rr.state) (m : Main.rr_state) : Prop := {
  rs_procs : Rr.processes s = map rr_of_main (Main.rr_procs m);
  rs_time : Rr.time s = Main.rr_t m;
  rs_count : Rr.completed s = Main.rr_count m;
  rs_gantt : Rr.gantt s = Main.gantt_log m;
  rs_scan : enqueue_arrivals (fun p => Main.arrival_time p <=? Main.rr_t m)
              (Main.rr_procs m) (Rr.queue s) (Rr.arrived s)
            = enqueue_arrivals (fun p => Main.arrival_time p <=? Main.rr_t m)
                (Main.rr_procs m) (Main.queue m) (Main.visited m);
  rs_head : Main.queue m = [] →
            ∀ i p, Main.rr_procs m !! i = Some p → Main.visited m !! i = Some false →
                   Main.rr_t m < Main.arrival_time p;
  rs_sorted : StronglySorted Z.le (map Main.arrival_time (Main.rr_procs m));
  rs_bounds : Forall (fun p => 0 ≤ Main.remaining_time p) (Main.rr_procs m)
}.

Lemma rr_sim_body q s m :
  0 < q → rr_sim s m → rr_sim (Rr.body q s) (Main.rr_body q m).
Proof.
  intros Hq Hsim. pose proof Hsim as [Hprocs Htime Hcount Hgantt Hscan Hhead Hsorted Hbounds].
  unfold Rr.body, Main.rr_body.
  rewrite Hprocs, Htime.
  rewrite (rr_scan_of_main (fun a => a <=? Main.rr_t m)), Hscan.
  destruct (Main.queue m) as [|c qm] eqn:Hqueue.
  - rewrite (enqueue_arrivals_noop _ _ [] (Main.visited m)).
    2:{ intros i p Hp Hf. apply Z.leb_gt. by apply (Hhead eq_refl i p). }
    cbn zeta. cbn [fst snd].
    split; cbn [Rr.processes Rr.time Rr.completed Rr.gantt Rr.queue Rr.arrived
                Main.rr_procs Main.rr_t Main.rr_count Main.gantt_log Main.queue
                Main.visited]; try done.
    + by rewrite enqueue_arrivals_twice.
    + intros _ i p Hp Hf. apply Z.leb_gt.
      by apply (enqueue_arrivals_unflagged _ _ _ _ _ _ Hf Hp).
  - rewrite (enqueue_arrivals_queue _ _ [c] qm). cbn [fst snd app].
    rewrite map_fmap, list_lookup_fmap, <- map_fmap.
    destruct (Main.rr_procs m !! c) as [cur|] eqn:Hcur; cbn [fmap option_fmap option_map];
      [|done].
    pose proof (Forall_lookup_1 _ _ _ _ Hbounds Hcur) as Hcur0. cbv beta in Hcur0.
    cbn zeta.
    set (run := Z.min (Main.remaining_time cur) q).
    change (Rr.remaining (rr_of_main cur)) with (Main.remaining_time cur).
    fold run.
    change (Rr.set_remaining (Main.remaining_time cur - run) (rr_of_main cur))
      with (rr_of_main (Main.set_remaining_time (Main.remaining_time cur - run) cur)).
    set (cur' := Main.set_remaining_time (Main.remaining_time cur - run) cur).
    rewrite rr_of_main_insert.
    set (procs' := <[c := cur']> (Main.rr_procs m)).
    assert (map Main.arrival_time procs' = map Main.arrival_time (Main.rr_procs m)) as Hkeys.
    { by apply main_arrivals_insert with cur. }
    rewrite (rr_scan_of_main (fun a => (Main.rr_t m <? a) && (a <=? Main.rr_t m + run))).
    rewrite (main_scan_same_arrivals
               (fun a => (Main.rr_t m <? a) && (a <=? Main.rr_t m + run)) _ _ _ _ Hkeys).
    rewrite (enqueue_arrivals_split Main.arrival_time) by (done || lia).
    rewrite <- (main_scan_same_arrivals (fun a => a <=? Main.rr_t m + run) _ _ _ _ Hkeys).
    set (Y := enqueue_arrivals (fun p => Main.arrival_time p <=? Main.rr_t m + run)
                procs' qm (Main.visited m)).
    change (Rr.remaining (rr_of_main cur')) with (Main.remaining_time cur').
    change (Rr.pid (rr_of_main cur')) with (Main.pid cur').
    change (Rr.finish (Main.rr_t m + run) (rr_of_main cur'))
      with (rr_of_main (Main.finish (Main.rr_t m + run) cur')).
    rewrite rr_of_main_insert.
    assert (Forall (fun p => 0 ≤ Main.remaining_time p) procs') as Hbounds'.
    { apply Forall_insert; [done|]. simpl. lia. }
    assert (procs' !! c = Some cur') as Hcur'.
    { apply list_lookup_insert_eq. by eapply lookup_lt_Some. }
    destruct (0 <? Main.remaining_time cur') eqn:Hrem;
      split; cbn [Rr.processes Rr.time Rr.completed Rr.gantt Rr.queue Rr.arrived
                  Main.rr_procs Main.rr_t Main.rr_count Main.gantt_log Main.queue
                  Main.visited]; try done.
    + by rewrite Hgantt.
    + by intros [_ ?]%app_nil.
    + by rewrite Hkeys.
    + by rewrite Hcount.
    + by rewrite Hgantt.
    + intros Hnil i p Hp Hf. apply Z.leb_gt. unfold Y in Hf.
      rewrite <- (main_scan_same_arrivals (fun a => a <=? Main.rr_t m + run)
                    procs' (<[c := Main.finish (Main.rr_t m + run) cur']> procs')) in Hf.
      * by apply (enqueue_arrivals_unflagged _ _ _ _ _ _ Hf Hp).
      * by apply main_arrivals_insert with cur'.
    + rewrite (main_arrivals_insert procs' c cur'); [by rewrite Hkeys|done..].
    + apply Forall_insert; [done|]. simpl. lia.
Qed.

Lemma rr_sim_init procs p0 rest :
  sort_by Main.arrival_time procs = p0 :: rest → Main.arrival_time p0 ≤ 0 →
  Forall (fun p => 0 ≤ Main.remaining_time p) procs →
  rr_sim (Rr.init (map rr_of_main procs)) (logic_rr_init (sort_by Main.arrival_time procs)).
Proof.
  intros Hsort Hp0 Hb.
  assert (length procs = S (length rest)) as Hlen.
  { by rewrite <- (sort_by_length Main.arrival_time), Hsort. }
  split; unfold Rr.init, logic_rr_init;
    cbn [Rr.processes Rr.time Rr.completed Rr.gantt Rr.queue Rr.arrived
         Main.rr_procs Main.rr_t Main.rr_count Main.gantt_log Main.queue Main.visited];
    try done.
  - by apply sort_by_map.
  - rewrite length_map, Hlen, Hsort. unfold enqueue_arrivals, enumerate. simpl.
    unfold enqueue_if at 2 4. simpl.
    by rewrite (proj2 (Z.leb_le (Main.arrival_time p0) 0)) by done.
  - rewrite map_fmap.
    eapply StronglySorted_fmap; [|apply (sort_by_sorted Main.arrival_time)]. done.
  - by rewrite sort_by_Permutation.
Qed.


